(** * openclaw-orchestrator: retry helper, executor and planner

    A shallow embedding of [src/utils/retry.ts], [src/executor/executor.ts],
    [src/planner/planner.ts], [src/schemas.ts] and [src/errors.ts], with the
    properties the specification states about them and further properties
    of the same code.

    Conventions of the embedding.
    - A JavaScript number is a [Z]: attempt counters, delays in milliseconds,
      retry counts and concurrency limits are integers in every use the
      properties below talk about.
    - A JavaScript string is a [string]; each [ascii] is one code unit
      (code units below 256).
    - A [Promise<T>] that has settled is a [Settled T]; an asynchronous
      operation is a transformer of the [World], which holds the state of
      everything outside the function at hand (adapters, rate limiter, clock)
      as an abstract [Env], the process-wide task cache, and the trace of
      observable events in the order they happen.
    - The calls of [executeNode] that [execute] starts for a batch each run
      up to their first suspension inside [batch.map], in batch order; what
      is left of them runs while [execute] awaits [Promise.allSettled], one
      call after the other in batch order. An adapter call is one step.
    - The callbacks [onNodeStart] and [onNodeEnd] may act on the environment;
      they return normally and leave the graph alone.
    - A step that can throw yields a sum, with what it throws on the left.
      [String(v)] is such a step, and so is the settling loop of [execute],
      which converts the reason of a rejected promise with it; [execute]
      rejects with what its loop throws.
    - An object made by [{}] and used as a map is the finite map of its own
      entries together with its prototype, which an assignment under the
      key [__proto__] sets. *)

From Stdlib Require Import ZArith String Ascii List Lia Bool.
From stdpp Require Import base option list gmap strings.

Local Open Scope string_scope.
Local Open Scope Z_scope.

(** ** Values *)

(** [errors.ts]: the error codes. *)
Inductive ErrorCode : Type :=
| PARSE_FAILED
| VALIDATION_FAILED
| DUPLICATE_REGISTRATION
| GRAPH_INVALID
| GATEWAY_TIMEOUT
| GATEWAY_CONNECTION_FAILED
| GATEWAY_PROTOCOL_ERROR
| AGENT_EXECUTION_FAILED
| CONFIG_MISSING.

(** What a [catch] clause or a rejected promise can carry ([unknown]): among
    the errors, an [OrchestratorError] has a [code] besides its name and
    message. Any other object is given by what converting it to a string
    does: it yields a string, or it throws (a [TypeError] for an object with
    no [toString] to call, as [Object.create(null)]; whatever its own
    [toString] throws otherwise). *)
#[warnings="-register-all"] Inductive JsValue : Type :=
| JsUndefined
| JsString (s : string)
| JsError (name message : string)
| JsOrchestratorError (name : string) (code : ErrorCode) (message : string)
| JsObject (toString_ : JsValue + string).

(** [Error.prototype.toString] *)
Definition error_toString (name message : string) : string :=
  if String.eqb message "" then name
  else if String.eqb name "" then message
  else name ++ ": " ++ message.

(** [String(v)]: the string, or what the conversion throws. For an [Error]
    it is [Error.prototype.toString]. *)
Definition String_ (v : JsValue) : JsValue + string :=
  match v with
  | JsUndefined => inr "undefined"
  | JsString s => inr s
  | JsError name message => inr (error_toString name message)
  | JsOrchestratorError name _ message => inr (error_toString name message)
  | JsObject toString_ => toString_
  end.

(** [errors.ts]: the concrete errors the planner throws. *)
Definition ParseError (message : string) : JsValue :=
  JsOrchestratorError "ParseError" PARSE_FAILED message.

Definition ValidationError (code : ErrorCode) (message : string) : JsValue :=
  JsOrchestratorError "ValidationError" code message.

Definition AgentError (message : string) : JsValue :=
  JsOrchestratorError "AgentError" AGENT_EXECUTION_FAILED message.

Definition ConfigError (message : string) : JsValue :=
  JsOrchestratorError "ConfigError" CONFIG_MISSING message.

(** The [code] of what was thrown, when it is an [OrchestratorError]. *)
Definition error_code (v : JsValue) : option ErrorCode :=
  match v with JsOrchestratorError _ c _ => Some c | _ => None end.

Inductive Settled (T : Type) : Type :=
| Fulfilled (value : T)
| Rejected (reason : JsValue).
Arguments Fulfilled {T} value.
Arguments Rejected {T} reason.

(** ** planner/types.ts *)

(** Modelled from the spec: the statuses of a node ([planner/types.ts] is
    not among the sources). *)
Inductive NodeStatus : Type := pending | running | done | failed | skipped.

(** Modelled from the spec: the tag of a [TaskResult]. *)
Inductive ResultStatus : Type := ok | error.

(** Modelled from the spec: a [TaskResult] is [ok(output)] or
    [error(output)]. *)
Record TaskResult : Type := mkResult { r_status : ResultStatus; output : string }.

(** Modelled from the spec: the per-node overrides, at present the retry
    count. *)
Record NodeConfig : Type := mkNodeConfig { retries : option Z }.

(** Modelled from the spec: a [TaskNode], with the fields the executor and
    the planner read and write. *)
Record TaskNode : Type := mkNode {
  id : string;
  task : string;
  dependsOn : list string;
  assignTo : option string;
  status : NodeStatus;
  result : option TaskResult;
  config : option NodeConfig
}.

(** Modelled from the spec: a [TaskGraph] is a goal, the sequence of its
    nodes and an optional synthesizer prompt. *)
Record TaskGraph : Type := mkGraph {
  goal : string;
  nodes : list TaskNode;
  synthesizerPrompt : option string
}.

#[global] Instance NodeStatus_eq_dec : EqDecision NodeStatus.
Proof. solve_decision. Defined.

#[global] Instance ResultStatus_eq_dec : EqDecision ResultStatus.
Proof. solve_decision. Defined.

Definition status_eqb (a b : NodeStatus) : bool := bool_decide (a = b).

Definition with_status (st : NodeStatus) (n : TaskNode) : TaskNode :=
  mkNode (id n) (task n) (dependsOn n) (assignTo n) st (result n) (config n).

Definition with_result (r : TaskResult) (n : TaskNode) : TaskNode :=
  mkNode (id n) (task n) (dependsOn n) (assignTo n) (status n) (Some r) (config n).

Definition count_status (st : NodeStatus) (l : list NodeStatus) : nat :=
  length (filter (fun s => s = st) l).
Arguments count_status : simpl never.

(** ** Observable events *)

Inductive LogLevel : Type := LDebug | LInfo | LError.

Inductive Event : Type :=
| EvInvoke (callee : string) (arg : string)   (* an external operation is called *)
| EvFulfilled                                 (* ... and its promise fulfils *)
| EvRejected (reason : JsValue)               (* ... or rejects *)
| EvSleep (ms : Z)                            (* setTimeout(r, ms) awaited *)
| EvAcquire (agent : string)                  (* agentRateLimiters.acquire *)
| EvExecuteNode (node : string)               (* this.executeNode(node) entered *)
| EvNodeStart (node : string)                 (* opts.onNodeStart called *)
| EvNodeEnd (node : string) (r : TaskResult)  (* opts.onNodeEnd called *)
| EvStatuses (snapshot : list NodeStatus)     (* the statuses after a write *)
| EvLog (level : LogLevel) (message : string)
    (context : list (string * string)).

Definition is_invoke (e : Event) : bool :=
  match e with EvInvoke _ _ => true | _ => false end.

Definition is_sleep (e : Event) : bool :=
  match e with EvSleep _ => true | _ => false end.

Definition is_acquire (e : Event) : bool :=
  match e with EvAcquire _ => true | _ => false end.

Definition is_statuses (e : Event) : bool :=
  match e with EvStatuses _ => true | _ => false end.

Definition is_execute_node (e : Event) : bool :=
  match e with EvExecuteNode _ => true | _ => false end.

Definition count_events (p : Event -> bool) (tr : list Event) : nat :=
  length (filter (fun e => p e = true) tr).

(** ** utils/cache.ts *)

(** Modelled from the spec: a cache entry is a value and the time it was
    inserted ([utils/cache.ts] is not among the sources). *)
Record CacheEntry : Type := mkEntry { value : string; insertedAt : Z }.

(** ** config.ts *)

(** Modelled from the spec: the options of [getConfig()] that the code
    embedded here reads ([config.ts] is not among the sources). *)
Record RetryConfig : Type := mkRetryConfig {
  cfg_maxAttempts : Z;
  cfg_baseDelayMs : Z;
  cfg_maxDelayMs : Z
}.

(** Modelled from the spec: see [RetryConfig]. *)
Record Config : Type := mkConfig {
  limits_maxConcurrency : Z;
  cache_enabled : bool;
  cache_ttl : Z;
  rateLimit_enabled : bool;
  retry : RetryConfig
}.

(** ** The world outside *)

(** The collaborators whose sources are outside this development: the clock,
    timers, the per-agent rate limiter and the source of random identifiers,
    as operations on an abstract environment. *)
Class Runtime (Env : Type) : Type := {
  Date_now : Env -> Z;
  setTimeout : Z -> Env -> Env;
  acquire : string -> Env -> Env;
  randomUUID : Env -> string * Env
}.

Section World.
Context {Env : Type} `{Runtime Env}.

Record World : Type := mkWorld {
  env : Env;
  taskCache : gmap string CacheEntry;
  trace : list Event
}.

Definition Async (T : Type) : Type := World -> Settled T * World.

Definition emit (evs : list Event) (w : World) : World :=
  mkWorld (env w) (taskCache w) (trace w ++ evs).

Definition on_env (f : Env -> Env) (w : World) : World :=
  mkWorld (f (env w)) (taskCache w) (trace w).

Definition settle_event {T} (r : Settled T) : Event :=
  match r with Fulfilled _ => EvFulfilled | Rejected e => EvRejected e end.

(** An operation of a collaborator: it acts on the environment only, and the
    trace records the call and how its promise settled. *)
Definition observed {T} (callee arg : string)
    (f : Env -> Settled T * Env) : Async T :=
  fun w =>
    let '(r, e) := f (env w) in
    (r, mkWorld e (taskCache w) (trace w ++ [EvInvoke callee arg; settle_event r])).

(** [await new Promise((r) => setTimeout(r, delay))] *)
Definition sleep (delay : Z) (w : World) : World :=
  emit [EvSleep delay] (on_env (setTimeout delay) w).

(** ** utils/retry.ts *)

Record RetryOptions : Type := mkRetryOptions {
  maxAttempts : option Z;
  baseDelayMs : option Z;
  maxDelayMs : option Z
}.

Section WithRetry.
Context {T : Type}.
Variable fn : Async T.
Variable maxAttempts_ baseDelayMs_ maxDelayMs_ : Z.

(** [Math.min(baseDelayMs * 2 ** (attempt - 1), maxDelayMs)] *)
Definition backoff (attempt : Z) : Z :=
  Z.min (baseDelayMs_ * 2 ^ (attempt - 1)) maxDelayMs_.

(** The [for] loop of [withRetry] from the iteration numbered [attempt], with
    [lastError] as assigned so far. [fuel] bounds the iterations left; the
    loop runs [maxAttempts - attempt + 1] of them at most. *)
Fixpoint retry_loop (fuel : nat) (attempt : Z) (lastError : JsValue)
    (w : World) : Settled T * World :=
  if attempt <=? maxAttempts_ then
    match fuel with
    | O => (Rejected lastError, w)
    | S fuel' =>
        match fn w with
        | (Fulfilled v, w1) => (Fulfilled v, w1)
        | (Rejected err, w1) =>
            if attempt =? maxAttempts_ then (Rejected err, w1)
            else retry_loop fuel' (attempt + 1) err (sleep (backoff attempt) w1)
        end
    end
  else (Rejected lastError, w).

End WithRetry.

(** [opts?.maxAttempts ?? cfg.maxAttempts], and likewise for the delays. *)
Definition retry_maxAttempts (cfg : RetryConfig) (opts : option RetryOptions) : Z :=
  default (cfg_maxAttempts cfg) (opts ≫= maxAttempts).

Definition retry_baseDelayMs (cfg : RetryConfig) (opts : option RetryOptions) : Z :=
  default (cfg_baseDelayMs cfg) (opts ≫= baseDelayMs).

Definition retry_maxDelayMs (cfg : RetryConfig) (opts : option RetryOptions) : Z :=
  default (cfg_maxDelayMs cfg) (opts ≫= maxDelayMs).

Definition withRetry {T} (cfg : RetryConfig) (fn : Async T)
    (opts : option RetryOptions) : Async T :=
  retry_loop fn (retry_maxAttempts cfg opts)
    (retry_baseDelayMs cfg opts) (retry_maxDelayMs cfg opts)
    (Z.to_nat (retry_maxAttempts cfg opts)) 1 JsUndefined.

(** The events of the attempts of [withRetry] that reject with [errs] and are
    followed by another attempt, the first of them numbered [attempt]: each
    is a call, its rejection, and the wait before the next call. *)
Fixpoint failed_attempts (callee arg : string)
    (baseDelayMs_ maxDelayMs_ : Z) (attempt : Z) (errs : list JsValue)
    : list Event :=
  match errs with
  | [] => []
  | e :: errs' =>
      [EvInvoke callee arg; EvRejected e;
       EvSleep (backoff baseDelayMs_ maxDelayMs_ attempt)]
      ++ failed_attempts callee arg baseDelayMs_ maxDelayMs_ (attempt + 1) errs'
  end.

(** What the attempts of a retried operation [f] that reject with [errs],
    each followed by another attempt, do to the environment, the first of
    them being attempt number [attempt]: [f] is called and rejects, then
    [setTimeout] runs for [min(baseDelayMs * 2^(attempt-1), maxDelayMs)]
    milliseconds, and so on from the environment that leaves; [e'] is the
    environment in which the attempt after them is made. *)
Fixpoint retried {T} (f : Env -> Settled T * Env) (baseDelayMs_ maxDelayMs_ : Z)
    (attempt : Z) (errs : list JsValue) (e e' : Env) : Prop :=
  match errs with
  | [] => e' = e
  | err :: errs' =>
      exists e1,
        f e = (Rejected err, e1)
        /\ retried f baseDelayMs_ maxDelayMs_ (attempt + 1) errs'
             (setTimeout (Z.min (baseDelayMs_ * 2 ^ (attempt - 1)) maxDelayMs_) e1)
             e'
  end.

(** The waits between [calls] attempts, in milliseconds. *)
Definition waits (baseDelayMs_ maxDelayMs_ : Z) (calls : nat) : list Z :=
  map (fun k => Z.min (baseDelayMs_ * 2 ^ (Z.of_nat k - 1)) maxDelayMs_)
    (seq 1 (pred calls)).

(** ** agents/adapter.ts and agents/registry.ts *)

(** Modelled from the spec: an adapter has a name, capabilities and
    [execute(node)], whose promise fulfils with a [TaskResult] or rejects
    ([agents/adapter.ts] is not among the sources). *)
Record AgentAdapter : Type := mkAgent {
  name : string;
  capabilities : list string;
  execute_ : TaskNode -> Env -> Settled TaskResult * Env
}.

(** Modelled from the spec: the registry ([agents/registry.ts] is not among
    the sources) keeps the adapters in registration order; [list()] is that
    sequence, and [pick(selector)] is the adapter whose name equals the
    selector, else any adapter whose declared capabilities include it, else
    absent. *)
Definition AgentRegistry : Type := list AgentAdapter.

(** Modelled from the spec: [list()] of the registry. *)
Definition registry_list (reg : AgentRegistry) : list AgentAdapter := reg.

(** Modelled from the spec: [pick(selector)] of the registry. *)
Definition registry_pick (reg : AgentRegistry) (selector : string)
    : option AgentAdapter :=
  match List.find (fun a => String.eqb (name a) selector) reg with
  | Some a => Some a
  | None => List.find (fun a => existsb (String.eqb selector) (capabilities a)) reg
  end.

(** ** utils/cache.ts *)

(** Modelled from the spec: [get(key)] of the task cache ([utils/cache.ts] is
    not among the sources) returns the value only if
    [now - insertedAt < ttl], otherwise absent. *)
Definition cache_get (ttl : Z) (key : string) (w : World) : option string :=
  match taskCache w !! key with
  | Some e =>
      if Date_now (env w) - insertedAt e <? ttl then Some (value e) else None
  | None => None
  end.

(** Modelled from the spec: [set(key, value)] of the task cache inserts or
    overwrites, stamping the entry with the current time. *)
Definition cache_set (key v : string) (w : World) : World :=
  mkWorld (env w)
    (<[key := mkEntry v (Date_now (env w))]> (taskCache w)) (trace w).

(** ** planner/task-graph.ts *)

(** Modelled from the spec: the node a dependency names, for the helpers of
    [planner/task-graph.ts] below. *)
Definition node_by_id (ns : list TaskNode) (d : string) : option TaskNode :=
  List.find (fun n => String.eqb (id n) d) ns.

(** Modelled from the spec: the terminal statuses are done, failed and
    skipped. *)
Definition is_terminal (st : NodeStatus) : bool :=
  match st with done | failed | skipped => true | _ => false end.

(** Modelled from the spec: [isComplete(graph)] ([planner/task-graph.ts] is
    not among the sources) holds when every node is in a terminal status. *)
Definition isComplete (ns : list TaskNode) : bool :=
  forallb (fun n => is_terminal (status n)) ns.

(** Modelled from the spec: a dependency is satisfied when the node it names
    is done. *)
Definition dep_done (ns : list TaskNode) (d : string) : bool :=
  match node_by_id ns d with
  | Some m => status_eqb (status m) done
  | None => false
  end.

(** Modelled from the spec: a ready node is a pending node whose every
    dependency is done. *)
Definition is_ready (ns : list TaskNode) (n : TaskNode) : bool :=
  status_eqb (status n) pending && forallb (dep_done ns) (dependsOn n).

(** Modelled from the spec: [readyNodes(graph)] iterates the node sequence
    and keeps the nodes whose status is pending and whose every dependency
    is done. The nodes it returns are the graph's own objects: here, their
    positions in [graph.nodes]. *)
Definition readyNodes (ns : list TaskNode) : list nat :=
  filter (fun i => from_option (is_ready ns) false (ns !! i) = true)
    (seq 0 (length ns)).

(** Modelled from the spec: [target] is in the dependency closure of [n],
    following at most [fuel] dependency edges. *)
Fixpoint depends_on_trans (fuel : nat) (ns : list TaskNode) (n : TaskNode)
    (target : string) : bool :=
  match fuel with
  | O => false
  | S fuel' =>
      existsb (fun d =>
        String.eqb d target ||
        match node_by_id ns d with
        | Some m => depends_on_trans fuel' ns m target
        | None => false
        end) (dependsOn n)
  end.

(** Modelled from the spec: [skipDownstream(graph, failedId)] marks every
    node still pending whose dependency closure contains [failedId] as
    skipped; a node in any other status is not touched. *)
Definition skipDownstream (ns : list TaskNode) (failedId : string)
    : list TaskNode :=
  map (fun n =>
    if status_eqb (status n) pending
       && depends_on_trans (length ns) ns n failedId
    then with_status skipped n else n) ns.

(** ** executor/types.ts *)

(** Modelled from the spec: the options of [execute] ([executor/types.ts] is
    not among the sources), by the fields executor.ts reads.
    [abortSignal.aborted] is a flag the caller trips from outside: it is read
    off the environment. The callbacks are observers: they may act on the
    environment, and they return normally. *)
Record ExecutionOptions : Type := mkOpts {
  maxConcurrency : option Z;
  abortSignal : option (Env -> bool);
  onNodeStart : option (string -> Env -> Env);
  onNodeEnd : option (string -> TaskResult -> Env -> Env)
}.

(** Modelled from the spec: what [execute] returns, by the fields
    executor.ts fills in. [nodeResults] is the object that [execute] builds
    from [{}]: its own entries, and its prototype when an assignment has
    replaced [Object.prototype]. *)
Record ExecutionResult : Type := mkExecutionResult {
  graph : TaskGraph;
  success : bool;
  durationMs : Z;
  nodeResults : gmap string TaskResult;
  nodeResults_proto : option TaskResult
}.

(** ** executor/executor.ts *)

Section Orchestrator.
Variable cfg : Config.                           (* getConfig() *)
Variable taskKey : string -> string -> string.   (* Cache.taskKey *)
Variable agents : AgentRegistry.                 (* this.agents *)
Variable opts : option ExecutionOptions.

(** The state [execute] works on: the nodes of the graph it owns, its local
    [nodeResults] (the own entries of that object, and the prototype it has
    been given, if any), and the world. *)
Record Exec : Type := mkExec {
  x_nodes : list TaskNode;
  x_results : gmap string TaskResult;
  x_proto : option TaskResult;
  x_world : World
}.

Definition statuses (ns : list TaskNode) : list NodeStatus := map status ns.

(** [node.status = st] for the node at position [i]. *)
Definition set_status (i : nat) (st : NodeStatus) (x : Exec) : Exec :=
  let ns := alter (with_status st) i (x_nodes x) in
  mkExec ns (x_results x) (x_proto x)
    (emit [EvStatuses (statuses ns)] (x_world x)).

(** [node.result = r] *)
Definition set_result (i : nat) (r : TaskResult) (x : Exec) : Exec :=
  mkExec (alter (with_result r) i (x_nodes x)) (x_results x) (x_proto x)
    (x_world x).

(** The one key of an object made by [{}] that is not the name of an own
    entry: assigning to it goes to the setter that [Object.prototype] has
    for it. *)
Definition proto_key : string := "__proto__".

(** [nodeResults[key] = r]. Under the key [__proto__] the assignment makes
    [r], an object, the prototype of [nodeResults] and adds no entry; under
    any other key it adds or overwrites the entry. *)
Definition record_result (key : string) (r : TaskResult) (x : Exec) : Exec :=
  if String.eqb key proto_key
  then mkExec (x_nodes x) (x_results x) (Some r) (x_world x)
  else mkExec (x_nodes x) (<[key := r]> (x_results x)) (x_proto x) (x_world x).

Definition in_world (f : World -> World) (x : Exec) : Exec :=
  mkExec (x_nodes x) (x_results x) (x_proto x) (f (x_world x)).

Definition log (level : LogLevel) (message : string) (w : World) : World :=
  emit [EvLog level message []] w.

(** [opts?.onNodeStart?.(id)] *)
Definition call_onNodeStart (nid : string) (w : World) : World :=
  match opts ≫= onNodeStart with
  | Some cb => emit [EvNodeStart nid] (on_env (cb nid) w)
  | None => w
  end.

(** [opts?.onNodeEnd?.(id, result)] *)
Definition call_onNodeEnd (nid : string) (r : TaskResult) (w : World) : World :=
  match opts ≫= onNodeEnd with
  | Some cb => emit [EvNodeEnd nid r] (on_env (cb nid r) w)
  | None => w
  end.

(** [skipDownstream(graph, id)] as called by [execute]. *)
Definition do_skipDownstream (nid : string) (x : Exec) : Exec :=
  let ns := skipDownstream (x_nodes x) nid in
  mkExec ns (x_results x) (x_proto x)
    (emit [EvStatuses (statuses ns)] (x_world x)).

Definition quote : string := String "034"%char "".

(** How far [executeNode] gets before it first suspends: it has returned
    (its promise is settled), or it waits at the rate limiter with the agent
    and the cache key it resolved. *)
Inductive Started : Type :=
| Returned (r : Settled TaskResult)
| Suspended (agent : AgentAdapter) (cacheKey : string).

(** Lines 86-88: [node.assignTo ? this.agents.pick(node.assignTo)
    : this.agents.list()[0]]; the empty string is falsy. *)
Definition resolve_agent (node : TaskNode) : option AgentAdapter :=
  match assignTo node with
  | Some sel =>
      if String.eqb sel "" then head (registry_list agents)
      else registry_pick agents sel
  | None => head (registry_list agents)
  end.

(** Lines 103-109: the cache check, which yields the cached value on a hit. *)
Definition cache_check (cacheKey : string) (w : World) : option string :=
  if cache_enabled cfg then cache_get (cache_ttl cfg) cacheKey w else None.

(** [executeNode], lines 83-109: what runs inside [batch.map] for the node at
    position [i]. *)
Definition executeNode_start (i : nat) (x : Exec) : Started * Exec :=
  match x_nodes x !! i with
  | None => (Returned (Rejected JsUndefined), x)
  | Some node =>
      let x := in_world (emit [EvExecuteNode (id node)]) x in
      let x := set_status i running x in
      let x := in_world (call_onNodeStart (id node)) x in
      match resolve_agent node with
      | None =>
          (Returned (Fulfilled (mkResult error
             ("No agent available for task " ++ quote ++ id node ++ quote
              ++ " (requested: " ++ default "any" (assignTo node) ++ ")"))), x)
      | Some agent =>
          let x := in_world (log LInfo
            ("Dispatching " ++ quote ++ id node ++ quote ++ " to agent "
             ++ quote ++ name agent ++ quote)) x in
          let cacheKey := taskKey (task node) (name agent) in
          match cache_check cacheKey (x_world x) with
          | Some cached =>
              let x := in_world (log LDebug
                ("Cache hit for task " ++ quote ++ id node ++ quote
                 ++ " (agent: " ++ name agent ++ ")")) x in
              (Returned (Fulfilled (mkResult ok cached)), x)
          | None => (Suspended agent cacheKey, x)
          end
      end
  end.

(** [const run = () => agent.execute(node)] *)
Definition run (agent : AgentAdapter) (node : TaskNode) : Async TaskResult :=
  observed (name agent) (id node) (execute_ agent node).

(** Lines 116-118: the agent call, wrapped in [withRetry] when the node asks
    for retries. *)
Definition invoke_agent (agent : AgentAdapter) (node : TaskNode)
    : Async TaskResult :=
  let retries_ := default 0 (config node ≫= retries) in
  if 0 <? retries_
  then withRetry (retry cfg) (run agent node)
         (Some (mkRetryOptions (Some (retries_ + 1)) None None))
  else run agent node.

(** [executeNode], lines 111-125: the rest of it, from the rate limiter on. *)
Definition executeNode_resume (agent : AgentAdapter) (cacheKey : string)
    (node : TaskNode) : Async TaskResult :=
  fun w =>
    let w :=
      if rateLimit_enabled cfg
      then emit [EvAcquire (name agent)] (on_env (acquire (name agent)) w)
      else w in
    match invoke_agent agent node w with
    | (Fulfilled result_, w) =>
        let w :=
          if cache_enabled cfg && bool_decide (r_status result_ = ok)
          then cache_set cacheKey (output result_) w
          else w in
        (Fulfilled result_, w)
    | (Rejected reason, w) => (Rejected reason, w)
    end.

(** [executeNode] as a whole, for the node at position [i]. *)
Definition executeNode (i : nat) (x : Exec) : Settled TaskResult * Exec :=
  match executeNode_start i x with
  | (Returned r, x) => (r, x)
  | (Suspended agent cacheKey, x) =>
      match x_nodes x !! i with
      | Some node =>
          let '(r, w) := executeNode_resume agent cacheKey node (x_world x) in
          (r, mkExec (x_nodes x) (x_results x) (x_proto x) w)
      | None => (Rejected JsUndefined, x)
      end
  end.

(** [batch.map((node) => this.executeNode(node, opts))]: each call runs up to
    its first suspension, in batch order. *)
Fixpoint dispatch (batch : list nat) (x : Exec) : list Started * Exec :=
  match batch with
  | [] => ([], x)
  | i :: rest =>
      let '(p, x) := executeNode_start i x in
      let '(ps, x) := dispatch rest x in
      (p :: ps, x)
  end.

(** [await Promise.allSettled(promises)]: the suspended calls run to their
    end, here one after the other in batch order; none of them writes to the
    graph. *)
Fixpoint allSettled (ns : list TaskNode) (batch : list nat)
    (promises : list Started) (w : World)
    : list (Settled TaskResult) * World :=
  match batch, promises with
  | i :: batch', p :: promises' =>
      let '(r, w) :=
        match p with
        | Returned r => (r, w)
        | Suspended agent cacheKey =>
            match ns !! i with
            | Some node => executeNode_resume agent cacheKey node w
            | None => (Rejected JsUndefined, w)
            end
        end in
      let '(rs, w) := allSettled ns batch' promises' w in
      (r :: rs, w)
  | _, _ => ([], w)
  end.

(** Lines 45-68: the body of the settling loop for the node at position [i]
    and its settled promise. It yields the state it leaves, or what it
    throws: [String(settled.reason)] on line 62 is the one step of it that
    can. *)
Definition settle (i : nat) (settled : Settled TaskResult) (x : Exec)
    : JsValue + Exec :=
  match x_nodes x !! i with
  | None => inr x
  | Some node =>
      match settled with
      | Fulfilled result_ =>
          let x := set_result i result_ x in
          let x := record_result (id node) result_ x in
          if bool_decide (r_status result_ = ok) then
            let x := set_status i done x in
            inr (in_world (call_onNodeEnd (id node) result_) x)
          else
            let x := set_status i failed x in
            let x := in_world (call_onNodeEnd (id node) result_) x in
            inr (do_skipDownstream (id node) x)
      | Rejected reason =>
          match String_ reason with
          | inl thrown => inl thrown
          | inr text =>
              let result_ := mkResult error text in
              let x := set_result i result_ x in
              let x := set_status i failed x in
              let x := record_result (id node) result_ x in
              let x := in_world (call_onNodeEnd (id node) result_) x in
              inr (do_skipDownstream (id node) x)
          end
      end
  end.

(** Lines 44-69: [for (let i = 0; i < batch.length; i++)]. When the body
    throws, the loop is left there with what was thrown. *)
Fixpoint settle_all (batch : list nat) (results : list (Settled TaskResult))
    (x : Exec) : option JsValue * Exec :=
  match batch, results with
  | i :: batch', r :: results' =>
      match settle i r x with
      | inl thrown => (Some thrown, x)
      | inr x => settle_all batch' results' x
      end
  | _, _ => (None, x)
  end.

(** [ready.slice(0, end_)] *)
Definition slice0 {A} (end_ : Z) (l : list A) : list A :=
  take (Z.to_nat (if end_ <? 0 then Z.of_nat (length l) + end_ else end_)) l.

(** Lines 26-28: the abort branch marks what is still pending as skipped. *)
Definition skip_pending (ns : list TaskNode) : list TaskNode :=
  map (fun n => if status_eqb (status n) pending
                then with_status skipped n else n) ns.

Definition abort (x : Exec) : Exec :=
  let ns := skip_pending (x_nodes x) in
  mkExec ns (x_results x) (x_proto x)
    (emit [EvStatuses (statuses ns)] (x_world x)).

(** [opts?.abortSignal?.aborted] *)
Definition aborted (w : World) : bool :=
  match opts ≫= abortSignal with
  | Some sig => sig (env w)
  | None => false
  end.

(** How the [while] loop was left: by its condition, by one of its two
    [break]s, or by an exception. *)
Inductive Exit : Type :=
| Completed
| Aborted
| Deadlock
| Raised (thrown : JsValue).

(** One pass through the body of the [while] loop, lines 39-69, once the
    ready set is known to be non-empty: the state it leaves, and what it
    threw if it did. *)
Definition run_batch (maxConcurrency_ : Z) (ready : list nat) (x : Exec)
    : option JsValue * Exec :=
  let batch := slice0 maxConcurrency_ ready in
  let '(promises, x) := dispatch batch x in
  let '(results, w) := allSettled (x_nodes x) batch promises (x_world x) in
  settle_all batch results (mkExec (x_nodes x) (x_results x) (x_proto x) w).

(** Lines 23-70: the [while] loop; [None] when [fuel] passes do not reach
    its exit. *)
Fixpoint execute_loop (maxConcurrency_ : Z) (fuel : nat) (x : Exec)
    : option (Exit * Exec) :=
  match fuel with
  | O => None
  | S fuel' =>
      if isComplete (x_nodes x) then Some (Completed, x)
      else if aborted (x_world x) then Some (Aborted, abort x)
      else
        let ready := readyNodes (x_nodes x) in
        if bool_decide (length ready = 0%nat) then
          Some (Deadlock, in_world (log LError
            "Execution deadlock: no ready nodes but graph not complete") x)
        else
          match run_batch maxConcurrency_ ready x with
          | (Some thrown, x) => Some (Raised thrown, x)
          | (None, x) => execute_loop maxConcurrency_ fuel' x
          end
  end.

(** [opts?.maxConcurrency ?? getConfig().limits.maxConcurrency] *)
Definition effective_maxConcurrency : Z :=
  default (limits_maxConcurrency cfg) (opts ≫= maxConcurrency).

Definition initial (g : TaskGraph) (w : World) : Exec :=
  mkExec (nodes g) ∅ None w.

(** [execute(graph, opts)], run for at most [fuel] passes of its loop: its
    promise fulfils with the result, or rejects with what the loop threw. *)
Definition execute (fuel : nat) (g : TaskGraph) (w : World)
    : option (Settled ExecutionResult * World) :=
  let start := Date_now (env w) in
  match execute_loop effective_maxConcurrency fuel (initial g w) with
  | None => None
  | Some (Raised thrown, x) => Some (Rejected thrown, x_world x)
  | Some (_, x) =>
      let success_ :=
        forallb (fun n => status_eqb (status n) done) (x_nodes x) in
      Some (Fulfilled
              (mkExecutionResult
                 (mkGraph (goal g) (x_nodes x) (synthesizerPrompt g))
                 success_
                 (Date_now (env (x_world x)) - start)
                 (x_results x)
                 (x_proto x)),
            x_world x)
  end.

(** ** Strings and regular expressions of the planner *)

Definition nl : string := String "010"%char "".

(** [\s], and what [trim] removes, among the code units below 256: tab, line
    feed, vertical tab, form feed, carriage return, space, no-break space. *)
Definition is_space (c : ascii) : bool :=
  let n := nat_of_ascii c in
  ((9 <=? n)%nat && (n <=? 13)%nat) || (n =? 32)%nat || (n =? 160)%nat.

(** The line terminators among the code units below 256. *)
Definition is_line_terminator (c : ascii) : bool :=
  let n := nat_of_ascii c in (n =? 10)%nat || (n =? 13)%nat.

(** The regular expressions [parseResponse] uses are built from these. *)
Inductive Re : Type :=
| ReLineStart                 (* [^] under the [m] flag *)
| ReLineEnd                   (* [$] under the [m] flag *)
| ReLit (lit : string)        (* the characters of [lit] *)
| ReOpt (r : Re)              (* [(?:r)?], greedy *)
| ReStarSpace                 (* [\s*], greedy *)
| ReSeq (r1 r2 : Re).

(** Backtracking match at one position: [prev] is the character before the
    position ([None] at the start of the input), [s] the input from the
    position on, and [k] the rest of the match, which answers with the input
    left after the whole match. *)
Fixpoint match_lit (lit : string) (prev : option ascii) (s : string)
    : option (option ascii * string) :=
  match lit with
  | EmptyString => Some (prev, s)
  | String c lit' =>
      match s with
      | String d s' => if Ascii.eqb c d then match_lit lit' (Some d) s' else None
      | EmptyString => None
      end
  end.

Fixpoint star_space (prev : option ascii) (s : string)
    (k : option ascii -> string -> option string) : option string :=
  match s with
  | String c s' =>
      if is_space c then
        match star_space (Some c) s' k with
        | Some rest => Some rest
        | None => k prev s
        end
      else k prev s
  | EmptyString => k prev s
  end.

Fixpoint re_match (r : Re) (prev : option ascii) (s : string)
    (k : option ascii -> string -> option string) : option string :=
  match r with
  | ReLineStart =>
      match prev with
      | None => k prev s
      | Some c => if is_line_terminator c then k prev s else None
      end
  | ReLineEnd =>
      match s with
      | EmptyString => k prev s
      | String c _ => if is_line_terminator c then k prev s else None
      end
  | ReLit lit =>
      match match_lit lit prev s with
      | Some (prev', s') => k prev' s'
      | None => None
      end
  | ReOpt r1 =>
      match re_match r1 prev s k with
      | Some rest => Some rest
      | None => k prev s
      end
  | ReStarSpace => star_space prev s k
  | ReSeq r1 r2 => re_match r1 prev s (fun prev' s' => re_match r2 prev' s' k)
  end.

(** [s.replace(r, "")] for a regular expression without the [g] flag: the
    leftmost match is removed; [None] when there is no match from here on. *)
Fixpoint remove_first_from (r : Re) (prev : option ascii) (s : string)
    : option string :=
  match re_match r prev s (fun _ rest => Some rest) with
  | Some rest => Some rest
  | None =>
      match s with
      | EmptyString => None
      | String c s' => String c <$> remove_first_from r (Some c) s'
      end
  end.

Definition remove_first (r : Re) (s : string) : string :=
  default s (remove_first_from r None s).

(** [String.prototype.trim] *)
Fixpoint trim_start (s : string) : string :=
  match s with
  | String c s' => if is_space c then trim_start s' else s
  | EmptyString => EmptyString
  end.

Fixpoint trim_end (s : string) : string :=
  match s with
  | EmptyString => EmptyString
  | String c s' =>
      match trim_end s' with
      | EmptyString => if is_space c then EmptyString else String c EmptyString
      | t => String c t
      end
  end.

Definition trim (s : string) : string := trim_end (trim_start s).

(** [s.slice(0, n)] *)
Fixpoint slice_to (n : nat) (s : string) : string :=
  match n, s with
  | S n', String c s' => String c (slice_to n' s')
  | _, _ => EmptyString
  end.

(** ** schemas.ts *)

(** What [JSON.parse] returns. *)
#[warnings="-register-all"] Inductive Json : Type :=
| JNull
| JBool (b : bool)
| JNumber (literal : string)
| JString (s : string)
| JArray (items : list Json)
| JObject (fields : gmap string Json).

(** A zod schema, by what [safeParse] makes of an input ([None] is
    [undefined], such as the value of a key that is absent): the parsed data,
    or [None] when there are issues. *)
Definition Schema (T : Type) : Type := option Json -> option T.

(** [z.string()] *)
Definition z_string : Schema string :=
  fun v => match v with Some (JString s) => Some s | _ => None end.

(** [schema.check(z.minLength(n))] on a string *)
Definition z_minLength (n : nat) (schema : Schema string) : Schema string :=
  fun v => schema v ≫= fun s => if (n <=? String.length s)%nat then Some s else None.

(** [z.array(item)] *)
Definition z_array {T} (item : Schema T) : Schema (list T) :=
  fun v =>
    match v with
    | Some (JArray items) => mapM (fun j => item (Some j)) items
    | _ => None
    end.

(** [schema.check(z.minLength(n, message))] on an array *)
Definition z_array_minLength {T} (n : nat) (schema : Schema (list T))
    : Schema (list T) :=
  fun v => schema v ≫= fun l => if (n <=? length l)%nat then Some l else None.

(** [schema.default(d)] *)
Definition z_default {T} (d : T) (schema : Schema T) : Schema T :=
  fun v => match v with None => Some d | Some _ => schema v end.

(** [schema.optional()] *)
Definition z_optional {T} (schema : Schema T) : Schema (option T) :=
  fun v => match v with None => Some None | Some _ => Some <$> schema v end.

(** The type [PlannerLlmResponse] of planner.ts. *)
Record PlannerNode : Type := mkPlannerNode {
  pn_id : string;
  pn_task : string;
  pn_dependsOn : list string;
  pn_assignTo : option string
}.

Record PlannerLlmResponse : Type := mkPlannerLlmResponse {
  pr_nodes : list PlannerNode;
  pr_synthesizerPrompt : option string
}.

(** [PlannerNodeSchema]: a [z.object] of four keys. *)
Definition PlannerNodeSchema : Schema PlannerNode :=
  fun v =>
    match v with
    | Some (JObject o) =>
        id_ ← z_minLength 1 z_string (o !! "id");
        task_ ← z_minLength 1 z_string (o !! "task");
        dependsOn_ ← z_default [] (z_array z_string) (o !! "dependsOn");
        assignTo_ ← z_optional z_string (o !! "assignTo");
        Some (mkPlannerNode id_ task_ dependsOn_ assignTo_)
    | _ => None
    end.

(** [PlannerResponseSchema] *)
Definition PlannerResponseSchema : Schema PlannerLlmResponse :=
  fun v =>
    match v with
    | Some (JObject o) =>
        nodes_ ← z_array_minLength 1 (z_array PlannerNodeSchema) (o !! "nodes");
        synthesizerPrompt_ ← z_optional z_string (o !! "synthesizerPrompt");
        Some (mkPlannerLlmResponse nodes_ synthesizerPrompt_)
    | _ => None
    end.

(** [z.literal(lit)] for a string literal *)
Definition z_literal (lit : string) : Schema string :=
  fun v =>
    match v with
    | Some (JString s) => if String.eqb s lit then Some s else None
    | _ => None
    end.

(** [z.union([a, b])]: what the first option that accepts makes of the
    input. *)
Definition z_union {A B} (a : Schema A) (b : Schema B) : Schema (A + B) :=
  fun v => match a v with Some x => Some (inl x) | None => inr <$> b v end.

(** What [TaskItemSchema] yields. *)
Record TaskItem : Type := mkTaskItem {
  ti_id : string;
  ti_task : string;
  ti_agent : option string
}.

(** [TaskItemSchema]: a single task inside an [execute] action. *)
Definition TaskItemSchema : Schema TaskItem :=
  fun v =>
    match v with
    | Some (JObject o) =>
        id_ ← z_minLength 1 z_string (o !! "id");
        task_ ← z_minLength 1 z_string (o !! "task");
        agent_ ← z_optional z_string (o !! "agent");
        Some (mkTaskItem id_ task_ agent_)
    | _ => None
    end.

(** The two options of [OrchestratorActionSchema]. *)
Record ExecuteAction : Type := mkExecuteAction {
  ea_action : string;
  ea_tasks : list TaskItem
}.

Record FinishAction : Type := mkFinishAction {
  fa_action : string;
  fa_answer : string
}.

(** [OrchestratorActionSchema]: either execute or finish. *)
Definition OrchestratorActionSchema : Schema (ExecuteAction + FinishAction) :=
  z_union
    (fun v =>
       match v with
       | Some (JObject o) =>
           action_ ← z_literal "execute" (o !! "action");
           tasks_ ← z_array_minLength 1 (z_array TaskItemSchema) (o !! "tasks");
           Some (mkExecuteAction action_ tasks_)
       | _ => None
       end)
    (fun v =>
       match v with
       | Some (JObject o) =>
           action_ ← z_literal "finish" (o !! "action");
           answer_ ← z_minLength 1 z_string (o !! "answer");
           Some (mkFinishAction action_ answer_)
       | _ => None
       end).

(** What [GatewayConfigSchema] yields. *)
Record GatewayConfig : Type := mkGatewayConfig {
  gc_name : string;
  gc_url : string;
  gc_token : option string
}.

(** [GatewayConfigSchema]: the gateway config for registration. *)
Definition GatewayConfigSchema : Schema GatewayConfig :=
  fun v =>
    match v with
    | Some (JObject o) =>
        name_ ← z_minLength 1 z_string (o !! "name");
        url_ ← z_minLength 1 z_string (o !! "url");
        token_ ← z_optional z_string (o !! "token");
        Some (mkGatewayConfig name_ url_ token_)
    | _ => None
    end.

(** The engine's [JSON.parse]: the value, or the message of the
    [SyntaxError] it throws. *)
Variable JSON_parse : string -> string + Json.

(** The messages of the issues zod finds in a value, joined by [; ]. *)
Variable issue_messages : Json -> string.

(** [parseOrThrow(schema, data, context)] *)
Definition parseOrThrow {T} (schema : Schema T) (data : Json) (context : string)
    : Settled T :=
  match schema (Some data) with
  | Some parsed => Fulfilled parsed
  | None =>
      Rejected (ValidationError VALIDATION_FAILED
                  (context ++ ": " ++ issue_messages data))
  end.

(** ** planner/planner.ts *)

(** The text of [PLANNER_SYSTEM_PROMPT]. *)
Variable PLANNER_SYSTEM_PROMPT : string.

(** [createTaskGraph] of planner/task-graph.ts: the graph, or the error it
    throws. *)
Variable createTaskGraph :
  string -> list PlannerNode -> option string -> JsValue + TaskGraph.

(** [GatewayClient.chat(prompt, { sessionKey })] *)
Record GatewayClient : Type := mkGateway {
  chat : string -> string -> Env -> Settled string * Env
}.

Record PlannerOptions : Type := mkPlannerOptions {
  gateway : option GatewayClient;
  plannerAgent : option AgentAdapter;
  availableAgents : option (list string)
}.

Variable planner : PlannerOptions.

(** [/^```(?:json)?\s*\n?/m] *)
Definition opening_fence : Re :=
  ReSeq ReLineStart
    (ReSeq (ReLit "```")
       (ReSeq (ReOpt (ReLit "json")) (ReSeq ReStarSpace (ReOpt (ReLit nl))))).

(** [/\n?```\s*$/m] *)
Definition closing_fence : Re :=
  ReSeq (ReOpt (ReLit nl)) (ReSeq (ReLit "```") (ReSeq ReStarSpace ReLineEnd)).

(** Line 102: [raw.replace(...).replace(...).trim()] *)
Definition clean_response (raw : string) : string :=
  trim (remove_first closing_fence (remove_first opening_fence raw)).

(** [parseResponse(raw)]; what it throws is a rejection here. In the message
    of line 109, [err] is the [SyntaxError] and the template converts it
    with [Error.prototype.toString]. *)
Definition parseResponse (raw : string) : Async PlannerLlmResponse :=
  fun w =>
    match JSON_parse (clean_response raw) with
    | inl message =>
        (Rejected (ParseError
           ("Planner returned invalid JSON: "
            ++ error_toString "SyntaxError" message)),
         emit [EvLog LError "Failed to parse planner response"
                 [("raw", slice_to 500 raw)]] w)
    | inr parsed =>
        (parseOrThrow PlannerResponseSchema parsed "Planner response", w)
    end.

Fixpoint join (sep : string) (l : list string) : string :=
  match l with
  | [] => ""
  | [a] => a
  | a :: rest => a ++ sep ++ join sep rest
  end.

(** [buildPrompt(goal)] *)
Definition buildPrompt (goal_ : string) : string :=
  let names := default [] (availableAgents planner) in
  if (0 <? length names)%nat
  then "Goal: " ++ goal_ ++ nl ++ nl ++ "Available agents: " ++ join ", " names
  else "Goal: " ++ goal_.

(** [callLlm(prompt)] *)
Definition callLlm (prompt : string) : Async string :=
  fun w =>
    match plannerAgent planner, gateway planner with
    | Some agent, _ =>
        let node :=
          mkNode "plan" (PLANNER_SYSTEM_PROMPT ++ nl ++ nl ++ prompt) []
            None pending None None in
        match observed (name agent) (id node) (execute_ agent node) w with
        | (Fulfilled result_, w) =>
            if bool_decide (r_status result_ = ok)
            then (Fulfilled (output result_), w)
            else (Rejected (AgentError
                    ("Planner agent failed: " ++ output result_)), w)
        | (Rejected reason, w) => (Rejected reason, w)
        end
    | None, Some gw =>
        let '(uuid, e) := randomUUID (env w) in
        let w := mkWorld e (taskCache w) (trace w) in
        observed "chat" prompt
          (chat gw (PLANNER_SYSTEM_PROMPT ++ nl ++ nl ++ prompt)
             ("planner-" ++ slice_to 8 uuid)) w
    | None, None =>
        (Rejected (ConfigError
           "No LLM source configured. Provide a gateway or plannerAgent."), w)
    end.

(** [plan(goal)] *)
Definition plan (goal_ : string) : Async TaskGraph :=
  fun w =>
    match callLlm (buildPrompt goal_) w with
    | (Rejected reason, w) => (Rejected reason, w)
    | (Fulfilled raw, w) =>
        match parseResponse raw w with
        | (Rejected reason, w) => (Rejected reason, w)
        | (Fulfilled parsed, w) =>
            match createTaskGraph goal_ (pr_nodes parsed)
                    (pr_synthesizerPrompt parsed) with
            | inl err => (Rejected err, w)
            | inr g => (Fulfilled g, w)
            end
        end
    end.

(** ** Vocabulary of the properties *)

(** The character before the position reached after [m], when the character
    before [m] is [prev]. *)
Fixpoint last_char (prev : option ascii) (m : string) : option ascii :=
  match m with
  | EmptyString => prev
  | String c m' => last_char (Some c) m'
  end.

(** A position at the start of a line, by the character before it. *)
Definition begins_line (prev : option ascii) : bool :=
  match prev with None => true | Some c => is_line_terminator c end.

(** A position at the end of a line, by the input from it on. *)
Definition ends_line (rest : string) : bool :=
  match rest with
  | EmptyString => true
  | String c _ => is_line_terminator c
  end.

Fixpoint all_space (s : string) : bool :=
  match s with
  | EmptyString => true
  | String c s' => is_space c && all_space s'
  end.

(** What a match of a regular expression is: [r] matches the text [m],
    which comes after the character [prev] and before the input [rest]. *)
Fixpoint Matches (r : Re) (prev : option ascii) (m rest : string) : Prop :=
  match r with
  | ReLineStart => m = "" /\ begins_line prev = true
  | ReLineEnd => m = "" /\ ends_line rest = true
  | ReLit lit => m = lit
  | ReOpt r1 => m = "" \/ Matches r1 prev m rest
  | ReStarSpace => all_space m = true
  | ReSeq r1 r2 =>
      exists m1 m2, m = m1 ++ m2
        /\ Matches r1 prev m1 (m2 ++ rest)
        /\ Matches r2 (last_char prev m1) m2 rest
  end.

(** [s] occurs in [t] as a run of consecutive characters. *)
Fixpoint is_infix (s t : string) : bool :=
  String.prefix s t
  || match t with
     | EmptyString => false
     | String _ t' => is_infix s t'
     end.

(** The shape of a planner response, as the specification words it: each
    node is an object with a non-empty string [id] and a non-empty string
    [task], a [dependsOn] that is absent or an array of strings, and an
    [assignTo] that is absent or a string; [nodes] is a non-empty array of
    such nodes; [synthesizerPrompt] is absent or a string. *)
Definition is_string_value (j : Json) : Prop := exists s, j = JString s.

Definition node_conforms (j : Json) : Prop :=
  exists o, j = JObject o
    /\ (exists s, o !! "id" = Some (JString s) /\ s <> "")
    /\ (exists s, o !! "task" = Some (JString s) /\ s <> "")
    /\ (o !! "dependsOn" = None
        \/ exists l, o !! "dependsOn" = Some (JArray l)
                     /\ Forall is_string_value l)
    /\ (o !! "assignTo" = None \/ exists s, o !! "assignTo" = Some (JString s)).

Definition response_conforms (j : Json) : Prop :=
  exists o items, j = JObject o
    /\ o !! "nodes" = Some (JArray items)
    /\ items <> []
    /\ Forall node_conforms items
    /\ (o !! "synthesizerPrompt" = None
        \/ exists s, o !! "synthesizerPrompt" = Some (JString s)).

(** Events that are notes to the caller: callbacks at the start of a node,
    and log lines. *)
Definition is_note (e : Event) : bool :=
  match e with EvNodeStart _ | EvLog _ _ _ => true | _ => false end.

(** Events of the calls [executeNode] makes once it has passed the cache
    check: the rate limiter, the agent, and the waits between attempts. *)
Definition is_effect (e : Event) : bool :=
  match e with
  | EvInvoke _ _ | EvFulfilled | EvRejected _ | EvSleep _ | EvAcquire _ => true
  | _ => false
  end.

(** The result [execute] gives a node for a settled promise, or what making
    that result throws; and the status it gives the node. *)
Definition settled_result (r : Settled TaskResult) : JsValue + TaskResult :=
  match r with
  | Fulfilled result_ => inr result_
  | Rejected reason =>
      match String_ reason with
      | inl thrown => inl thrown
      | inr text => inr (mkResult error text)
      end
  end.

Definition settled_status (r : Settled TaskResult) : NodeStatus :=
  match r with
  | Fulfilled result_ => if bool_decide (r_status result_ = ok) then done else failed
  | Rejected _ => failed
  end.

Definition is_node_end (nid : string) (e : Event) : bool :=
  match e with EvNodeEnd k _ => String.eqb k nid | _ => false end.

(** [executeNode] was entered for the node named [k] after the trace [tr0]. *)
Definition dispatched (tr0 tr : list Event) (k : string) : Prop :=
  exists delta, tr = (tr0 ++ delta)%list /\ EvExecuteNode k ∈ delta.

(** A key of [nodeResults] names a node that is done or failed. *)
Definition results_ok (x : Exec) : Prop :=
  forall k, is_Some (x_results x !! k) ->
    exists i n, x_nodes x !! i = Some n /\ id n = k
      /\ (status n = done \/ status n = failed).

(** A node that is pending or skipped has the result it came with. *)
Definition untouched (ns0 : list TaskNode) (x : Exec) : Prop :=
  forall i n, x_nodes x !! i = Some n ->
    status n = pending \/ status n = skipped ->
    exists n0, ns0 !! i = Some n0 /\ result n = result n0.

(** A key of [nodeResults] names a node that was dispatched. *)
Definition results_dispatched (tr0 : list Event) (x : Exec) : Prop :=
  forall k, is_Some (x_results x !! k) ->
    dispatched tr0 (trace (x_world x)) k.

(** A snapshot of the statuses with at most [M] nodes running. *)
Definition snapshot_ok (M : nat) (e : Event) : Prop :=
  match e with
  | EvStatuses snap => (count_status running snap <= M)%nat
  | _ => True
  end.

(** The trace [tr] is [tr0] followed by events that all satisfy [P]. *)
Definition since (tr0 tr : list Event) (P : Event -> Prop) : Prop :=
  exists delta, tr = (tr0 ++ delta)%list /\ Forall P delta.

(** What a pass of the loop keeps true of [nodeResults], for a run that
    started with the trace [tr0] and the nodes [ns0]. *)
Definition results_inv (tr0 : list Event) (ns0 : list TaskNode) (x : Exec)
    : Prop :=
  since tr0 (trace (x_world x)) (fun _ => True)
  /\ map id (x_nodes x) = map id ns0
  /\ results_ok x
  /\ untouched ns0 x
  /\ results_dispatched tr0 x.

(** The wait an event stands for, and the waits of a trace added up. *)
Definition sleep_of (e : Event) : Z :=
  match e with EvSleep ms => ms | _ => 0 end.

Definition total_sleep (tr : list Event) : Z :=
  foldr (fun e acc => sleep_of e + acc) 0 tr.

Definition is_node_start (e : Event) : bool :=
  match e with EvNodeStart _ => true | _ => false end.

Definition is_any_node_end (e : Event) : bool :=
  match e with EvNodeEnd _ _ => true | _ => false end.

Definition is_log (e : Event) : bool :=
  match e with EvLog _ _ _ => true | _ => false end.

(** A node that was dispatched: it is running, or has come back done or
    failed. *)
Definition started (st : NodeStatus) : Prop :=
  st = running \/ st = done \/ st = failed.

(** Every dependency of [n] names a node of [ns] that is done. *)
Definition deps_done (ns : list TaskNode) (n : TaskNode) : Prop :=
  Forall (fun d => exists m, node_by_id ns d = Some m /\ status m = done)
    (dependsOn n).

(** What [execute] never writes to: everything of a node but its status and
    its result. *)
Definition same_task (n n' : TaskNode) : Prop :=
  id n' = id n /\ task n' = task n /\ dependsOn n' = dependsOn n
  /\ assignTo n' = assignTo n /\ config n' = config n.

(** Every node that was dispatched has its dependencies done. *)
Definition deps_respected (ns : list TaskNode) : Prop :=
  forall j n, ns !! j = Some n -> started (status n) -> deps_done ns n.

(** Events that act on nothing outside [execute]: an entry into
    [executeNode], a snapshot of the statuses, a log line. *)
Definition is_quiet (e : Event) : bool :=
  match e with
  | EvExecuteNode _ | EvStatuses _ | EvLog _ _ _ => true
  | _ => false
  end.

(** [replays tr e e']: what the events of [tr] stand for, done in their
    order, takes the environment from [e] to [e']. A wait is [setTimeout]
    for that long; an acquisition is [acquire] of the rate limiter for that
    agent; a callback event is the callback that the options hold, applied
    to the arguments of the event; a call followed by its settlement is
    [execute] of an adapter of the registry, under that name, on a node with
    that id, settling that way; the other events leave the environment
    alone. *)
Inductive replays : list Event -> Env -> Env -> Prop :=
| replays_nil e : replays [] e e
| replays_quiet ev tr e e' :
    is_quiet ev = true -> replays tr e e' -> replays (ev :: tr) e e'
| replays_sleep ms tr e e' :
    replays tr (setTimeout ms e) e' -> replays (EvSleep ms :: tr) e e'
| replays_acquire a tr e e' :
    replays tr (acquire a e) e' -> replays (EvAcquire a :: tr) e e'
| replays_start k cb tr e e' :
    opts ≫= onNodeStart = Some cb ->
    replays tr (cb k e) e' -> replays (EvNodeStart k :: tr) e e'
| replays_end k r cb tr e e' :
    opts ≫= onNodeEnd = Some cb ->
    replays tr (cb k r e) e' -> replays (EvNodeEnd k r :: tr) e e'
| replays_call agent node r e1 tr e e' :
    agent ∈ agents ->
    execute_ agent node e = (r, e1) ->
    replays tr e1 e' ->
    replays (EvInvoke (name agent) (id node) :: settle_event r :: tr) e e'.

(** From [w] to [w'] the trace has grown by events that account for the
    change of the environment. *)
Definition faithful (w w' : World) : Prop :=
  exists delta,
    trace w' = (trace w ++ delta)%list /\ replays delta (env w) (env w').

(** The events about the node named [k]: the entry into [executeNode] for
    it, and the calls of [onNodeStart] and [onNodeEnd] with its id. *)
Definition about (k : string) (e : Event) : bool :=
  match e with
  | EvExecuteNode n | EvNodeStart n | EvNodeEnd n _ => String.eqb n k
  | _ => false
  end.

Definition node_events (k : string) (tr : list Event) : list Event :=
  filter (fun e => about k e = true) tr.

Definition is_entry (k : string) (e : Event) : bool :=
  match e with EvExecuteNode n => String.eqb n k | _ => false end.

(** What a dispatch of the node named [k] shows: the entry into
    [executeNode] and then the call of [onNodeStart], when the options hold
    that callback; and what its settling shows: the call of [onNodeEnd] with
    the result, when the options hold that callback. *)
Definition start_events (k : string) : list Event :=
  EvExecuteNode k
  :: match opts ≫= onNodeStart with Some _ => [EvNodeStart k] | None => [] end.

Definition end_events (k : string) (r : option TaskResult) : list Event :=
  match opts ≫= onNodeEnd, r with
  | Some _, Some r => [EvNodeEnd k r]
  | _, _ => []
  end.

(** What a run shows of a node that was [n0] when [execute] was called and
    is [n] now: of a node that was not pending, nothing; of one that was
    pending and is pending or skipped, nothing; of one that is running, its
    dispatch; of one that is done or failed, its dispatch and then its
    settling with the result it holds. *)
Definition shown (n0 n : TaskNode) : list Event :=
  if decide (status n0 = pending) then
    match status n with
    | pending | skipped => []
    | running => start_events (id n)
    | done | failed =>
        (start_events (id n) ++ end_events (id n) (result n))%list
    end
  else [].

(** The state of a run that started with the trace [tr0] and the nodes
    [ns0]: every node has the id it had; one that was not pending is as it
    was; and the events about each node are those its status accounts
    for. *)
Definition node_log (tr0 : list Event) (ns0 : list TaskNode) (x : Exec)
    : Prop :=
  length (x_nodes x) = length ns0
  /\ exists delta,
       trace (x_world x) = (tr0 ++ delta)%list
       /\ forall j n0 n, ns0 !! j = Some n0 -> x_nodes x !! j = Some n ->
            id n = id n0
            /\ (status n0 <> pending -> n = n0)
            /\ node_events (id n0) delta = shown n0 n.


(** Every entry of [nodeResults] is the result of a node with that id, which
    is done when the result is [ok] and failed otherwise; no entry has the
    key [__proto__], and the prototype, if one was set, is the result of a
    node with that id. *)
Definition results_mirror (x : Exec) : Prop :=
  (forall k r, x_results x !! k = Some r ->
     k <> proto_key
     /\ exists j n, x_nodes x !! j = Some n /\ id n = k /\ result n = Some r
          /\ status n = if decide (r_status r = ok) then done else failed)
  /\ (forall r, x_proto x = Some r ->
       exists j n, x_nodes x !! j = Some n /\ id n = proto_key
         /\ result n = Some r
         /\ status n = if decide (r_status r = ok) then done else failed).

(** Every node that is done or failed holds a result, [ok] when it is done
    and [error] when it failed, which is in [nodeResults] under its id, or
    is the prototype of [nodeResults] when the id is [__proto__]. *)
Definition nodes_recorded (x : Exec) : Prop :=
  forall j n, x_nodes x !! j = Some n ->
    status n = done \/ status n = failed ->
    exists r, result n = Some r
      /\ status n = (if decide (r_status r = ok) then done else failed)
      /\ if String.eqb (id n) proto_key then x_proto x = Some r
         else x_results x !! id n = Some r.

(** What the calls that [execute] makes for a node do to the environment:
    the callback [onNodeStart], when the options hold one, is applied to the
    node's id; [onNodeEnd], when there is one, to its id and result; the
    rate limiter, when it is enabled, is acquired for the agent's name. *)
Definition after_onNodeStart (nid : string) (e : Env) : Env :=
  match opts ≫= onNodeStart with Some cb => cb nid e | None => e end.

Definition after_onNodeEnd (nid : string) (r : TaskResult) (e : Env) : Env :=
  match opts ≫= onNodeEnd with Some cb => cb nid r e | None => e end.

Definition after_acquire (agent : string) (e : Env) : Env :=
  if rateLimit_enabled cfg then acquire agent e else e.

(** The loop was left by an exception. *)
Definition raised (ex : Exit) : bool :=
  match ex with Raised _ => true | _ => false end.

(** Line 62 makes a result of each of these settled promises. *)
Definition converts_all (rs : list (Settled TaskResult)) : Prop :=
  Forall (fun r => exists res, settled_result r = inr res) rs.

(** Whatever an adapter of the registry rejects with, [String] converts
    it. *)
Definition agents_convert : Prop :=
  forall agent node e reason e',
    agent ∈ agents ->
    execute_ agent node e = (Rejected reason, e') ->
    exists text, String_ reason = inr text.

(** How a node may differ after a run from what it was before: in status and
    result only, and not at all when it was done, failed or skipped. *)
Definition kept (n n' : TaskNode) : Prop :=
  same_task n n' /\ (is_terminal (status n) = true -> n' = n).

(** * Properties *)

Local Open Scope list_scope.

(** ** The retry helper *)

Section RetryFacts.
Context {T : Type}.

Lemma count_events_app p (tr1 tr2 : list Event) :
  count_events p (tr1 ++ tr2) = (count_events p tr1 + count_events p tr2)%nat.
Proof. unfold count_events. by rewrite filter_app, length_app. Qed.

Lemma count_events_cons p e (tr : list Event) :
  count_events p (e :: tr)
  = ((if p e then 1 else 0) + count_events p tr)%nat.
Proof.
  unfold count_events. destruct (p e) eqn:Hp.
  - by rewrite filter_cons_True.
  - rewrite filter_cons_False; [done|]. by rewrite Hp.
Qed.

Lemma failed_attempts_invokes callee arg b m a errs :
  count_events is_invoke (failed_attempts callee arg b m a errs) = length errs.
Proof.
  revert a. induction errs as [|e errs IH]; intros a; [done|].
  cbn [failed_attempts app]. rewrite !count_events_cons, IH. done.
Qed.

Lemma failed_attempts_sleeps callee arg b m a errs :
  filter (fun e => is_sleep e = true) (failed_attempts callee arg b m a errs)
  = map (fun k => EvSleep (backoff b m (a + Z.of_nat k))) (seq 0 (length errs)).
Proof.
  revert a. induction errs as [|e errs IH]; intros a; [done|].
  cbn [failed_attempts app length seq map].
  rewrite filter_cons_False by done. rewrite filter_cons_False by done.
  rewrite filter_cons_True by done. rewrite IH.
  f_equal; [by rewrite Z.add_0_r|].
  rewrite <- seq_shift, map_map. apply map_ext. intros k. do 2 f_equal. lia.
Qed.

Lemma retry_loop_observed callee arg (f : Env -> Settled T * Env) N b m :
  forall fuel a lastError (w : World) r w',
    a <= N -> fuel = Z.to_nat (N - a + 1) ->
    retry_loop (observed callee arg f) N b m fuel a lastError w = (r, w') ->
    exists errs e_last,
      trace w' = trace w ++ failed_attempts callee arg b m a errs
                   ++ [EvInvoke callee arg; settle_event r]
      /\ f e_last = (r, env w')
      /\ taskCache w' = taskCache w
      /\ a + Z.of_nat (length errs) <= N
      /\ (forall e, r = Rejected e -> a + Z.of_nat (length errs) = N)
      /\ retried f b m a errs (env w) e_last.
Proof.
  induction fuel as [|fuel IH]; intros a lastError w r w' Ha Hfuel; [lia|].
  cbn [retry_loop]. destruct (Z.leb_spec a N) as [_|]; [|lia].
  unfold observed at 1. destruct (f (env w)) as [r1 e1] eqn:Hf.
  destruct r1 as [v|err].
  - intros [= <- <-]. exists [], (env w). cbn. repeat split; try done; lia.
  - destruct (Z.eqb_spec a N) as [->|Hne].
    + intros [= <- <-]. exists [], (env w). cbn. repeat split; try done; lia.
    + intros Hrec. apply IH in Hrec; [|lia..].
      destruct Hrec as (errs & e_last & Htr & Hlast & Hcache & Hle & Hrej & Hch).
      exists (err :: errs), e_last. cbn [failed_attempts length retried].
      rewrite Htr. cbn [trace sleep emit on_env env taskCache] in *.
      rewrite <- !app_assoc. cbn [app].
      split; [done|]. split; [done|]. split; [done|]. split; [lia|].
      split; [intros e He; specialize (Hrej e He); lia|].
      exists e1. split; [done|]. exact Hch.
Qed.

Lemma waits_sum_le b m calls :
  foldr Z.add 0 (waits b m calls) <= Z.of_nat (pred calls) * m.
Proof.
  unfold waits. generalize 1%nat.
  induction (pred calls) as [|k IH]; intros a; [cbn; lia|].
  cbn [seq map foldr]. specialize (IH (S a)). lia.
Qed.

Lemma waits_bounds b m calls :
  Forall (fun ms => ms <= m /\ (0 <= b -> Z.min b m <= ms)) (waits b m calls).
Proof.
  unfold waits. apply Forall_forall. intros ms Hin.
  apply list_elem_of_fmap in Hin as (k & -> & Hk).
  apply elem_of_seq in Hk. split; [lia|]. intros Hb.
  assert (0 < 2 ^ (Z.of_nat k - 1)) by (apply Z.pow_pos_nonneg; lia). nia.
Qed.

Lemma failed_attempts_waits callee arg b m errs :
  filter (fun e => is_sleep e = true) (failed_attempts callee arg b m 1 errs)
  = map EvSleep (waits b m (S (length errs))).
Proof.
  rewrite failed_attempts_sleeps. unfold waits. cbn [pred].
  rewrite <- seq_shift, !map_map. apply map_ext. intros k. unfold backoff.
  by replace (Z.of_nat (S k) - 1) with (1 + Z.of_nat k - 1) by lia.
Qed.

(** C2. For an operation [f] called through [withRetry] with
    [maxAttempts = N >= 1]. The calls are made one after the other on the
    environment: every call but the last rejects and is followed by
    [setTimeout] for [min(baseDelayMs * 2^(k-1), maxDelayMs)] milliseconds
    after attempt [k], the next call being made in the environment that
    leaves; what the last call settles with is what [withRetry] settles
    with, in the environment that call leaves. So a call that fulfils is the
    last. There are at most [N] calls; when [withRetry] rejects there were
    exactly [N], and the error is that of the [N]-th. The trace records just
    that: each failed attempt with its wait, then the last call. *)
Theorem withRetry_contract (rcfg : RetryConfig) (ropts : option RetryOptions)
    (callee arg : string) (f : Env -> Settled T * Env) (w : World) :
  let N := retry_maxAttempts rcfg ropts in
  let b := retry_baseDelayMs rcfg ropts in
  let m := retry_maxDelayMs rcfg ropts in
  1 <= N ->
  exists r w' errs e_last,
    withRetry rcfg (observed callee arg f) ropts w = (r, w')
    /\ retried f b m 1 errs (env w) e_last
    /\ f e_last = (r, env w')
    /\ taskCache w' = taskCache w
    /\ trace w' = trace w ++ failed_attempts callee arg b m 1 errs
                    ++ [EvInvoke callee arg; settle_event r]
    /\ Z.of_nat (length errs) + 1 <= N
    /\ (forall e, r = Rejected e -> Z.of_nat (length errs) + 1 = N)
    /\ Z.of_nat (count_events is_invoke
                   (failed_attempts callee arg b m 1 errs
                    ++ [EvInvoke callee arg; settle_event r])) <= N
    /\ filter (fun e => is_sleep e = true)
         (failed_attempts callee arg b m 1 errs
          ++ [EvInvoke callee arg; settle_event r])
       = map (fun k => EvSleep (Z.min (b * 2 ^ (Z.of_nat k - 1)) m))
           (seq 1 (length errs)).
Proof.
  intros N b m HN.
  destruct (withRetry rcfg (observed callee arg f) ropts w) as [r w'] eqn:Hrun.
  unfold withRetry in Hrun. fold N b m in Hrun.
  apply retry_loop_observed in Hrun; [|lia|f_equal; lia].
  destruct Hrun as (errs & e_last & Htr & Hlast & Hcache & Hle & Hrej & Hch).
  exists r, w', errs, e_last. repeat split; try done; try lia.
  - intros e He. specialize (Hrej e He). lia.
  - rewrite count_events_app, failed_attempts_invokes, !count_events_cons.
    destruct r; cbn; lia.
  - rewrite filter_app, failed_attempts_sleeps.
    replace (filter _ [EvInvoke callee arg; settle_event r]) with (@nil Event)
      by (by destruct r).
    rewrite app_nil_r, <- seq_shift, map_map. apply map_ext.
    intros k. unfold backoff.
    by replace (Z.of_nat (S k) - 1) with (1 + Z.of_nat k - 1) by lia.
Qed.

(** C10. Called with [maxAttempts] below 1, [withRetry] does not call the
    operation at all (the world is left as it was) and rejects with
    [lastError] as declared: [undefined]. *)
Theorem withRetry_no_attempts (rcfg : RetryConfig) (ropts : option RetryOptions)
    (fn : Async T) (w : World) :
  retry_maxAttempts rcfg ropts < 1 ->
  withRetry rcfg fn ropts w = (Rejected JsUndefined, w).
Proof.
  intros HN. unfold withRetry.
  destruct (Z.to_nat (retry_maxAttempts rcfg ropts)) as [|fuel]; cbn [retry_loop];
    destruct (Z.leb_spec 1 (retry_maxAttempts rcfg ropts)); (done || lia).
Qed.

End RetryFacts.

(** ** Statuses of a node list *)

Lemma count_status_cons st s l :
  count_status st (s :: l)
  = ((if decide (s = st) then 1 else 0) + count_status st l)%nat.
Proof.
  unfold count_status. destruct (decide (s = st)).
  - by rewrite filter_cons_True.
  - by rewrite filter_cons_False.
Qed.

Lemma count_status_alter_S st st' i ns :
  (count_status st (statuses (alter (with_status st') i ns))
   <= S (count_status st (statuses ns)))%nat.
Proof.
  revert i. induction ns as [|n ns IH]; intros [|i]; cbn; try lia.
  - rewrite !count_status_cons. repeat case_decide; lia.
  - rewrite !count_status_cons. specialize (IH i). unfold statuses in IH. lia.
Qed.

Lemma count_status_alter_le st st' i ns :
  st' ≠ st ->
  (count_status st (statuses (alter (with_status st') i ns))
   <= count_status st (statuses ns))%nat.
Proof.
  intros Hne. revert i. induction ns as [|n ns IH]; intros [|i]; cbn; try lia.
  - rewrite !count_status_cons. repeat case_decide; try lia. done.
  - rewrite !count_status_cons. specialize (IH i). unfold statuses in IH. lia.
Qed.

Lemma count_status_alter_lt st st' i ns n :
  st' ≠ st -> ns !! i = Some n -> status n = st ->
  (count_status st (statuses (alter (with_status st') i ns))
   < count_status st (statuses ns))%nat.
Proof.
  intros Hne. revert i. induction ns as [|m ns IH]; intros [|i]; cbn; try done.
  - intros [= ->] Hst. rewrite !count_status_cons.
    repeat case_decide; try lia; done.
  - intros Hi Hst. rewrite !count_status_cons.
    specialize (IH i Hi Hst). unfold statuses in IH. lia.
Qed.

Lemma count_status_zero st l :
  count_status st l = 0%nat <-> Forall (fun s => s ≠ st) l.
Proof.
  induction l as [|s l IH]; [by split; [constructor|]|].
  rewrite count_status_cons, Forall_cons. case_decide; split.
  - lia.
  - intros [? _]. done.
  - intros Hc. split; [done|]. apply IH. lia.
  - intros [_ Hl]. apply IH in Hl. lia.
Qed.

Lemma since_refl tr P : since tr tr P.
Proof. exists []. by rewrite app_nil_r. Qed.

Lemma since_app tr0 tr evs P :
  since tr0 tr P -> Forall P evs -> since tr0 (tr ++ evs) P.
Proof.
  intros (delta & -> & Hd) Hevs. exists (delta ++ evs).
  rewrite app_assoc. split; [done|]. by apply Forall_app.
Qed.

Lemma since_trans tr0 tr1 tr2 P :
  since tr0 tr1 P -> since tr1 tr2 P -> since tr0 tr2 P.
Proof. intros H1 (delta & -> & Hd). by apply since_app. Qed.

Lemma since_weaken tr0 tr (P Q : Event -> Prop) :
  (forall e, P e -> Q e) -> since tr0 tr P -> since tr0 tr Q.
Proof.
  intros HPQ (delta & -> & Hd). exists delta. split; [done|].
  eapply Forall_impl; eauto.
Qed.

(** ** The executor *)

Lemma lookup_map {A B} (f : A -> B) (l : list A) j :
  map f l !! j = f <$> (l !! j).
Proof. apply list_lookup_fmap. Qed.

Lemma alter_None {A} (f : A -> A) (l : list A) i :
  l !! i = None -> alter f i l = l.
Proof.
  revert i. induction l as [|a l IH]; intros [|i]; cbn; try done.
  intros Hi. f_equal. by apply IH.
Qed.

Lemma statuses_with_result r i ns :
  statuses (alter (with_result r) i ns) = statuses ns.
Proof.
  revert i. induction ns as [|n ns IH]; intros [|i]; cbn; try done.
  f_equal. apply IH.
Qed.

Lemma trace_call_onNodeStart nid (w : World) :
  exists evs, trace (call_onNodeStart nid w) = trace w ++ evs
    /\ Forall (fun e => is_note e = true) evs
    /\ taskCache (call_onNodeStart nid w) = taskCache w.
Proof.
  unfold call_onNodeStart. destruct (opts ≫= onNodeStart) as [cb|].
  - exists [EvNodeStart nid]. cbn. repeat split. by repeat constructor.
  - exists []. by rewrite app_nil_r.
Qed.

(** What [executeNode] does before it first suspends. *)
Lemma executeNode_start_spec i x p x' :
  executeNode_start i x = (p, x') ->
  x_nodes x' = alter (with_status running) i (x_nodes x)
  /\ x_results x' = x_results x
  /\ taskCache (x_world x') = taskCache (x_world x)
  /\ exists notes,
       Forall (fun e => is_note e = true) notes
       /\ match x_nodes x !! i with
          | Some node =>
              trace (x_world x')
              = trace (x_world x)
                ++ EvExecuteNode (id node) :: EvStatuses (statuses (x_nodes x'))
                   :: notes
          | None => x' = x
          end.
Proof.
  unfold executeNode_start.
  destruct (x_nodes x !! i) as [node|] eqn:Hi.
  2:{ intros [= <- <-]. rewrite alter_None by done.
      repeat split. by exists []. }
  destruct (trace_call_onNodeStart (id node)
    (emit [EvStatuses (statuses (alter (with_status running) i (x_nodes x)))]
       (emit [EvExecuteNode (id node)] (x_world x)))) as (evs & Htr & Hevs & Hc).
  destruct (resolve_agent node) as [agent|];
    [destruct (cache_check _ _) as [cached|]|];
    intros [= <- <-]; cbn; rewrite ?Htr, ?Hc; cbn;
    (repeat split; [done..|]); rewrite <- ?app_assoc; cbn.
  - eexists (evs ++ [_; _]). split; [|done].
    apply Forall_app. split; [done|]. by repeat constructor.
  - eexists (evs ++ [_]). split; [|done].
    apply Forall_app. split; [done|]. by repeat constructor.
  - by exists evs.
Qed.

Lemma observed_spec {T} callee arg (f : Env -> Settled T * Env) w r w' :
  observed callee arg f w = (r, w') ->
  f (env w) = (r, env w')
  /\ taskCache w' = taskCache w
  /\ trace w' = trace w ++ [EvInvoke callee arg; settle_event r].
Proof.
  unfold observed. destruct (f (env w)) as [r1 e1]. by intros [= <- <-].
Qed.

Lemma failed_attempts_effects callee arg b m a errs :
  Forall (fun e => is_effect e = true) (failed_attempts callee arg b m a errs).
Proof.
  revert a. induction errs as [|e errs IH]; intros a; cbn; [done|].
  repeat constructor. apply IH.
Qed.

(** The agent call of lines 116-118, whatever the retry count: some failed
    attempts, at most as many as the node has retries, then a last call. *)
Lemma invoke_agent_spec agent node w r w' :
  invoke_agent agent node w = (r, w') ->
  exists errs e_last,
    trace w' = trace w
      ++ failed_attempts (name agent) (id node)
           (cfg_baseDelayMs (retry cfg)) (cfg_maxDelayMs (retry cfg)) 1 errs
      ++ [EvInvoke (name agent) (id node); settle_event r]
    /\ execute_ agent node e_last = (r, env w')
    /\ taskCache w' = taskCache w
    /\ Z.of_nat (length errs) <= Z.max 0 (default 0 (config node ≫= retries))
    /\ (default 0 (config node ≫= retries) <= 0 -> e_last = env w)
    /\ retried (execute_ agent node)
         (cfg_baseDelayMs (retry cfg)) (cfg_maxDelayMs (retry cfg)) 1 errs
         (env w) e_last
    /\ (forall reason, r = Rejected reason ->
          Z.of_nat (length errs) = Z.max 0 (default 0 (config node ≫= retries))).
Proof.
  unfold invoke_agent. set (n := default 0 (config node ≫= retries)).
  destruct (Z.ltb_spec 0 n) as [Hn|Hn].
  - unfold withRetry, run. intros Hrun.
    apply retry_loop_observed in Hrun; [|cbn; lia|cbn; f_equal; lia].
    destruct Hrun as (errs & e_last & Htr & Hlast & Hc & Hle & Hrej & Hch).
    exists errs, e_last. cbn in *. repeat split; try done; try lia.
    intros reason Hr. specialize (Hrej reason Hr). lia.
  - unfold run. intros Hrun. apply observed_spec in Hrun as (Hf & Hc & Htr).
    exists [], (env w). cbn. repeat split; try done; lia.
Qed.

Lemma executeNode_resume_quiet agent cacheKey node w r w' :
  executeNode_resume agent cacheKey node w = (r, w') ->
  since (trace w) (trace w') (fun e => is_effect e = true).
Proof.
  unfold executeNode_resume.
  set (w1 := if rateLimit_enabled cfg then _ else w).
  assert (since (trace w) (trace w1) (fun e => is_effect e = true)) as Hw1.
  { subst w1. destruct (rateLimit_enabled cfg); [|apply since_refl].
    cbn. apply since_app; [apply since_refl|by repeat constructor]. }
  destruct (invoke_agent agent node w1) as [r2 w2] eqn:Hrun.
  apply invoke_agent_spec in Hrun as (errs & e_last & Htr & _).
  assert (since (trace w) (trace w2) (fun e => is_effect e = true)) as Hw2.
  { rewrite Htr, app_assoc. apply since_app.
    - apply since_app; [done|apply failed_attempts_effects].
    - by destruct r2; repeat constructor. }
  destruct r2 as [res|reason]; intros [= <- <-]; [|done].
  by destruct (cache_enabled cfg && bool_decide (r_status res = ok)).
Qed.

Lemma allSettled_spec ns batch : forall promises w rs w',
  allSettled ns batch promises w = (rs, w') ->
  length promises = length batch ->
  length rs = length batch
  /\ since (trace w) (trace w') (fun e => is_effect e = true).
Proof.
  induction batch as [|i batch IH]; intros [|p promises] w rs w'; cbn;
    try (intros [= <- <-] _; split; [done|apply since_refl]); try done.
  set (step := match p with Returned r => _ | Suspended _ _ => _ end).
  destruct step as [r w1] eqn:Hstep.
  destruct (allSettled ns batch promises w1) as [rs1 w2] eqn:Hrest.
  intros [= <- <-] [= Hlen]. apply IH in Hrest as [Hl Hs]; [|done].
  split; [cbn; by rewrite Hl|].
  eapply since_trans; [|done].
  subst step. destruct p as [r0|agent key].
  - injection Hstep as <- <-. apply since_refl.
  - destruct (ns !! i) as [node|].
    + by eapply executeNode_resume_quiet.
    + injection Hstep as <- <-. apply since_refl.
Qed.

(** *** Marking nodes as skipped *)

Lemma skip_map_running st (f : TaskNode -> TaskNode) ns :
  st ≠ pending -> st ≠ skipped ->
  (forall n, f n = n \/ (status n = pending /\ f n = with_status skipped n)) ->
  count_status st (statuses (map f ns)) = count_status st (statuses ns).
Proof.
  intros Hp Hs Hf. induction ns as [|n ns IH]; [done|].
  cbn. rewrite !count_status_cons. unfold statuses in IH. rewrite IH.
  destruct (Hf n) as [->|[Hn ->]]; [done|].
  cbn. rewrite Hn. repeat case_decide; congruence.
Qed.

Lemma skip_map_pending (f : TaskNode -> TaskNode) ns :
  (forall n, f n = n \/ (status n = pending /\ f n = with_status skipped n)) ->
  (count_status pending (statuses (map f ns))
   <= count_status pending (statuses ns))%nat.
Proof.
  intros Hf. induction ns as [|n ns IH]; [done|].
  cbn. rewrite !count_status_cons. unfold statuses in IH.
  destruct (Hf n) as [->|[Hn ->]]; [lia|].
  cbn. rewrite Hn. repeat case_decide; try congruence; lia.
Qed.

Lemma skipDownstream_map ns k :
  exists f, skipDownstream ns k = map f ns
    /\ forall n, f n = n \/ (status n = pending /\ f n = with_status skipped n).
Proof.
  eexists. split; [reflexivity|]. intros n. cbn.
  unfold status_eqb. case_bool_decide; cbn; [|by left].
  destruct (depends_on_trans _ _ _ _); [by right|by left].
Qed.

Lemma skip_pending_map ns :
  exists f, skip_pending ns = map f ns
    /\ forall n, f n = n \/ (status n = pending /\ f n = with_status skipped n).
Proof.
  eexists. split; [reflexivity|]. intros n. cbn.
  unfold status_eqb. case_bool_decide; [by right|by left].
Qed.

Lemma skip_map_lookup (f : TaskNode -> TaskNode) ns j n' :
  (forall n, f n = n \/ (status n = pending /\ f n = with_status skipped n)) ->
  map f ns !! j = Some n' ->
  exists n, ns !! j = Some n
    /\ (n' = n \/ (status n = pending /\ n' = with_status skipped n)).
Proof.
  intros Hf. change (map f ns) with (f <$> ns). rewrite list_lookup_fmap.
  destruct (ns !! j) as [n|]; [|done]. intros [= <-]. exists n. split; [done|].
  apply Hf.
Qed.

(** *** Settling one node *)

Lemma record_result_nodes key r x : x_nodes (record_result key r x) = x_nodes x.
Proof. unfold record_result. by destruct (String.eqb key proto_key). Qed.

Lemma record_result_world key r x : x_world (record_result key r x) = x_world x.
Proof. unfold record_result. by destruct (String.eqb key proto_key). Qed.

Lemma record_result_results key r x :
  x_results (record_result key r x)
  = if String.eqb key proto_key then x_results x
    else <[key := r]> (x_results x).
Proof. unfold record_result. by destruct (String.eqb key proto_key). Qed.

Lemma record_result_proto key r x :
  x_proto (record_result key r x)
  = if String.eqb key proto_key then Some r else x_proto x.
Proof. unfold record_result. by destruct (String.eqb key proto_key). Qed.

(** Whether lines 45-68 throw is decided by line 62 alone. *)
Lemma settle_throws i r x node thrown :
  x_nodes x !! i = Some node ->
  settle i r x = inl thrown <-> settled_result r = inl thrown.
Proof.
  intros Hi. unfold settle, settled_result. rewrite Hi.
  destruct r as [res|reason]; [by case_bool_decide|].
  destruct (String_ reason); [|done]. split; by intros [= <-].
Qed.

Lemma settle_returns i r x node res :
  x_nodes x !! i = Some node -> settled_result r = inr res ->
  exists x', settle i r x = inr x'.
Proof.
  intros Hi Hr. destruct (settle i r x) as [thrown|x'] eqn:Hs; [|by eexists].
  apply (settle_throws i r x node thrown Hi) in Hs. congruence.
Qed.

(** The state after lines 45-68 for position [i], when they do not throw. *)
Lemma settle_spec i r x node x' :
  x_nodes x !! i = Some node ->
  settle i r x = inr x' ->
  exists res, settled_result r = inr res /\
  let ns1 := alter (with_status (settled_status r)) i
               (alter (with_result res) i (x_nodes x)) in
  x_nodes x' = (if decide (settled_status r = done) then ns1
                else skipDownstream ns1 (id node))
  /\ x_results x' = (if String.eqb (id node) proto_key then x_results x
                     else <[id node := res]> (x_results x))
  /\ taskCache (x_world x') = taskCache (x_world x)
  /\ trace (x_world x')
     = trace (x_world x)
       ++ [EvStatuses (statuses ns1)]
       ++ match opts ≫= onNodeEnd with
          | Some _ => [EvNodeEnd (id node) res]
          | None => []
          end
       ++ (if decide (settled_status r = done) then []
           else [EvStatuses (statuses (x_nodes x'))]).
Proof.
  intros Hi. unfold settle, settled_result, settled_status. rewrite Hi.
  destruct r as [res|reason]; [|destruct (String_ reason) as [thrown|text]];
    [case_bool_decide|done|]; intros [= <-]; eexists; (split; [done|]);
    cbn; rewrite ?record_result_nodes, ?record_result_world,
      ?record_result_results; cbn;
    unfold call_onNodeEnd; destruct (opts ≫= onNodeEnd); cbn;
    rewrite ?record_result_nodes, ?record_result_world, <- ?app_assoc; done.
Qed.

(** What lines 45-68 do to the environment and to the prototype of
    [nodeResults]: [onNodeEnd], when there is one, is called once, with the
    node's id and its result. *)
Lemma settle_env i r x node x' res :
  x_nodes x !! i = Some node ->
  settle i r x = inr x' ->
  settled_result r = inr res ->
  env (x_world x')
  = match opts ≫= onNodeEnd with
    | Some cb => cb (id node) res (env (x_world x))
    | None => env (x_world x)
    end
  /\ x_proto x' = (if String.eqb (id node) proto_key then Some res
                   else x_proto x).
Proof.
  intros Hi. unfold settle, settled_result. rewrite Hi.
  destruct r as [res'|reason]; [|destruct (String_ reason) as [thrown|text]];
    [case_bool_decide|done|]; intros [= <-] [= <-];
    cbn; rewrite ?record_result_world, ?record_result_proto; cbn;
    unfold call_onNodeEnd; destruct (opts ≫= onNodeEnd); cbn;
    rewrite ?record_result_world, ?record_result_proto; done.
Qed.

Lemma settle_None i r x : x_nodes x !! i = None -> settle i r x = inr x.
Proof. intros Hi. unfold settle. by rewrite Hi. Qed.

Lemma settled_status_not_running r : settled_status r ≠ running.
Proof. destruct r as [res|]; cbn; [by case_bool_decide|done]. Qed.

Lemma settled_status_not_pending r : settled_status r ≠ pending.
Proof. destruct r as [res|]; cbn; [by case_bool_decide|done]. Qed.

(** *** How many nodes are running *)

Lemma note_snapshot_ok M e : is_note e = true -> snapshot_ok M e.
Proof. by destruct e. Qed.

Lemma effect_snapshot_ok M e : is_effect e = true -> snapshot_ok M e.
Proof. by destruct e. Qed.

Lemma dispatch_running M batch : forall x ps x',
  dispatch batch x = (ps, x') ->
  (count_status running (statuses (x_nodes x)) + length batch <= M)%nat ->
  length ps = length batch
  /\ since (trace (x_world x)) (trace (x_world x')) (snapshot_ok M)
  /\ (count_status running (statuses (x_nodes x'))
      <= count_status running (statuses (x_nodes x)) + length batch)%nat
  /\ (forall j n, x_nodes x' !! j = Some n -> status n = running ->
        j ∈ batch \/ exists n0, x_nodes x !! j = Some n0 /\ status n0 = running).
Proof.
  induction batch as [|i batch IH]; intros x ps x'; cbn.
  - intros [= <- <-] _. repeat split; [apply since_refl|lia|eauto].
  - destruct (executeNode_start i x) as [p x1] eqn:Hstart.
    destruct (dispatch batch x1) as [ps1 x2] eqn:Hrest.
    intros [= <- <-] Hle.
    apply executeNode_start_spec in Hstart
      as (Hns & _ & _ & notes & Hnotes & Htr).
    pose proof (count_status_alter_S running running i (x_nodes x)) as Hc.
    rewrite <- Hns in Hc.
    apply IH in Hrest as (Hlen & Hsince & Hcount & Hrun); [|lia].
    repeat split.
    + cbn. by rewrite Hlen.
    + eapply since_trans; [|done].
      destruct (x_nodes x !! i) as [node|]; [|subst x1; apply since_refl].
      rewrite Htr. apply since_app; [apply since_refl|].
      constructor; [done|]. constructor; [cbn; lia|].
      eapply Forall_impl; [done|]. apply note_snapshot_ok.
    + lia.
    + intros j n Hj Hst. destruct (Hrun j n Hj Hst) as [Hin|(n0 & Hj0 & Hn0)].
      { left. by constructor. }
      destruct (decide (j = i)) as [->|Hne]; [left; constructor|].
      right. exists n0. split; [|done].
      by rewrite Hns, list_lookup_alter_ne in Hj0.
Qed.

Lemma settle_running M i r x x' :
  (count_status running (statuses (x_nodes x)) <= M)%nat ->
  settle i r x = inr x' ->
  since (trace (x_world x)) (trace (x_world x')) (snapshot_ok M)
  /\ (count_status running (statuses (x_nodes x'))
      <= count_status running (statuses (x_nodes x)))%nat
  /\ (forall j n, x_nodes x' !! j = Some n -> status n = running ->
        j ≠ i /\ exists n0, x_nodes x !! j = Some n0 /\ status n0 = running).
Proof.
  intros HM Hs. destruct (x_nodes x !! i) as [node|] eqn:Hi.
  2:{ rewrite settle_None in Hs by done. injection Hs as <-.
      repeat split; [apply since_refl|lia|..].
      - intros ->. congruence.
      - eauto. }
  destruct (settle_spec i r x node x' Hi Hs) as (res & _ & Hns & _ & _ & Htr).
  set (ns1 := alter (with_status (settled_status r)) i
                (alter (with_result res) i (x_nodes x))) in *.
  assert (count_status running (statuses ns1)
          <= count_status running (statuses (x_nodes x)))%nat as Hc1.
  { subst ns1. etrans; [apply count_status_alter_le|].
    - apply settled_status_not_running.
    - by rewrite statuses_with_result. }
  assert (count_status running (statuses (x_nodes x'))
          = count_status running (statuses ns1)) as Hc2.
  { rewrite Hns. case_decide; [done|].
    destruct (skipDownstream_map ns1 (id node)) as (f & -> & Hf).
    by apply skip_map_running. }
  assert (forall j n, ns1 !! j = Some n -> status n = running ->
            j ≠ i /\ exists n0, x_nodes x !! j = Some n0 /\ status n0 = running)
    as Hrun1.
  { intros j n Hj Hst. destruct (decide (j = i)) as [->|Hne].
    - subst ns1. rewrite list_lookup_alter_eq in Hj.
      destruct (alter _ i (x_nodes x) !! i) as [m|]; [|done].
      injection Hj as <-. cbn in Hst.
      by destruct (settled_status_not_running r).
    - split; [done|]. exists n. split; [|done]. subst ns1.
      by rewrite !list_lookup_alter_ne in Hj. }
  split; [|split; [lia|]].
  - rewrite Htr. apply since_app; [apply since_refl|].
    constructor; [cbn; lia|]. apply Forall_app. split.
    + by destruct (opts ≫= onNodeEnd); repeat constructor.
    + case_decide; repeat constructor. cbn. lia.
  - intros j n Hj Hst. rewrite Hns in Hj. case_decide; [by eapply Hrun1|].
    destruct (skipDownstream_map ns1 (id node)) as (f & Hmap & Hf).
    rewrite Hmap in Hj. apply skip_map_lookup in Hj as (m & Hm & Hcase); [|done].
    destruct Hcase as [->|[_ ->]]; [|done]. by eapply Hrun1.
Qed.

Lemma settle_all_running M batch : forall rs x o x',
  (count_status running (statuses (x_nodes x)) <= M)%nat ->
  length rs = length batch ->
  settle_all batch rs x = (o, x') ->
  since (trace (x_world x)) (trace (x_world x')) (snapshot_ok M)
  /\ (count_status running (statuses (x_nodes x'))
      <= count_status running (statuses (x_nodes x)))%nat
  /\ (o = None ->
      forall j n, x_nodes x' !! j = Some n -> status n = running ->
        (j ∉ batch) /\ exists n0, x_nodes x !! j = Some n0 /\ status n0 = running).
Proof.
  induction batch as [|i batch IH]; intros [|r rs] x o x' HM; cbn; try done.
  - intros _ [= <- <-]. split; [apply since_refl|]. split; [lia|].
    intros _ j n Hj Hst. split; [apply not_elem_of_nil|eauto].
  - intros [= Hlen]. destruct (settle i r x) as [thrown|x1] eqn:Hs.
    { intros [= <- <-]. split; [apply since_refl|]. split; [lia|done]. }
    intros Hrest.
    destruct (settle_running M i r x x1 HM Hs) as (Hs1 & Hc1 & Hr1).
    destruct (IH rs x1 o x') as (Hs2 & Hc2 & Hr2); [lia|done|done|].
    split; [by eapply since_trans|]. split; [lia|].
    intros Ho j n Hj Hst.
    destruct (Hr2 Ho j n Hj Hst) as (Hnin & n1 & Hj1 & Hst1).
    destruct (Hr1 j n1 Hj1 Hst1) as (Hne & n0 & Hj0 & Hst0).
    split; [|eauto]. rewrite not_elem_of_cons. done.
Qed.

Lemma slice0_length {A} (M : Z) (l : list A) :
  0 <= M -> (length (slice0 M l) <= Z.to_nat M)%nat.
Proof.
  intros HM. unfold slice0. destruct (Z.ltb_spec M 0); [lia|].
  rewrite length_take. lia.
Qed.

Lemma run_batch_running M ready x o x' :
  0 <= M ->
  count_status running (statuses (x_nodes x)) = 0%nat ->
  run_batch M ready x = (o, x') ->
  since (trace (x_world x)) (trace (x_world x')) (snapshot_ok (Z.to_nat M))
  /\ (o = None -> count_status running (statuses (x_nodes x')) = 0%nat).
Proof.
  intros HM H0. unfold run_batch.
  pose proof (slice0_length M ready HM) as Hlen.
  set (batch := slice0 M ready) in *.
  destruct (dispatch batch x) as [promises x1] eqn:Hd.
  apply dispatch_running with (M := Z.to_nat M) in Hd
    as (Hlp & Hs1 & Hc1 & Hr1); [|lia].
  destruct (allSettled (x_nodes x1) batch promises (x_world x1))
    as [results w2] eqn:Ha.
  apply allSettled_spec in Ha as (Hlr & Hs2); [|done].
  set (x2 := mkExec (x_nodes x1) (x_results x1) (x_proto x1) w2).
  intros Hall.
  destruct (settle_all_running (Z.to_nat M) batch results x2 o x')
    as (Hs3 & Hc3 & Hr3); [unfold statuses in *; subst x2; cbn; lia|done..|].
  split.
  - eapply since_trans; [|exact Hs3]. eapply since_trans; [exact Hs1|].
    cbn. eapply since_weaken; [|exact Hs2]. apply effect_snapshot_ok.
  - intros Ho. specialize (Hr3 Ho).
    apply count_status_zero. apply Forall_forall. intros st Hin Hst.
    apply list_elem_of_lookup in Hin as [j Hj].
    unfold statuses in Hj. change (map status ?l) with (status <$> l) in Hj.
    rewrite list_lookup_fmap in Hj.
    destruct (x_nodes x' !! j) as [n|] eqn:Hn;
      [|done].
    injection Hj as Hj. rewrite Hst in Hj.
    destruct (Hr3 j n Hn Hj) as (Hnin & n1 & Hj1 & Hst1).
    destruct (Hr1 j n1 Hj1 Hst1) as [Hin|(n0 & Hj0 & Hst0)]; [done|].
    apply count_status_zero in H0. rewrite Forall_forall in H0.
    apply (H0 running); [|done]. apply list_elem_of_lookup. exists j.
    unfold statuses. change (map status ?l) with (status <$> l).
    by rewrite list_lookup_fmap, Hj0, <- Hst0.
Qed.

Lemma execute_loop_running M : forall fuel x ex x',
  0 <= M ->
  count_status running (statuses (x_nodes x)) = 0%nat ->
  execute_loop M fuel x = Some (ex, x') ->
  since (trace (x_world x)) (trace (x_world x')) (snapshot_ok (Z.to_nat M))
  /\ (raised ex = false ->
      count_status running (statuses (x_nodes x')) = 0%nat).
Proof.
  induction fuel as [|fuel IH]; intros x ex x' HM H0; cbn; [done|].
  destruct (isComplete (x_nodes x)).
  { intros [= <- <-]. split; [apply since_refl|done]. }
  destruct (aborted (x_world x)).
  { intros [= <- <-]. cbn.
    destruct (skip_pending_map (x_nodes x)) as (f & -> & Hf).
    rewrite skip_map_running by done. split; [|done].
    apply since_app; [apply since_refl|]. repeat constructor. cbn.
    rewrite skip_map_running by done. lia. }
  case_bool_decide.
  { intros [= <- <-]. cbn. split; [|done].
    apply since_app; [apply since_refl|]. by repeat constructor. }
  destruct (run_batch M (readyNodes (x_nodes x)) x) as [o x1] eqn:Hb.
  destruct (run_batch_running M _ x o x1 HM H0 Hb) as [Hs Hc].
  destruct o as [thrown|]; [by intros [= <- <-]|].
  intros Hloop.
  apply IH in Hloop as [Hs' Hc']; [|by auto..].
  split; [by eapply since_trans|done].
Qed.


(** *** The loop terminates *)

Lemma count_status_le_length st l : (count_status st l <= length l)%nat.
Proof.
  induction l as [|s l IH]; [done|]. rewrite count_status_cons. cbn.
  case_decide; lia.
Qed.

Lemma readyNodes_pending ns i :
  i ∈ readyNodes ns -> exists n, ns !! i = Some n /\ status n = pending.
Proof.
  unfold readyNodes. rewrite list_elem_of_filter. intros [Hr _].
  destruct (ns !! i) as [n|]; [|done]. exists n. split; [done|].
  cbn in Hr. unfold is_ready, status_eqb in Hr.
  apply andb_true_iff in Hr as [Hp _]. by apply bool_decide_eq_true in Hp.
Qed.

Lemma readyNodes_NoDup ns : NoDup (readyNodes ns).
Proof. unfold readyNodes. apply NoDup_filter, NoDup_seq. Qed.

Lemma dispatch_pending batch : forall x ps x',
  dispatch batch x = (ps, x') ->
  (count_status pending (statuses (x_nodes x'))
   <= count_status pending (statuses (x_nodes x)))%nat
  /\ (forall i rest n, batch = i :: rest ->
        x_nodes x !! i = Some n -> status n = pending ->
        (count_status pending (statuses (x_nodes x'))
         < count_status pending (statuses (x_nodes x)))%nat).
Proof.
  induction batch as [|i batch IH]; intros x ps x'; cbn.
  - intros [= <- <-]. split; [lia|done].
  - destruct (executeNode_start i x) as [p x1] eqn:Hstart.
    destruct (dispatch batch x1) as [ps1 x2] eqn:Hrest.
    intros [= <- <-].
    apply executeNode_start_spec in Hstart as (Hns & _).
    apply IH in Hrest as [Hle _].
    pose proof (count_status_alter_le pending running i (x_nodes x)
                  ltac:(done)) as Hc.
    rewrite <- Hns in Hc. split; [lia|].
    intros i' rest n [= <- <-] Hi Hst.
    pose proof (count_status_alter_lt pending running i (x_nodes x) n) as Hlt.
    rewrite <- Hns in Hlt. specialize (Hlt ltac:(done) Hi Hst). lia.
Qed.

Lemma settle_pending i r x x' :
  settle i r x = inr x' ->
  (count_status pending (statuses (x_nodes x'))
   <= count_status pending (statuses (x_nodes x)))%nat.
Proof.
  intros Hs. destruct (x_nodes x !! i) as [node|] eqn:Hi;
    [|rewrite settle_None in Hs by done; by injection Hs as <-].
  destruct (settle_spec i r x node x' Hi Hs) as (res & _ & Hns & _).
  rewrite Hns.
  set (ns1 := alter (with_status (settled_status r)) i
                (alter (with_result res) i (x_nodes x))).
  assert (count_status pending (statuses ns1)
          <= count_status pending (statuses (x_nodes x)))%nat as Hc1.
  { subst ns1. etrans; [apply count_status_alter_le|].
    - apply settled_status_not_pending.
    - by rewrite statuses_with_result. }
  case_decide; [done|].
  destruct (skipDownstream_map ns1 (id node)) as (f & -> & Hf).
  etrans; [by apply skip_map_pending|done].
Qed.

Lemma settle_all_pending batch : forall rs x o x',
  settle_all batch rs x = (o, x') ->
  (count_status pending (statuses (x_nodes x'))
   <= count_status pending (statuses (x_nodes x)))%nat.
Proof.
  induction batch as [|i batch IH]; intros [|r rs] x o x'; cbn;
    try (intros [= <- <-]; lia).
  destruct (settle i r x) as [thrown|x1] eqn:Hs; [intros [= <- <-]; lia|].
  intros Hrest. etrans; [by eapply IH|by eapply settle_pending].
Qed.

Lemma run_batch_pending M x o x' :
  1 <= M -> readyNodes (x_nodes x) ≠ [] ->
  run_batch M (readyNodes (x_nodes x)) x = (o, x') ->
  (count_status pending (statuses (x_nodes x'))
   < count_status pending (statuses (x_nodes x)))%nat.
Proof.
  intros HM Hready. unfold run_batch.
  destruct (readyNodes (x_nodes x)) as [|i ready] eqn:Hr; [done|].
  assert (i ∈ readyNodes (x_nodes x)) as Hin by (rewrite Hr; constructor).
  apply readyNodes_pending in Hin as (n & Hi & Hst).
  assert (exists rest, slice0 M (i :: ready) = i :: rest) as [rest ->].
  { unfold slice0. destruct (Z.ltb_spec M 0); [lia|].
    destruct (Z.to_nat M) as [|k] eqn:Hk; [lia|]. cbn. eauto. }
  destruct (dispatch (i :: rest) x) as [promises x1] eqn:Hd.
  apply dispatch_pending in Hd as [_ Hlt].
  specialize (Hlt i rest n eq_refl Hi Hst).
  destruct (allSettled _ _ _ _) as [results w2]. intros Hall.
  apply settle_all_pending in Hall as Hle.
  cbn [x_nodes] in Hle. lia.
Qed.

(** With at least one node per batch, every pass with work to do takes a
    node out of [pending]: the loop exits within as many passes as there are
    pending nodes, and one more to see that it is over. *)
Lemma execute_loop_terminates M : 1 <= M -> forall fuel x,
  (count_status pending (statuses (x_nodes x)) < fuel)%nat ->
  exists ex x', execute_loop M fuel x = Some (ex, x').
Proof.
  intros HM. induction fuel as [|fuel IH]; intros x Hfuel; [lia|]. cbn.
  destruct (isComplete (x_nodes x)); [eauto|].
  destruct (aborted (x_world x)); [eauto|].
  case_bool_decide as Hlen; [eauto|].
  assert (readyNodes (x_nodes x) ≠ []) as Hne by (by intros Heq; rewrite Heq in Hlen).
  destruct (run_batch M (readyNodes (x_nodes x)) x) as [[thrown|] x1] eqn:Hb;
    [eauto|].
  apply IH.
  pose proof (run_batch_pending M x None x1 HM Hne Hb). lia.
Qed.

(** With at least one node per batch, the promise of [execute] settles. *)
Lemma execute_terminates (g : TaskGraph) (w : World) fuel :
  1 <= effective_maxConcurrency ->
  (length (nodes g) < fuel)%nat ->
  exists r w', execute fuel g w = Some (r, w').
Proof.
  intros HM Hfuel. unfold execute.
  destruct (execute_loop_terminates effective_maxConcurrency HM fuel
              (initial g w)) as (ex & x' & ->); [|destruct ex; eauto].
  cbn. pose proof (count_status_le_length pending (statuses (nodes g))) as Hc.
  unfold statuses in *. rewrite length_map in Hc. lia.
Qed.

(** *** How the loop was left *)

Lemma isComplete_false ns :
  isComplete ns = false ->
  exists n, n ∈ ns /\ is_terminal (status n) = false.
Proof.
  unfold isComplete. induction ns as [|n ns IH]; cbn; [done|].
  destruct (is_terminal (status n)) eqn:Hn; cbn.
  - intros Hns. destruct (IH Hns) as (m & Hin & Hm). exists m.
    split; [by constructor|done].
  - intros _. exists n. split; [constructor|done].
Qed.

Lemma execute_loop_exit M : forall fuel x ex x',
  execute_loop M fuel x = Some (ex, x') ->
  ex = Aborted \/ ex = Deadlock ->
  exists n, n ∈ x_nodes x' /\ status n ≠ done.
Proof.
  induction fuel as [|fuel IH]; intros x ex x'; cbn; [done|].
  destruct (isComplete (x_nodes x)) eqn:Hc; [by intros [= <- <-] [|]|].
  apply isComplete_false in Hc as (n & Hin & Hn).
  destruct (aborted (x_world x)).
  { intros [= <- <-] _. cbn.
    exists (if status_eqb (status n) pending then with_status skipped n else n).
    split.
    - unfold skip_pending. apply list_elem_of_fmap. by exists n.
    - unfold status_eqb. case_bool_decide; [done|].
      intros Hd. by rewrite Hd in Hn. }
  case_bool_decide.
  { intros [= <- <-] _. cbn. exists n. split; [done|].
    intros Hd. by rewrite Hd in Hn. }
  destruct (run_batch _ _ _) as [[thrown|] x1]; [|apply IH].
  by intros [= <- <-] [|].
Qed.

(** What [execute] returns when its loop was not left by an exception. *)
Lemma execute_fulfilled fuel (g : TaskGraph) (w : World) res w' :
  execute fuel g w = Some (Fulfilled res, w') ->
  exists ex x,
    execute_loop effective_maxConcurrency fuel (initial g w) = Some (ex, x)
    /\ raised ex = false
    /\ w' = x_world x
    /\ res = mkExecutionResult
               (mkGraph (goal g) (x_nodes x) (synthesizerPrompt g))
               (forallb (fun n => status_eqb (status n) done) (x_nodes x))
               (Date_now (env (x_world x)) - Date_now (env w))
               (x_results x) (x_proto x).
Proof.
  unfold execute.
  destruct (execute_loop _ fuel (initial g w)) as [[ex x]|]; [|done].
  destruct ex; intros [= <- <-]; eexists _, x; done.
Qed.

(** *** When no exception can leave the loop *)

Lemma dispatch_promises batch : forall x ps x',
  dispatch batch x = (ps, x') ->
  Forall (fun p => match p with
                   | Returned r => converts_all [r]
                   | Suspended agent _ => agent ∈ agents
                   end) ps.
Proof.
  induction batch as [|i batch IH]; intros x ps x'; cbn.
  - by intros [= <- <-].
  - destruct (executeNode_start i x) as [p x1] eqn:Hstart.
    destruct (dispatch batch x1) as [ps1 x2] eqn:Hrest.
    intros [= <- <-]. constructor; [|by eapply IH].
    unfold executeNode_start in Hstart.
    destruct (x_nodes x !! i) as [node|].
    2:{ injection Hstart as <- <-. repeat constructor. by eexists. }
    destruct (resolve_agent node) as [agent|] eqn:Hag.
    2:{ injection Hstart as <- <-. repeat constructor. by eexists. }
    destruct (cache_check _ _).
    { injection Hstart as <- <-. repeat constructor. by eexists. }
    injection Hstart as <- <-.
    unfold resolve_agent, registry_list, registry_pick in Hag.
    assert (forall l, head l = Some agent -> agent ∈ l) as Hhead.
    { intros [|a l]; [done|]. intros [= ->]. constructor. }
    assert (forall f l, List.find f l = Some agent -> agent ∈ l) as Hfind.
    { intros f l Hf. apply find_some in Hf as [Hin _].
      by apply list_elem_of_In. }
    destruct (assignTo node) as [sel|]; [|by apply Hhead].
    destruct (String.eqb sel ""); [by apply Hhead|].
    destruct (List.find _ agents) as [a|] eqn:Hf1.
    + injection Hag as ->. by eapply Hfind.
    + by eapply Hfind.
Qed.

Lemma invoke_agent_rejects agent node (w : World) reason w' :
  invoke_agent agent node w = (Rejected reason, w') ->
  exists e, execute_ agent node e = (Rejected reason, env w').
Proof.
  unfold invoke_agent.
  destruct (0 <? default 0 (config node ≫= retries)) eqn:Hn.
  - unfold withRetry, run. intros Hrun.
    apply retry_loop_observed in Hrun; [|cbn; lia|cbn; f_equal; lia].
    destruct Hrun as (errs & e_last & _ & Hlast & _). by exists e_last.
  - unfold run. intros Hrun. apply observed_spec in Hrun as (Hf & _).
    by eexists.
Qed.

Lemma allSettled_converts ns batch : forall promises w rs w',
  agents_convert ->
  Forall (fun p => match p with
                   | Returned r => converts_all [r]
                   | Suspended agent _ => agent ∈ agents
                   end) promises ->
  allSettled ns batch promises w = (rs, w') ->
  converts_all rs.
Proof.
  intros promises w rs w' Hconv. revert promises w rs w'.
  induction batch as [|i batch IH]; intros [|p promises] w rs w' Hps; cbn;
    try (by intros [= <- <-]; constructor).
  set (step := match p with Returned r => _ | Suspended _ _ => _ end).
  destruct step as [r w1] eqn:Hstep.
  destruct (allSettled ns batch promises w1) as [rs1 w2] eqn:Hrest.
  intros [= <- <-]. apply Forall_cons in Hps as [Hp Hps].
  constructor; [|by eapply IH].
  subst step. destruct p as [r0|agent key].
  - injection Hstep as <- <-. by apply Forall_cons in Hp as [Hp _].
  - destruct (ns !! i) as [node|]; [|injection Hstep as <- <-; by eexists].
    unfold executeNode_resume in Hstep.
    destruct (invoke_agent agent node _) as [[res|reason] w3] eqn:Hrun;
      injection Hstep as <- <-; [by eexists|].
    apply invoke_agent_rejects in Hrun as [e He].
    unfold settled_result. destruct (Hconv agent node e reason _ Hp He) as [t ->].
    by eexists.
Qed.

Lemma settle_all_converts batch : forall rs x o x',
  converts_all rs -> settle_all batch rs x = (o, x') -> o = None.
Proof.
  induction batch as [|i batch IH]; intros [|r rs] x o x' Hrs; cbn;
    try (by intros [= <- <-]).
  apply Forall_cons in Hrs as [[res Hr] Hrs].
  destruct (settle i r x) as [thrown|x1] eqn:Hs; [|by apply IH].
  destruct (x_nodes x !! i) as [node|] eqn:Hi.
  - apply (settle_throws i r x node thrown Hi) in Hs. congruence.
  - by rewrite settle_None in Hs.
Qed.

Lemma run_batch_converts M ready x o x' :
  agents_convert -> run_batch M ready x = (o, x') -> o = None.
Proof.
  intros Hconv. unfold run_batch.
  destruct (dispatch (slice0 M ready) x) as [promises x1] eqn:Hd.
  apply dispatch_promises in Hd.
  destruct (allSettled _ _ _ _) as [rs w2] eqn:Ha.
  apply allSettled_converts in Ha; [|done..].
  by apply settle_all_converts.
Qed.

Lemma execute_loop_converts M : forall fuel x ex x',
  agents_convert -> execute_loop M fuel x = Some (ex, x') -> raised ex = false.
Proof.
  induction fuel as [|fuel IH]; intros x ex x' Hconv; cbn; [done|].
  destruct (isComplete (x_nodes x)); [by intros [= <- <-]|].
  destruct (aborted (x_world x)); [by intros [= <- <-]|].
  case_bool_decide; [by intros [= <- <-]|].
  destruct (run_batch _ _ _) as [o x1] eqn:Hb.
  apply run_batch_converts in Hb as ->; [|done]. by apply IH.
Qed.

(** C3. The [success] that [execute] returns is true exactly when every
    node of the returned graph is done; a run whose loop was left through
    the abort branch or the deadlock branch returns [success = false]. With
    batches of at least one node, the promise of [execute] settles; it
    fulfils, with a result, when whatever an adapter of the registry rejects
    with can be converted to a string. *)
Theorem success_iff_all_done (g : TaskGraph) (w : World) :
  (forall fuel res w',
     execute fuel g w = Some (Fulfilled res, w') ->
     (success res = true
      <-> Forall (fun n => status n = done) (nodes (graph res)))
     /\ (forall ex x,
          execute_loop effective_maxConcurrency fuel (initial g w)
            = Some (ex, x) ->
          ex = Aborted \/ ex = Deadlock -> success res = false))
  /\ (1 <= effective_maxConcurrency ->
      exists r w',
        execute (S (length (nodes g))) g w = Some (r, w')
        /\ (agents_convert -> exists res, r = Fulfilled res)).
Proof.
  split.
  2:{ intros HM.
      destruct (execute_terminates g w (S (length (nodes g))) HM)
        as (r & w' & Hrun); [lia|].
      exists r, w'. split; [done|]. intros Hconv. unfold execute in Hrun.
      destruct (execute_loop _ _ (initial g w)) as [[ex x]|] eqn:Hloop; [|done].
      apply execute_loop_converts in Hloop; [|done].
      destruct ex; try done; injection Hrun as <- _; by eexists. }
  intros fuel res w' Hrun.
  apply execute_fulfilled in Hrun as (ex & x & Hloop & Hex & -> & ->).
  cbn. split.
  - rewrite forallb_forall, Forall_forall. unfold status_eqb.
    split; intros Hall n Hn.
    + apply list_elem_of_In, Hall in Hn. by apply bool_decide_eq_true in Hn.
    + apply bool_decide_eq_true, Hall. by apply list_elem_of_In.
  - intros ex' x' Hloop' Hex'. rewrite Hloop in Hloop'.
    injection Hloop' as <- <-.
    destruct (execute_loop_exit _ _ _ _ _ Hloop Hex') as (n & Hin & Hn).
    apply not_true_is_false. rewrite forallb_forall. intros Hall.
    apply list_elem_of_In, Hall in Hin. unfold status_eqb in Hin.
    by apply bool_decide_eq_true in Hin.
Qed.

(** C6. When the loop finds the graph incomplete and the abort signal
    tripped, it is left at once: every node that was pending is skipped,
    every other node is as it was, nothing is dispatched (the trace grows by
    the one snapshot of the statuses), and [nodeResults], the cache and the
    environment are untouched. *)
Theorem abort_skips_pending (M : Z) (fuel : nat) (x : Exec) :
  isComplete (x_nodes x) = false ->
  aborted (x_world x) = true ->
  exists x',
    execute_loop M (S fuel) x = Some (Aborted, x')
    /\ (forall i n, x_nodes x !! i = Some n ->
          x_nodes x' !! i
          = Some (if decide (status n = pending)
                  then with_status skipped n else n))
    /\ length (x_nodes x') = length (x_nodes x)
    /\ x_results x' = x_results x
    /\ env (x_world x') = env (x_world x)
    /\ taskCache (x_world x') = taskCache (x_world x)
    /\ trace (x_world x')
       = trace (x_world x) ++ [EvStatuses (statuses (x_nodes x'))].
Proof.
  intros Hc Ha. eexists. cbn. rewrite Hc, Ha. split; [reflexivity|].
  cbn. repeat split.
  - intros i n Hi. unfold skip_pending.
    change (map ?f ?l) with (f <$> l). rewrite list_lookup_fmap, Hi. cbn.
    unfold status_eqb. case_bool_decide; by case_decide.
  - unfold skip_pending. by rewrite length_map.
Qed.

(** C7. With [maxConcurrency = M >= 1] and no node running when [execute] is
    called, every snapshot of the statuses that the run records (one after
    each write to a status) has at most [M] nodes running, whether the
    promise of [execute] fulfils or rejects, and so has the graph it
    returns. *)
Theorem running_nodes_bounded (fuel : nat) (g : TaskGraph) (w : World) r w' :
  1 <= effective_maxConcurrency ->
  Forall (fun n => status n ≠ running) (nodes g) ->
  execute fuel g w = Some (r, w') ->
  (exists delta, trace w' = trace w ++ delta
     /\ forall snap, EvStatuses snap ∈ delta ->
          Z.of_nat (count_status running snap) <= effective_maxConcurrency)
  /\ (forall res, r = Fulfilled res ->
        Z.of_nat (count_status running (statuses (nodes (graph res))))
        <= effective_maxConcurrency).
Proof.
  intros HM Hinit Hrun. unfold execute in Hrun.
  destruct (execute_loop _ fuel (initial g w)) as [[ex x]|] eqn:Hloop; [|done].
  apply execute_loop_running in Hloop as [(delta & Htr & Hd) Hc]; [|lia|].
  2:{ cbn. apply count_status_zero. unfold statuses.
      change (map ?f ?l) with (f <$> l). by apply Forall_fmap. }
  assert (w' = x_world x) as -> by (destruct ex; by injection Hrun as _ <-).
  split.
  - exists delta. split; [done|].
    intros snap Hin. rewrite Forall_forall in Hd. apply Hd in Hin.
    cbn in Hin. lia.
  - intros res ->.
    destruct ex; try discriminate Hrun; injection Hrun as <-;
      cbn [graph nodes]; rewrite Hc by done; lia.
Qed.

(** *** What [nodeResults] holds *)

Lemma ids_alter (f : TaskNode -> TaskNode) i ns :
  (forall n, id (f n) = id n) -> map id (alter f i ns) = map id ns.
Proof.
  intros Hf. revert i. induction ns as [|n ns IH]; intros [|i]; cbn; try done.
  - by rewrite Hf.
  - by rewrite IH.
Qed.

Lemma ids_skip_map (f : TaskNode -> TaskNode) ns :
  (forall n, f n = n \/ (status n = pending /\ f n = with_status skipped n)) ->
  map id (map f ns) = map id ns.
Proof.
  intros Hf. rewrite map_map. apply map_ext. intros n.
  by destruct (Hf n) as [->|[_ ->]].
Qed.

Lemma dispatched_mono tr0 tr more k :
  dispatched tr0 tr k -> dispatched tr0 (tr ++ more) k.
Proof.
  intros (delta & -> & Hin). exists (delta ++ more).
  rewrite app_assoc. split; [done|]. apply elem_of_app. by left.
Qed.

Lemma dispatched_since tr0 tr tr' P k :
  since tr tr' P -> dispatched tr0 tr k -> dispatched tr0 tr' k.
Proof. intros (more & -> & _). apply dispatched_mono. Qed.

Lemma dispatched_trans tr0 tr tr' P k :
  since tr0 tr P -> dispatched tr tr' k -> dispatched tr0 tr' k.
Proof.
  intros (d1 & -> & _) (d2 & -> & Hin). exists (d1 ++ d2).
  rewrite app_assoc. split; [done|]. apply elem_of_app. by right.
Qed.

Lemma since_True tr0 tr P : since tr0 tr P -> since tr0 tr (fun _ => True).
Proof. by apply since_weaken. Qed.

Lemma lookup_counterpart {A B} (l : list A) (l' : list B) j a :
  length l = length l' -> l !! j = Some a -> exists b, l' !! j = Some b.
Proof.
  intros Hlen Hj. apply lookup_lt_Some in Hj.
  apply lookup_lt_is_Some_2. lia.
Qed.

Lemma ids_length (ns ns' : list TaskNode) :
  map id ns = map id ns' -> length ns = length ns'.
Proof. intros Hid. by rewrite <- (length_map id ns), Hid, length_map. Qed.

Lemma ids_lookup (ns ns' : list TaskNode) j n n' :
  map id ns = map id ns' -> ns !! j = Some n -> ns' !! j = Some n' ->
  id n = id n'.
Proof.
  intros Hid Hj Hj'.
  assert ((id <$> ns) !! j = (id <$> ns') !! j) as Heq
    by (change (?f <$> ?l) with (map f l); by rewrite Hid).
  rewrite !list_lookup_fmap, Hj, Hj' in Heq. by injection Heq.
Qed.

(** The nodes after [batch.map]: those of the batch are running, and
    [executeNode] was entered for each; the others are as they were. *)
Lemma dispatch_inv batch : forall x ps x',
  dispatch batch x = (ps, x') ->
  x_results x' = x_results x
  /\ map id (x_nodes x') = map id (x_nodes x)
  /\ (forall j n n', x_nodes x !! j = Some n -> x_nodes x' !! j = Some n' ->
        n' = n \/ (j ∈ batch /\ n' = with_status running n))
  /\ since (trace (x_world x)) (trace (x_world x')) (fun _ => True)
  /\ (forall i n, i ∈ batch -> x_nodes x !! i = Some n ->
        dispatched (trace (x_world x)) (trace (x_world x')) (id n)).
Proof.
  induction batch as [|i batch IH]; intros x ps x'; cbn.
  - intros [= <- <-]. repeat split; [| apply since_refl |].
    + intros j n n' Hj Hj'. left. congruence.
    + intros i n Hin. by apply elem_of_nil in Hin.
  - destruct (executeNode_start i x) as [p x1] eqn:Hstart.
    destruct (dispatch batch x1) as [ps1 x2] eqn:Hrest.
    intros [= <- <-].
    apply executeNode_start_spec in Hstart
      as (Hns & Hres & _ & notes & _ & Htr).
    apply IH in Hrest as (Hres2 & Hid2 & Hpt2 & Hs2 & Hd2).
    assert (map id (x_nodes x1) = map id (x_nodes x)) as Hid1
      by (rewrite Hns; by apply ids_alter).
    assert (since (trace (x_world x)) (trace (x_world x1)) (fun _ => True))
      as Hs1.
    { destruct (x_nodes x !! i); [|subst x1; apply since_refl].
      rewrite Htr. apply since_app; [apply since_refl|].
      by apply Forall_forall. }
    split; [congruence|]. split; [congruence|]. split; [|split].
    + intros j n n' Hj Hj'.
      destruct (lookup_counterpart (x_nodes x) (x_nodes x1) j n)
        as [n1 Hj1]; [by apply ids_length|done|].
      specialize (Hpt2 j n1 n' Hj1 Hj').
      rewrite Hns in Hj1. destruct (decide (i = j)) as [->|Hne].
      * rewrite list_lookup_alter_eq, Hj in Hj1. injection Hj1 as <-.
        right. split; [constructor|]. by destruct Hpt2 as [->|[_ ->]].
      * rewrite list_lookup_alter_ne, Hj in Hj1 by done. injection Hj1 as <-.
        destruct Hpt2 as [->|[Hin ->]]; [by left|right].
        split; [by constructor|done].
    + by eapply since_trans.
    + intros i' n Hin Hi'. apply elem_of_cons in Hin as [->|Hin].
      * rewrite Hi' in Htr. eapply dispatched_since; [exact Hs2|].
        eexists. split; [exact Htr|]. constructor.
      * destruct (lookup_counterpart (x_nodes x) (x_nodes x1) i' n)
          as [n1 Hj1]; [by apply ids_length|done|].
        rewrite <- (ids_lookup _ _ _ _ _ Hid1 Hj1 Hi').
        eapply dispatched_trans; [exact Hs1|]. by eapply Hd2.
Qed.

Lemma settled_status_cases r :
  settled_status r = done \/ settled_status r = failed.
Proof. destruct r as [res|]; cbn; [case_bool_decide|]; auto. Qed.

(** The nodes after settling position [i]: the node there is done or failed;
    any other is as it was, or was pending and is skipped. *)
Lemma settle_pointwise i r x x' :
  settle i r x = inr x' ->
  map id (x_nodes x') = map id (x_nodes x)
  /\ forall j n n',
       x_nodes x !! j = Some n -> x_nodes x' !! j = Some n' ->
       (j = i /\ (status n' = done \/ status n' = failed))
       \/ (j ≠ i /\ (n' = n \/ (status n = pending /\ n' = with_status skipped n))).
Proof.
  intros Hs. destruct (x_nodes x !! i) as [node|] eqn:Hi.
  2:{ rewrite settle_None in Hs by done. injection Hs as <-.
      split; [done|]. intros j n n' Hj Hj'.
      right. split; [congruence|]. left. congruence. }
  destruct (settle_spec i r x node x' Hi Hs) as (res & _ & Hns & _).
  rewrite Hns.
  set (ns1 := alter (with_status (settled_status r)) i
                (alter (with_result res) i (x_nodes x))).
  assert (map id ns1 = map id (x_nodes x)) as Hid1
    by (subst ns1; by rewrite !ids_alter).
  assert (forall j n n1, x_nodes x !! j = Some n -> ns1 !! j = Some n1 ->
            (j = i /\ (status n1 = done \/ status n1 = failed))
            \/ (j ≠ i /\ n1 = n)) as Hpt1.
  { intros j n n1 Hj Hj1. subst ns1. destruct (decide (i = j)) as [->|Hne].
    - left. split; [done|].
      rewrite !list_lookup_alter_eq, Hj in Hj1. injection Hj1 as <-.
      apply settled_status_cases.
    - right. split; [done|].
      rewrite !list_lookup_alter_ne, Hj in Hj1 by done. by injection Hj1. }
  case_decide.
  { split; [done|]. intros j n n' Hj Hj'.
    destruct (Hpt1 j n n' Hj Hj') as [?|[? ->]]; [by left|right; auto]. }
  destruct (skipDownstream_map ns1 (id node)) as (f & -> & Hf).
  split; [by rewrite ids_skip_map|].
  intros j n n' Hj Hj'. apply skip_map_lookup in Hj' as (n1 & Hj1 & Hcase);
    [|done].
  destruct (Hpt1 j n n1 Hj Hj1) as [[-> Hst]|[Hne ->]].
  - left. split; [done|]. destruct Hcase as [->|[Hp _]]; [done|].
    rewrite Hp in Hst. by destruct Hst.
  - right. auto.
Qed.

Lemma settle_since i r x x' :
  settle i r x = inr x' ->
  since (trace (x_world x)) (trace (x_world x')) (fun _ => True).
Proof.
  intros Hs. eapply since_True, (settle_running (length (x_nodes x))); [|done].
  etrans; [apply count_status_le_length|]. unfold statuses.
  by rewrite length_map.
Qed.

(** An entry of [nodeResults] after lines 45-68 was there before, or is
    the one under the node's id. *)
Lemma settle_results i r x x' k :
  settle i r x = inr x' ->
  is_Some (x_results x' !! k) ->
  is_Some (x_results x !! k)
  \/ exists node, x_nodes x !! i = Some node /\ id node = k.
Proof.
  intros Hs Hk. destruct (x_nodes x !! i) as [node|] eqn:Hi.
  - destruct (settle_spec i r x node x' Hi Hs) as (res & _ & _ & Hres & _).
    rewrite Hres in Hk. destruct (String.eqb (id node) proto_key); [by left|].
    destruct (decide (id node = k)) as [<-|Hne]; [right; by eexists|].
    rewrite lookup_insert_ne in Hk by done. by left.
  - rewrite settle_None in Hs by done. injection Hs as <-. by left.
Qed.

Lemma settle_inv tr0 ns0 i r x x' :
  (forall n, x_nodes x !! i = Some n ->
     dispatched tr0 (trace (x_world x)) (id n)) ->
  settle i r x = inr x' ->
  results_inv tr0 ns0 x -> results_inv tr0 ns0 x'.
Proof.
  intros Hdisp Hsettle (Hs & Hids & Hok & Hun & Hrd).
  destruct (x_nodes x !! i) as [node|] eqn:Hi;
    [|rewrite settle_None in Hsettle by done; by injection Hsettle as <-].
  destruct (settle_pointwise i r x x' Hsettle) as [Hid Hpt].
  pose proof (settle_since i r x x' Hsettle) as Hs'.
  pose proof (fun k => settle_results i r x x' k Hsettle) as Hres.
  assert (length (x_nodes x) = length (x_nodes x')) as Hlen
    by (symmetry; by apply ids_length).
  split; [by eapply since_trans|]. split; [congruence|].
  split; [|split].
  - intros k Hk. apply Hres in Hk as [Hk|(node' & Hi' & <-)].
    2:{ rewrite Hi in Hi'. injection Hi' as <-.
        destruct (lookup_counterpart _ (x_nodes x') i node Hlen Hi)
          as [n' Hi'].
        exists i, n'. split; [done|]. split; [by eapply ids_lookup|].
        by destruct (Hpt i node n' Hi Hi') as [[_ ?]|[? _]]. }
    + destruct (Hok k Hk) as (j & n & Hj & Hidn & Hst).
      destruct (lookup_counterpart _ (x_nodes x') j n Hlen Hj)
        as [n' Hj'].
      exists j, n'. split; [done|].
      split; [by rewrite (ids_lookup _ _ _ _ _ Hid Hj' Hj)|].
      destruct (Hpt j n n' Hj Hj') as [[_ ?]|[_ [->|[Hp _]]]]; [done..|].
      rewrite Hp in Hst. by destruct Hst.
  - intros j n' Hj' Hst.
    destruct (lookup_counterpart _ (x_nodes x) j n' (eq_sym Hlen) Hj')
      as [n Hj].
    destruct (Hpt j n n' Hj Hj') as [[_ Hst']|[_ [->|[Hp ->]]]].
    + destruct Hst as [Hst|Hst]; rewrite Hst in Hst'; by destruct Hst'.
    + by apply (Hun j n).
    + apply (Hun j n Hj). by left.
  - intros k Hk. eapply dispatched_since; [exact Hs'|].
    apply Hres in Hk as [Hk|(node' & Hi' & <-)]; [by apply Hrd|].
    rewrite Hi in Hi'. by apply Hdisp.
Qed.

Lemma settle_all_inv tr0 ns0 batch : forall rs x o x',
  (forall i n, i ∈ batch -> x_nodes x !! i = Some n ->
     dispatched tr0 (trace (x_world x)) (id n)) ->
  settle_all batch rs x = (o, x') ->
  results_inv tr0 ns0 x -> results_inv tr0 ns0 x'.
Proof.
  induction batch as [|i batch IH]; intros [|r rs] x o x' Hdisp; cbn;
    try (by intros [= <- <-]).
  destruct (settle i r x) as [thrown|x1] eqn:Hs; [by intros [= <- <-]|].
  intros Hrest Hinv. eapply IH; [|exact Hrest|].
  - intros j n' Hin Hj'.
    destruct (settle_pointwise i r x x1 Hs) as [Hid _].
    destruct (lookup_counterpart _ (x_nodes x) j n'
                (ids_length _ _ Hid) Hj') as [n Hj].
    rewrite (ids_lookup _ _ _ _ _ Hid Hj' Hj).
    eapply dispatched_since; [by eapply settle_since|].
    apply (Hdisp j n); [by constructor|done].
  - eapply settle_inv; [|done..]. intros n. apply Hdisp. constructor.
Qed.

Lemma slice0_subseteq {A} (M : Z) (l : list A) i :
  i ∈ slice0 M l -> i ∈ l.
Proof.
  unfold slice0. intros Hin. apply elem_of_take in Hin as (j & Hj & _).
  by eapply list_elem_of_lookup_2.
Qed.

Lemma run_batch_inv tr0 ns0 M x o x' :
  results_inv tr0 ns0 x ->
  run_batch M (readyNodes (x_nodes x)) x = (o, x') ->
  results_inv tr0 ns0 x'.
Proof.
  intros (Hs & Hids & Hok & Hun & Hrd). unfold run_batch.
  set (batch := slice0 M (readyNodes (x_nodes x))).
  assert (forall i, i ∈ batch ->
            exists n, x_nodes x !! i = Some n /\ status n = pending) as Hbatch.
  { intros i Hin. by apply readyNodes_pending, (slice0_subseteq M). }
  destruct (dispatch batch x) as [promises x1] eqn:Hd.
  pose proof (dispatch_running (length batch
                + count_status running (statuses (x_nodes x))) batch
                x promises x1 Hd ltac:(lia)) as (Hlp & _).
  apply dispatch_inv in Hd as (Hres1 & Hid1 & Hpt1 & Hs1 & Hd1).
  destruct (allSettled (x_nodes x1) batch promises (x_world x1))
    as [results w2] eqn:Ha.
  apply allSettled_spec in Ha as (_ & Hs2); [|done].
  assert (length (x_nodes x) = length (x_nodes x1)) as Hlen
    by (symmetry; by apply ids_length).
  intros Hall. eapply settle_all_inv; [|exact Hall|].
  - cbn. intros i n1 Hin Hi1.
    destruct (lookup_counterpart _ (x_nodes x) i n1 (eq_sym Hlen) Hi1)
      as [n Hi].
    rewrite (ids_lookup _ _ _ _ _ Hid1 Hi1 Hi).
    eapply dispatched_since; [exact Hs2|].
    eapply dispatched_trans; [exact Hs|]. by apply (Hd1 i n).
  - split; [|split; [|split; [|split]]]; cbn.
    + eapply since_trans; [|by eapply since_True].
      by eapply since_trans.
    + congruence.
    + intros k Hk. cbn in Hk. rewrite Hres1 in Hk.
      destruct (Hok k Hk) as (j & n & Hj & Hidn & Hst).
      destruct (lookup_counterpart _ (x_nodes x1) j n Hlen Hj) as [n1 Hj1].
      exists j, n1. split; [done|].
      destruct (Hpt1 j n n1 Hj Hj1) as [->|[Hin _]]; [done|].
      destruct (Hbatch j Hin) as (m & Hm & Hp).
      rewrite Hj in Hm. injection Hm as <-. rewrite Hp in Hst. by destruct Hst.
    + intros j n1 Hj1 Hst. cbn in Hj1.
      destruct (lookup_counterpart _ (x_nodes x) j n1 (eq_sym Hlen) Hj1)
        as [n Hj].
      destruct (Hpt1 j n n1 Hj Hj1) as [->|[_ ->]]; [by apply (Hun j n)|].
      by destruct Hst.
    + intros k Hk. cbn in Hk |- *. rewrite Hres1 in Hk.
      eapply dispatched_since; [exact Hs2|].
      eapply dispatched_since; [exact Hs1|]. by apply Hrd.
Qed.

Lemma abort_inv tr0 ns0 x : results_inv tr0 ns0 x -> results_inv tr0 ns0 (abort x).
Proof.
  intros (Hs & Hids & Hok & Hun & Hrd). unfold abort.
  destruct (skip_pending_map (x_nodes x)) as (f & -> & Hf).
  split; [|split; [|split; [|split]]]; cbn.
  - apply since_app; [done|]. by repeat constructor.
  - by rewrite ids_skip_map.
  - intros k Hk. destruct (Hok k Hk) as (j & n & Hj & Hidn & Hst).
    exists j, n. split; [|done].
    cbn. rewrite lookup_map, Hj. cbn.
    destruct (Hf n) as [->|[Hp _]]; [done|].
    rewrite Hp in Hst. by destruct Hst.
  - intros j n' Hj' Hst. cbn in Hj'.
    apply skip_map_lookup in Hj' as (n & Hj & Hcase); [|done].
    destruct Hcase as [->|[Hp ->]]; [by apply (Hun j n)|].
    apply (Hun j n Hj). by left.
  - intros k Hk. apply dispatched_mono. by apply Hrd.
Qed.

Lemma execute_loop_inv tr0 ns0 M : forall fuel x ex x',
  results_inv tr0 ns0 x ->
  execute_loop M fuel x = Some (ex, x') ->
  results_inv tr0 ns0 x'.
Proof.
  induction fuel as [|fuel IH]; intros x ex x' Hinv; cbn; [done|].
  destruct (isComplete (x_nodes x)); [by intros [= <- <-]|].
  destruct (aborted (x_world x)); [intros [= <- <-]; by apply abort_inv|].
  case_bool_decide.
  { intros [= <- <-]. destruct Hinv as (Hs & Hids & Hok & Hun & Hrd).
    split; [|split; [|split; [|split]]]; cbn; try done.
    - apply since_app; [done|]. by repeat constructor.
    - intros k Hk. apply dispatched_mono. by apply Hrd. }
  destruct (run_batch _ _ _) as [o x1] eqn:Hb.
  apply run_batch_inv with (tr0 := tr0) (ns0 := ns0) in Hb; [|done].
  destruct o as [thrown|]; [by intros [= <- <-]|]. by apply IH.
Qed.

(** C9. In a graph whose node ids are pairwise distinct, a node that ends
    skipped has no entry in the [nodeResults] that [execute] returns, and
    its [result] field is what it was when [execute] was called (absent, if
    it was absent); every key of [nodeResults] is the id of a node for which
    [executeNode] was entered during the run. *)
Theorem skipped_nodes_have_no_result (fuel : nat) (g : TaskGraph)
    (w : World) res w' :
  NoDup (map id (nodes g)) ->
  execute fuel g w = Some (Fulfilled res, w') ->
  (forall i n, nodes (graph res) !! i = Some n -> status n = skipped ->
     nodeResults res !! id n = None
     /\ exists n0, nodes g !! i = Some n0 /\ result n = result n0)
  /\ (forall k, is_Some (nodeResults res !! k) ->
       dispatched (trace w) (trace w') k).
Proof.
  intros Hnd Hrun.
  apply execute_fulfilled in Hrun as (ex & x & Hloop & Hex & -> & ->). cbn.
  apply (execute_loop_inv (trace w) (nodes g)) in Hloop
    as (Hs & Hids & Hok & Hun & Hrd).
  2:{ split; [apply since_refl|]. split; [done|]. cbn.
      split; [|split]; try (intros k Hk; cbn in Hk;
        rewrite lookup_empty in Hk; by destruct Hk).
      intros i n Hi _. eauto. }
  split; [|done]. intros i n Hi Hst. split; [|apply (Hun i n Hi); by right].
  apply eq_None_not_Some. intros Hk.
  destruct (Hok _ Hk) as (j & m & Hj & Hidm & Hstm).
  assert (i = j) as ->.
  { rewrite <- Hids in Hnd. eapply NoDup_lookup; [exact Hnd|..].
    - change (map ?f ?l) with (f <$> l). by rewrite list_lookup_fmap, Hi.
    - change (map ?f ?l) with (f <$> l). rewrite list_lookup_fmap, Hj. cbn.
      by rewrite Hidm. }
  rewrite Hi in Hj. injection Hj as <-. rewrite Hst in Hstm. by destruct Hstm.
Qed.

(** *** The cache and the agent call in [executeNode] *)

Lemma filter_none {A} (P : A -> Prop) `{forall a, Decision (P a)} (l : list A) :
  Forall (fun a => ~ P a) l -> filter P l = [].
Proof.
  induction 1 as [|a l Ha _ IH]; [done|]. by rewrite filter_cons_False.
Qed.

Lemma count_events_notes p (notes : list Event) :
  Forall (fun e => is_note e = true) notes ->
  (forall e, is_note e = true -> p e = false) ->
  count_events p notes = 0%nat.
Proof.
  intros Hn Hp. induction Hn as [|e notes He _ IH]; [done|].
  by rewrite count_events_cons, IH, (Hp e He).
Qed.

Lemma cache_check_same key (w1 w2 : World) :
  env w1 = env w2 -> taskCache w1 = taskCache w2 ->
  cache_check key w1 = cache_check key w2.
Proof. unfold cache_check, cache_get. by intros -> ->. Qed.

Lemma call_onNodeStart_emit nid evs (w : World) :
  env (call_onNodeStart nid (emit evs w)) = env (call_onNodeStart nid w)
  /\ taskCache (call_onNodeStart nid (emit evs w)) = taskCache w.
Proof. unfold call_onNodeStart. by destruct (opts ≫= onNodeStart). Qed.

(** With an agent resolved, [executeNode] returns before its first
    suspension exactly when the cache check hits. *)
Lemma executeNode_start_cases i x node agent p x1 :
  x_nodes x !! i = Some node ->
  resolve_agent node = Some agent ->
  executeNode_start i x = (p, x1) ->
  env (x_world x1) = env (call_onNodeStart (id node) (x_world x))
  /\ match cache_check (taskKey (task node) (name agent))
             (call_onNodeStart (id node) (x_world x)) with
     | Some cached => p = Returned (Fulfilled (mkResult ok cached))
     | None => p = Suspended agent (taskKey (task node) (name agent))
     end.
Proof.
  intros Hi Hagent. unfold executeNode_start. rewrite Hi, Hagent.
  cbn [x_world in_world set_status].
  set (w1 := log _ _ _).
  assert (env w1 = env (call_onNodeStart (id node) (x_world x))
          /\ taskCache w1 = taskCache (call_onNodeStart (id node) (x_world x)))
    as [He Hc].
  { subst w1. cbn. unfold call_onNodeStart.
    by destruct (opts ≫= onNodeStart). }
  rewrite (cache_check_same _ w1 (call_onNodeStart (id node) (x_world x)))
    by done.
  destruct (cache_check _ (call_onNodeStart _ _));
    intros [= <- <-]; by split.
Qed.

(** C4. For a node with an agent resolved: when the cache is enabled and
    holds a fresh entry for the key when it is checked, [executeNode]
    fulfils with [ok] of that entry, and neither the rate limiter nor an
    agent is called; and whatever the outcome, [executeNode] leaves the
    cache as it was unless the result is [ok] and the cache enabled, when
    the output is stored under the key. *)
Theorem cache_hit_and_store (i : nat) (x : Exec) (node : TaskNode)
    (agent : AgentAdapter) :
  x_nodes x !! i = Some node ->
  resolve_agent node = Some agent ->
  let key := taskKey (task node) (name agent) in
  (forall cached,
     cache_enabled cfg = true ->
     cache_get (cache_ttl cfg) key (call_onNodeStart (id node) (x_world x))
       = Some cached ->
     exists x' tr,
       executeNode i x = (Fulfilled (mkResult ok cached), x')
       /\ taskCache (x_world x') = taskCache (x_world x)
       /\ env (x_world x') = env (call_onNodeStart (id node) (x_world x))
       /\ trace (x_world x') = trace (x_world x) ++ tr
       /\ count_events is_acquire tr = 0%nat
       /\ count_events is_invoke tr = 0%nat)
  /\ (forall r x',
        executeNode i x = (r, x') ->
        (taskCache (x_world x') = taskCache (x_world x)
         \/ (cache_enabled cfg = true
             /\ exists result_ t,
                  r = Fulfilled result_ /\ r_status result_ = ok
                  /\ taskCache (x_world x')
                     = <[key := mkEntry (output result_) t]>
                         (taskCache (x_world x))))
        /\ (forall result_, r = Fulfilled result_ ->
              r_status result_ = error ->
              taskCache (x_world x') = taskCache (x_world x))
        /\ (forall reason, r = Rejected reason ->
              taskCache (x_world x') = taskCache (x_world x))).
Proof.
  intros Hi Hagent key.
  assert (forall r x', executeNode i x = (r, x') ->
            taskCache (x_world x') = taskCache (x_world x)
            \/ (cache_enabled cfg = true
                /\ exists result_ t,
                     r = Fulfilled result_ /\ r_status result_ = ok
                     /\ taskCache (x_world x')
                        = <[key := mkEntry (output result_) t]>
                            (taskCache (x_world x)))) as Hstore.
  { intros r x'. unfold executeNode.
    destruct (executeNode_start i x) as [p x1] eqn:Hstart.
    pose proof (executeNode_start_cases _ _ _ _ _ _ Hi Hagent Hstart)
      as [_ Hp].
    apply executeNode_start_spec in Hstart as (_ & _ & Hc1 & _).
    destruct (cache_check _ (call_onNodeStart _ _)); subst p;
      [intros [= <- <-]; by left|].
    destruct (x_nodes x1 !! i) as [node1|]; [|intros [= <- <-]; by left].
    unfold executeNode_resume.
    set (w1 := if rateLimit_enabled cfg then _ else _).
    assert (taskCache w1 = taskCache (x_world x)) as Hcw1
      by (subst w1; by destruct (rateLimit_enabled cfg)).
    destruct (invoke_agent agent node1 w1) as [r2 w2] eqn:Hrun.
    apply invoke_agent_spec in Hrun as (_ & _ & _ & _ & Hc2 & _).
    destruct r2 as [result_|reason]; intros [= <- <-]; cbn;
      [|left; congruence].
    destruct (cache_enabled cfg) eqn:Hen; cbn; [|left; congruence].
    case_bool_decide; [|left; congruence].
    right. split; [done|]. exists result_, (Date_now (env w2)).
    unfold cache_set. cbn. rewrite Hc2, Hcw1. done. }
  split; [|intros r x' Hrun; split; [by apply Hstore|split]].
  - intros cached Hen Hget. unfold executeNode.
    destruct (executeNode_start i x) as [p x1] eqn:Hstart.
    pose proof (executeNode_start_cases _ _ _ _ _ _ Hi Hagent Hstart)
      as [He Hp].
    unfold cache_check in Hp. fold key in Hp. rewrite Hen, Hget in Hp. subst p.
    apply executeNode_start_spec in Hstart
      as (_ & _ & Hc1 & notes & Hnotes & Htr).
    rewrite Hi in Htr. eexists x1, _. repeat split; [done..|exact Htr| |].
    + rewrite !count_events_cons. cbn. apply count_events_notes; [done|].
      by intros [].
    + rewrite !count_events_cons. cbn. apply count_events_notes; [done|].
      by intros [].
  - intros result_ -> Herr.
    destruct (Hstore _ _ Hrun) as [?|(_ & res & t & [= <-] & Hok & _)];
      [done|congruence].
  - intros reason ->.
    by destruct (Hstore _ _ Hrun) as [?|(_ & res & t & ? & _)].
Qed.

(** The events of a whole [executeNode] that reaches the agent: its entry
    and the status write, the notes, the rate limiter when it is enabled, and
    the calls of the agent. *)
Lemma executeNode_reaches_agent i x node agent r x' :
  x_nodes x !! i = Some node ->
  resolve_agent node = Some agent ->
  cache_check (taskKey (task node) (name agent))
    (call_onNodeStart (id node) (x_world x)) = None ->
  executeNode i x = (r, x') ->
  exists notes errs e_last,
    trace (x_world x')
    = trace (x_world x)
      ++ EvExecuteNode (id node)
         :: EvStatuses (statuses (alter (with_status running) i (x_nodes x)))
         :: notes
      ++ (if rateLimit_enabled cfg then [EvAcquire (name agent)] else [])
      ++ failed_attempts (name agent) (id node)
           (cfg_baseDelayMs (retry cfg)) (cfg_maxDelayMs (retry cfg)) 1 errs
      ++ [EvInvoke (name agent) (id node); settle_event r]
    /\ Forall (fun e => is_note e = true) notes
    /\ Z.of_nat (length errs) <= Z.max 0 (default 0 (config node ≫= retries))
    /\ retried (execute_ agent (with_status running node))
         (cfg_baseDelayMs (retry cfg)) (cfg_maxDelayMs (retry cfg)) 1 errs
         (after_acquire (name agent)
            (after_onNodeStart (id node) (env (x_world x))))
         e_last
    /\ execute_ agent (with_status running node) e_last = (r, env (x_world x'))
    /\ (forall reason, r = Rejected reason ->
          Z.of_nat (length errs) = Z.max 0 (default 0 (config node ≫= retries))).
Proof.
  intros Hi Hagent Hmiss. unfold executeNode.
  destruct (executeNode_start i x) as [p x1] eqn:Hstart.
  pose proof (executeNode_start_cases _ _ _ _ _ _ Hi Hagent Hstart) as [He1 Hp].
  rewrite Hmiss in Hp. subst p.
  assert (env (x_world x1) = after_onNodeStart (id node) (env (x_world x)))
    as He1'.
  { rewrite He1. unfold call_onNodeStart, after_onNodeStart.
    by destruct (opts ≫= onNodeStart). }
  apply executeNode_start_spec in Hstart as (Hns & _ & _ & notes & Hnotes & Htr).
  rewrite Hi in Htr. rewrite Hns, list_lookup_alter_eq, Hi. cbn [fmap option_fmap option_map].
  unfold executeNode_resume.
  set (w1 := if rateLimit_enabled cfg then _ else _).
  assert (trace w1 = trace (x_world x1)
            ++ (if rateLimit_enabled cfg then [EvAcquire (name agent)] else []))
    as Htr1.
  { subst w1. destruct (rateLimit_enabled cfg); [done|by rewrite app_nil_r]. }
  assert (env w1 = after_acquire (name agent)
                     (after_onNodeStart (id node) (env (x_world x)))) as He2.
  { subst w1. unfold after_acquire. rewrite <- He1'.
    by destruct (rateLimit_enabled cfg). }
  destruct (invoke_agent agent (with_status running node) w1) as [r2 w2] eqn:Hrun.
  apply invoke_agent_spec in Hrun
    as (errs & e_last & Htr2 & Hlast & _ & Hle & _ & Hch & Hrej).
  rewrite He2 in Hch.
  cbn [id config with_status] in Htr2, Hle, Hrej.
  assert (trace w2
          = trace (x_world x)
            ++ EvExecuteNode (id node)
               :: EvStatuses (statuses (alter (with_status running) i (x_nodes x)))
               :: notes
            ++ (if rateLimit_enabled cfg then [EvAcquire (name agent)] else [])
            ++ failed_attempts (name agent) (id node)
                 (cfg_baseDelayMs (retry cfg)) (cfg_maxDelayMs (retry cfg)) 1 errs
            ++ [EvInvoke (name agent) (id node); settle_event r2]) as Htr3.
  { rewrite Htr2, Htr1, Htr, Hns, <- !app_assoc. by cbn. }
  destruct r2 as [result_|reason]; intros [= <- <-]; exists notes, errs, e_last;
    cbn [x_world]; [|done].
  destruct (cache_enabled cfg && bool_decide (r_status result_ = ok)); by cbn.
Qed.

(** C5. For a node whose [executeNode] reaches the agent (an agent is
    resolved and the cache check misses). The agent is called on the
    environment that [onNodeStart] and the rate limiter leave, once or more:
    every call but the last rejects and is followed by the wait of
    [withRetry], with the delays of the configuration. Without a retry count,
    or with a count of zero, there is exactly one call and no wait, with no
    retry wrapping, whatever the call settles with. With [retries = N > 0]
    the call is wrapped in [withRetry] with [maxAttempts = N + 1]: there are
    at most [N + 1] calls, and [executeNode] rejects only when [N + 1] calls
    have rejected. *)
Theorem retries_wrap_agent_call (i : nat) (x : Exec) (node : TaskNode)
    (agent : AgentAdapter) r x' :
  x_nodes x !! i = Some node ->
  resolve_agent node = Some agent ->
  cache_check (taskKey (task node) (name agent))
    (call_onNodeStart (id node) (x_world x)) = None ->
  executeNode i x = (r, x') ->
  let node' := with_status running node in
  exists tr errs e_last,
    trace (x_world x') = trace (x_world x) ++ tr
    /\ count_events is_invoke tr = S (length errs)
    /\ filter (fun e => is_sleep e = true) tr
       = map EvSleep (waits (cfg_baseDelayMs (retry cfg))
                        (cfg_maxDelayMs (retry cfg)) (S (length errs)))
    /\ retried (execute_ agent node')
         (cfg_baseDelayMs (retry cfg)) (cfg_maxDelayMs (retry cfg)) 1 errs
         (after_acquire (name agent)
            (after_onNodeStart (id node) (env (x_world x))))
         e_last
    /\ execute_ agent node' e_last = (r, env (x_world x'))
    /\ (config node ≫= retries = None \/ config node ≫= retries = Some 0 ->
        errs = []
        /\ forall w, invoke_agent agent node' w = run agent node' w)
    /\ (forall N, config node ≫= retries = Some N -> 0 < N ->
        let ropts := Some (mkRetryOptions (Some (N + 1)) None None) in
        Z.of_nat (S (length errs)) <= N + 1
        /\ (forall reason, r = Rejected reason ->
              Z.of_nat (S (length errs)) = N + 1)
        /\ retry_maxAttempts (retry cfg) ropts = N + 1
        /\ forall w, invoke_agent agent node' w
                     = withRetry (retry cfg) (run agent node') ropts w).
Proof.
  intros Hi Hagent Hmiss Hrun node'.
  destruct (executeNode_reaches_agent _ _ _ _ _ _ Hi Hagent Hmiss Hrun)
    as (notes & errs & e_last & Htr & Hnotes & Hle & Hch & Hlast & Hrej).
  eexists _, errs, e_last. split; [exact Htr|].
  assert (count_events is_invoke
            (EvExecuteNode (id node)
             :: EvStatuses (statuses (alter (with_status running) i (x_nodes x)))
             :: notes
             ++ (if rateLimit_enabled cfg then [EvAcquire (name agent)] else [])
             ++ failed_attempts (name agent) (id node)
                  (cfg_baseDelayMs (retry cfg)) (cfg_maxDelayMs (retry cfg)) 1 errs
             ++ [EvInvoke (name agent) (id node); settle_event r])
          = S (length errs)) as Hcount.
  { rewrite !count_events_cons, !count_events_app, failed_attempts_invokes,
      !count_events_cons.
    rewrite (count_events_notes is_invoke notes Hnotes) by (by intros []).
    destruct (rateLimit_enabled cfg); rewrite ?count_events_cons;
      destruct r; cbn [is_invoke settle_event];
      change (count_events is_invoke []) with 0%nat; lia. }
  split; [exact Hcount|]. split.
  { change (?a :: ?b :: ?l) with ([a; b] ++ l).
    rewrite !filter_app, failed_attempts_waits.
    rewrite (filter_none _ notes).
    - destruct (rateLimit_enabled cfg), r; cbn; by rewrite ?app_nil_r.
    - eapply Forall_impl; [exact Hnotes|]. by intros []. }
  split; [exact Hch|]. split; [exact Hlast|]. split.
  - intros Hn. split.
    + assert (default 0 (config node ≫= retries) = 0) as H0
        by (by destruct Hn as [-> | ->]).
      rewrite H0 in Hle. destruct errs; [done|cbn in Hle; lia].
    + intros w. unfold invoke_agent. subst node'. cbn [config with_status].
      by destruct Hn as [-> | ->].
  - intros N HN Hpos ropts. rewrite HN in Hle, Hrej. cbn in Hle, Hrej.
    split; [lia|]. split; [intros reason Hr; specialize (Hrej reason Hr); lia|].
    split; [done|].
    intros w. unfold invoke_agent. subst node'. cbn [config with_status].
    rewrite HN. cbn. by destruct (Z.ltb_spec 0 N); [|lia].
Qed.

(** ** The planner *)

Local Open Scope string_scope.
Local Arguments String.append !_ _ / : simpl nomatch.

Lemma str_app_assoc (a b c : string) : (a ++ b) ++ c = a ++ (b ++ c).
Proof. induction a as [|x a IH]; cbn; [done|]. by f_equal. Qed.

Lemma str_app_nil_r (a : string) : a ++ "" = a.
Proof. induction a as [|x a IH]; cbn; [done|]. by f_equal. Qed.

Lemma last_char_app prev (m1 m2 : string) :
  last_char prev (m1 ++ m2) = last_char (last_char prev m1) m2.
Proof. revert prev. induction m1 as [|c m1 IH]; intros prev; cbn; [done|]. apply IH. Qed.

Lemma all_space_app (a b : string) :
  all_space (a ++ b) = all_space a && all_space b.
Proof.
  induction a as [|c a IH]; cbn; [done|]. rewrite IH. by rewrite andb_assoc.
Qed.

Lemma match_lit_spec lit : forall prev s p t,
  match_lit lit prev s = Some (p, t) -> s = lit ++ t /\ p = last_char prev lit.
Proof.
  induction lit as [|c lit IH]; intros prev s p t; cbn.
  - by intros [= <- <-].
  - destruct s as [|d s]; [done|]. destruct (Ascii.eqb_spec c d) as [->|]; [|done].
    intros Hm. apply IH in Hm as [-> ->]. done.
Qed.

Lemma star_space_spec s : forall prev k out,
  star_space prev s k = Some out ->
  exists ws t, s = ws ++ t /\ all_space ws = true
    /\ k (last_char prev ws) t = Some out.
Proof.
  induction s as [|c s IH]; intros prev k out; cbn.
  - intros Hk. by exists "", "".
  - destruct (is_space c) eqn:Hc; [|intros Hk; by exists "", (String c s)].
    destruct (star_space (Some c) s k) as [out'|] eqn:Hrec.
    + intros [= <-]. apply IH in Hrec as (ws & t & -> & Hws & Hk).
      exists (String c ws), t. cbn. by rewrite Hc, Hws.
    + intros Hk. by exists "", (String c s).
Qed.

(** The matcher finds only matches. *)
Lemma re_match_sound r : forall prev s k out,
  re_match r prev s k = Some out ->
  exists m t, s = m ++ t /\ Matches r prev m t
    /\ k (last_char prev m) t = Some out.
Proof.
  induction r as [| |lit|r1 IH1| |r1 IH1 r2 IH2]; intros prev s k out; cbn.
  - destruct prev as [c|]; [destruct (is_line_terminator c) eqn:Hc; [|done]|];
      intros Hk; exists "", s; cbn; by rewrite ?Hc.
  - destruct s as [|c s]; [|destruct (is_line_terminator c) eqn:Hc; [|done]];
      intros Hk; [exists "", ""|exists "", (String c s)]; cbn; by rewrite ?Hc.
  - destruct (match_lit lit prev s) as [[p t]|] eqn:Hm; [|done].
    apply match_lit_spec in Hm as [-> ->]. intros Hk. by exists lit, t.
  - destruct (re_match r1 prev s k) as [out'|] eqn:Hrec.
    + intros [= <-]. apply IH1 in Hrec as (m & t & -> & Hm & Hk).
      exists m, t. auto.
    + intros Hk. exists "", s. auto.
  - intros Hs. apply star_space_spec in Hs as (ws & t & -> & Hws & Hk).
    by exists ws, t.
  - intros Hs. apply IH1 in Hs as (m1 & t1 & -> & Hm1 & Hs).
    apply IH2 in Hs as (m2 & t & -> & Hm2 & Hk).
    exists (m1 ++ m2), t. rewrite str_app_assoc, last_char_app.
    split; [done|]. split; [|done]. by exists m1, m2.
Qed.

Lemma remove_first_from_sound r s : forall prev out,
  remove_first_from r prev s = Some out ->
  exists pre m post, s = pre ++ m ++ post /\ out = pre ++ post
    /\ Matches r (last_char prev pre) m post.
Proof.
  induction s as [|c s IH]; intros prev out; cbn.
  - destruct (re_match r prev "" _) as [rest|] eqn:Hm; [|done].
    intros [= <-]. apply re_match_sound in Hm as (m & t & Hs & Hm & [= <-]).
    by exists "", m, t.
  - destruct (re_match r prev (String c s) _) as [rest|] eqn:Hm.
    + intros [= <-]. apply re_match_sound in Hm as (m & t & Hs & Hm & [= <-]).
      by exists "", m, t.
    + destruct (remove_first_from r (Some c) s) as [out'|] eqn:Hrec; [|done].
      intros [= <-]. apply IH in Hrec as (pre & m & post & -> & -> & Hm').
      by exists (String c pre), m, post.
Qed.

Lemma match_lit_complete lit : forall prev t,
  match_lit lit prev (lit ++ t) = Some (last_char prev lit, t).
Proof.
  induction lit as [|c lit IH]; intros prev t; cbn; [done|].
  by rewrite Ascii.eqb_refl, IH.
Qed.

Lemma star_space_complete ws : forall prev t k,
  all_space ws = true -> is_Some (k (last_char prev ws) t) ->
  is_Some (star_space prev (ws ++ t) k).
Proof.
  induction ws as [|c ws IH]; intros prev t k Hws Hk; cbn in *.
  - destruct t as [|d t]; cbn; [done|]. destruct (is_space d); [|done].
    by destruct (star_space (Some d) t k).
  - apply andb_true_iff in Hws as [Hc Hws]. rewrite Hc.
    specialize (IH (Some c) t k Hws Hk).
    by destruct (star_space (Some c) (ws ++ t) k); [|destruct IH].
Qed.

(** The matcher finds a match wherever there is one. *)
Lemma re_match_complete r : forall prev m t k,
  Matches r prev m t -> is_Some (k (last_char prev m) t) ->
  is_Some (re_match r prev (m ++ t) k).
Proof.
  induction r as [| |lit|r1 IH1| |r1 IH1 r2 IH2]; intros prev m t k; cbn.
  - intros [-> Hl] Hk. cbn in *. destruct prev as [c|]; [|done].
    cbn in Hl. by rewrite Hl.
  - intros [-> He] Hk. cbn in *. destruct t as [|c t]; [done|].
    cbn in He. by rewrite He.
  - intros -> Hk. by rewrite match_lit_complete.
  - intros Hm Hk.
    destruct (re_match r1 prev (m ++ t) k) as [out|] eqn:Hr; [done|].
    destruct Hm as [->|Hm]; [done|].
    specialize (IH1 prev m t k Hm Hk). rewrite Hr in IH1. by destruct IH1.
  - intros Hws Hk. by apply star_space_complete.
  - intros (m1 & m2 & -> & Hm1 & Hm2) Hk. rewrite str_app_assoc.
    apply IH1; [done|]. apply IH2; [done|]. by rewrite <- last_char_app.
Qed.

(** No match from [s] on, after the character [prev]. *)
Lemma remove_first_from_None r s : forall prev,
  remove_first_from r prev s = None ->
  forall pre1 pre2 m t,
    s = pre1 ++ pre2 -> pre2 = m ++ t -> ~ Matches r (last_char prev pre1) m t.
Proof.
  induction s as [|c s IH]; intros prev; cbn.
  - destruct (re_match r prev "" _) as [rest|] eqn:Hr; [done|].
    intros _ [|c1 pre1] pre2 m t; cbn; [|done]. intros <- Heq Hm.
    pose proof (re_match_complete r prev m t (fun _ rest => Some rest) Hm
                  ltac:(done)) as Hs.
    rewrite <- Heq, Hr in Hs. by destruct Hs.
  - destruct (re_match r prev (String c s) _) as [rest|] eqn:Hr; [done|].
    destruct (remove_first_from r (Some c) s) as [out|] eqn:Hrec; [done|].
    intros _ [|c1 pre1] pre2 m t; cbn.
    + intros <- Heq Hm.
      pose proof (re_match_complete r prev m t (fun _ rest => Some rest) Hm
                    ltac:(done)) as Hs.
      rewrite <- Heq, Hr in Hs. by destruct Hs.
    + intros [= <- ->]. by apply (IH (Some c) Hrec).
Qed.

(** The match that is removed is the leftmost: no match starts before it. *)
Lemma remove_first_from_leftmost r s : forall prev out,
  remove_first_from r prev s = Some out ->
  exists pre m post, s = pre ++ m ++ post /\ out = pre ++ post
    /\ Matches r (last_char prev pre) m post
    /\ re_match r (last_char prev pre) (m ++ post) (fun _ rest => Some rest)
       = Some post
    /\ forall pre1 pre2 m' t',
         pre = pre1 ++ pre2 -> pre2 <> "" -> pre2 ++ m ++ post = m' ++ t' ->
         ~ Matches r (last_char prev pre1) m' t'.
Proof.
  induction s as [|c s IH]; intros prev out; cbn.
  - destruct (re_match r prev "" _) as [rest|] eqn:Hm; [|done].
    intros [= <-].
    destruct (re_match_sound _ _ _ _ _ Hm) as (m & t & Hs & Hm' & [= <-]).
    exists "", m, t. rewrite <- Hs. repeat split; try done.
    intros [|c1 pre1] pre2 m' t'; cbn; [|done]. by intros <-.
  - destruct (re_match r prev (String c s) _) as [rest|] eqn:Hm.
    + intros [= <-].
      destruct (re_match_sound _ _ _ _ _ Hm) as (m & t & Hs & Hm' & [= <-]).
      exists "", m, t. rewrite <- Hs. repeat split; try done.
      intros [|c1 pre1] pre2 m' t'; cbn; [|done]. by intros <-.
    + destruct (remove_first_from r (Some c) s) as [out'|] eqn:Hrec; [|done].
      intros [= <-].
      apply IH in Hrec as (pre & m & post & -> & -> & Hm' & Hre & Hleft).
      exists (String c pre), m, post. repeat split; try done.
      intros [|c1 pre1] pre2 m' t'; cbn.
      * intros <- _ Heq Hmatch. cbn in Heq.
        pose proof (re_match_complete r prev m' t' (fun _ rest => Some rest)
                      Hmatch ltac:(done)) as Hs.
        rewrite <- Heq, Hm in Hs. by destruct Hs.
      * intros [= <- ->]. apply Hleft. done.
Qed.

Lemma remove_first_cases r s :
  exists pre m post,
    s = pre ++ m ++ post /\ remove_first r s = pre ++ post
    /\ (m = ""
        \/ (Matches r (last_char None pre) m post
            /\ re_match r (last_char None pre) (m ++ post)
                 (fun _ rest => Some rest) = Some post))
    /\ forall pre1 pre2 m' t',
         pre = pre1 ++ pre2 -> pre2 <> "" -> pre2 ++ m ++ post = m' ++ t' ->
         ~ Matches r (last_char None pre1) m' t'.
Proof.
  unfold remove_first.
  destruct (remove_first_from r None s) as [out|] eqn:Hr.
  - apply remove_first_from_leftmost in Hr
      as (pre & m & post & -> & -> & Hm & Hre & Hleft).
    exists pre, m, post. repeat split; [by right|done].
  - exists s, "", "". cbn. rewrite str_app_nil_r. repeat split; [by left|].
    intros pre1 pre2 m' t' Hs _ Heq. rewrite str_app_nil_r in Heq.
    by apply (remove_first_from_None r s None Hr pre1 pre2).
Qed.

Lemma prefix_app (a b : string) :
  String.prefix a b = true -> exists t, b = a ++ t.
Proof.
  revert b. induction a as [|c a IH]; intros b; [by exists b|].
  destruct b as [|d b]; [done|]. simpl.
  destruct (Ascii.ascii_dec c d) as [->|]; [|done].
  intros Hp. apply IH in Hp as [t ->]. by exists t.
Qed.

(** A match of the opening pattern: three backquotes at the start of a line,
    [json] or nothing, and whitespace. *)
Lemma opening_fence_shape prev m post :
  Matches opening_fence prev m post ->
  begins_line prev = true
  /\ exists tag ws, m = "```" ++ tag ++ ws
       /\ (tag = "" \/ tag = "json") /\ all_space ws = true.
Proof.
  cbn. intros (m1 & m2 & -> & [-> Hl] & m3 & m4 & -> & -> & m5 & m6 & -> & Htag
               & m7 & m8 & -> & Hws & Hnl).
  split; [done|].
  exists m5, (m7 ++ m8). split; [done|]. split.
  - by destruct Htag as [-> | ->]; [left|right].
  - rewrite all_space_app, Hws. by destruct Hnl as [-> | ->].
Qed.

(** A match of the closing pattern: a line feed or nothing, three
    backquotes, and whitespace up to the end of a line. *)
Lemma closing_fence_shape prev m post :
  Matches closing_fence prev m post ->
  ends_line post = true
  /\ exists lead ws, m = lead ++ "```" ++ ws
       /\ (lead = "" \/ lead = nl) /\ all_space ws = true.
Proof.
  cbn. intros (m1 & m2 & -> & Hlead & m3 & m4 & -> & -> & m5 & m6 & -> & Hws
               & -> & He).
  split; [done|].
  exists m1, m5. rewrite str_app_nil_r. split; [done|]. split; [|done].
  by destruct Hlead as [-> | ->]; [left|right].
Qed.

Lemma opening_fence_at prev t :
  begins_line prev = true -> Matches opening_fence prev "```" t.
Proof.
  intros Hl. cbn. exists "", "```". repeat split; [done|].
  exists "```", "". repeat split. exists "", "". repeat split; [by left|].
  exists "", "". repeat split. by left.
Qed.

Lemma closing_fence_at prev ws t :
  all_space ws = true -> ends_line t = true ->
  Matches closing_fence prev ("```" ++ ws) t.
Proof.
  intros Hws He. cbn. exists "", ("```" ++ ws). repeat split; [by left|].
  exists "```", ws. repeat split. exists ws, "".
  by rewrite str_app_nil_r.
Qed.

Lemma trim_start_head s :
  match trim_start s with String c _ => is_space c = false | "" => True end.
Proof.
  induction s as [|c s IH]; cbn; [done|].
  by destruct (is_space c) eqn:Hc.
Qed.

Lemma trim_end_last s :
  match last_char None (trim_end s) with
  | Some c => is_space c = false
  | None => True
  end.
Proof.
  induction s as [|c s IH]; cbn; [done|].
  destruct (trim_end s) as [|d t]; [by destruct (is_space c) eqn:Hc|done].
Qed.

Lemma trim_end_head c s :
  is_space c = false -> exists t, trim_end (String c s) = String c t.
Proof.
  intros Hc. cbn. destruct (trim_end s); [rewrite Hc|]; by eexists.
Qed.

(** The whitespace of the opening pattern is all there is: the input left
    after a match does not begin with whitespace. *)
Lemma opening_fence_greedy prev s post :
  re_match opening_fence prev s (fun _ rest => Some rest) = Some post ->
  match post with String c _ => is_space c = false | "" => True end.
Proof.
  assert (forall t p,
            star_space p t (fun p' s' =>
              re_match (ReOpt (ReLit nl)) p' s' (fun _ rest => Some rest))
            = Some (trim_start t)) as Hstar.
  { induction t as [|c t IH]; intros p; [done|].
    cbn [star_space trim_start].
    destruct (is_space c) eqn:Hc; [by rewrite IH|].
    cbn [re_match]. unfold nl. cbn [match_lit].
    destruct (Ascii.eqb_spec "010"%char c) as [<-|_]; [|done].
    by vm_compute in Hc. }
  intros Hm.
  assert (re_match
            (ReSeq (ReLit "```")
               (ReSeq (ReOpt (ReLit "json"))
                  (ReSeq ReStarSpace (ReOpt (ReLit nl)))))
            prev s (fun _ rest => Some rest) = Some post) as HR.
  { unfold opening_fence in Hm. cbn [re_match] in Hm.
    destruct prev as [c|]; [destruct (is_line_terminator c); [|done]|];
      exact Hm. }
  cbn [re_match] in HR, Hstar.
  destruct (match_lit "```" prev s) as [[p1 s1]|]; [|done].
  destruct (match_lit "json" p1 s1) as [[p2 s2]|];
    rewrite Hstar in HR; injection HR as <-; apply trim_start_head.
Qed.

(** The whitespace of a match that is ended by [k] is the longest there is:
    no longer run of whitespace is accepted by [k]. *)
Lemma star_space_longest s : forall prev k out,
  star_space prev s k = Some out ->
  exists ws t, s = ws ++ t /\ all_space ws = true
    /\ k (last_char prev ws) t = Some out
    /\ forall ws2 t2, t = ws2 ++ t2 -> ws2 <> "" -> all_space ws2 = true ->
         k (last_char prev (ws ++ ws2)) t2 = None.
Proof.
  induction s as [|c s IH]; intros prev k out; cbn.
  - intros Hk. exists "", "". repeat split; try done.
    by intros [|c2 ws2] t2.
  - destruct (is_space c) eqn:Hc.
    + destruct (star_space (Some c) s k) as [out'|] eqn:Hrec.
      * intros [= <-]. apply IH in Hrec as (ws & t & -> & Hws & Hk & Hlong).
        exists (String c ws), t. cbn. rewrite Hc, Hws. by repeat split.
      * intros Hk. exists "", (String c s). repeat split; try done.
        intros [|c2 ws2] t2; [done|]. cbn. intros [= <- ->] _ Hws.
        apply andb_true_iff in Hws as [_ Hws].
        destruct (k (last_char (Some c) ws2) t2) as [o|] eqn:Hk2; [|done].
        pose proof (star_space_complete ws2 (Some c) t2 k Hws
                      ltac:(by rewrite Hk2)) as Hs.
        rewrite Hrec in Hs. by destruct Hs.
    + intros Hk. exists "", (String c s). repeat split; try done.
      intros [|c2 ws2] t2; [done|]. cbn. intros [= <- ->] _ Hws.
      by rewrite Hc in Hws.
Qed.

(** After a match of the closing pattern, no further whitespace leads to
    the end of a line. *)
Lemma closing_fence_greedy prev s post :
  re_match closing_fence prev s (fun _ rest => Some rest) = Some post ->
  forall ws2 t2, post = ws2 ++ t2 -> ws2 <> "" -> all_space ws2 = true ->
    ends_line t2 = false.
Proof.
  assert (forall p t,
            star_space p t (fun p' s' =>
              re_match ReLineEnd p' s' (fun _ rest => Some rest)) = Some post ->
            forall ws2 t2, post = ws2 ++ t2 -> ws2 <> "" ->
              all_space ws2 = true -> ends_line t2 = false) as Hstar.
  { intros p t Hs ws2 t2 Hpost Hne Hws.
    apply star_space_longest in Hs as (ws & t' & -> & _ & Hk & Hlong).
    assert (t' = post) as ->.
    { cbn in Hk. destruct t' as [|c t']; [by injection Hk|].
      destruct (is_line_terminator c); [by injection Hk|done]. }
    specialize (Hlong ws2 t2 Hpost Hne Hws). cbn in Hlong.
    destruct t2 as [|c t2]; [done|]. cbn.
    by destruct (is_line_terminator c). }
  intros Hm. unfold closing_fence in Hm. cbn [re_match] in Hm, Hstar.
  repeat match type of Hm with
  | context [match_lit ?l ?p ?t] => destruct (match_lit l p t) as [[? ?]|]
  | context [star_space ?p ?t ?k] =>
      let E := fresh "Hs" in destruct (star_space p t k) eqn:E
  end; try discriminate; injection Hm as ->; eapply Hstar; eassumption.
Qed.

Lemma trim_head s :
  match trim s with String c _ => is_space c = false | "" => True end.
Proof.
  unfold trim. pose proof (trim_start_head s) as Hh.
  destruct (trim_start s) as [|c t]; [done|].
  by destruct (trim_end_head c t Hh) as [t' ->].
Qed.

Lemma trim_start_spec s :
  exists l, s = l ++ trim_start s /\ all_space l = true.
Proof.
  induction s as [|c s (l & Hs & Hl)]; cbn; [by exists ""|].
  destruct (is_space c) eqn:Hc; [|by exists ""].
  exists (String c l). cbn. by rewrite Hc, Hl, <- Hs.
Qed.

Lemma trim_end_spec s :
  exists r, s = trim_end s ++ r /\ all_space r = true.
Proof.
  induction s as [|c s (r & Hs & Hr)]; cbn; [by exists ""|].
  destruct (trim_end s) as [|d t] eqn:Ht.
  - destruct (is_space c) eqn:Hc.
    + exists (String c r). cbn in *. by rewrite Hc, Hr, <- Hs.
    + exists r. cbn in *. split; [by f_equal|done].
  - exists r. cbn in *. split; [by f_equal|done].
Qed.

Lemma slice_to_spec n : forall s,
  (String.length (slice_to n s) <= n)%nat
  /\ exists rest, s = slice_to n s ++ rest.
Proof.
  induction n as [|n IH]; intros [|c s]; cbn;
    try (split; [lia|by eexists]).
  destruct (IH s) as [Hlen [rest Hs]]. split; [lia|].
  exists rest. by rewrite <- Hs.
Qed.

(** *** The schema and the shape *)

Lemma z_nonempty_string_Some v s :
  z_minLength 1 z_string v = Some s <-> v = Some (JString s) /\ s <> "".
Proof.
  unfold z_minLength, z_string.
  destruct v as [[]|]; cbn; try (split; [done|by intros [? _]]).
  destruct s0 as [|c s0]; cbn.
  - split; [done|]. by intros [[= <-] ?].
  - split; [by intros [= <-]|]. by intros [[= <-] _].
Qed.

Lemma z_nonempty_string_is_Some v :
  is_Some (z_minLength 1 z_string v)
  <-> exists s, v = Some (JString s) /\ s <> "".
Proof.
  split.
  - intros [s Hs]. exists s. by apply z_nonempty_string_Some.
  - intros (s & Hs). exists s. by apply z_nonempty_string_Some.
Qed.

Lemma z_strings_is_Some (l : list Json) :
  is_Some (mapM (fun j => z_string (Some j)) l) <-> Forall is_string_value l.
Proof.
  rewrite mapM_is_Some. apply Forall_proper; [|done]. intros j. cbn.
  unfold is_string_value. split.
  - intros [s Hs]. destruct j; try done. by eexists.
  - intros [s ->]. by eexists.
Qed.

Lemma z_dependsOn_is_Some v :
  is_Some (z_default [] (z_array z_string) v)
  <-> v = None
     \/ exists l, v = Some (JArray l) /\ Forall is_string_value l.
Proof.
  unfold z_default, z_array. destruct v as [j|]; [|split; [by left|by eexists]].
  split.
  - intros Hs. right. destruct j; try by destruct Hs.
    exists items. split; [done|]. by apply z_strings_is_Some.
  - intros [?|(l & [= ->] & Hl)]; [done|]. by apply z_strings_is_Some.
Qed.

Lemma z_optional_string_is_Some v :
  is_Some (z_optional z_string v)
  <-> v = None \/ exists s, v = Some (JString s).
Proof.
  unfold z_optional, z_string. destruct v as [j|]; [|split; [by left|by eexists]].
  split.
  - intros Hs. right. destruct j; try by destruct Hs. by eexists.
  - intros [?|(s & [= ->])]; [done|]. by eexists.
Qed.

(** [PlannerNodeSchema] accepts exactly the nodes of the stated shape. *)
Lemma PlannerNodeSchema_conforms j :
  is_Some (PlannerNodeSchema (Some j)) <-> node_conforms j.
Proof.
  unfold node_conforms.
  destruct j as [| | | |items|o];
    try (split; [by intros [? ?]|by intros (? & ? & _)]).
  cbn. split.
  - intros [n Hn]. exists o. split; [done|].
    destruct (z_minLength 1 z_string (o !! "id")) eqn:H1; [|done].
    destruct (z_minLength 1 z_string (o !! "task")) eqn:H2; [|done].
    destruct (z_default [] (z_array z_string) (o !! "dependsOn")) eqn:H3;
      [|done].
    destruct (z_optional z_string (o !! "assignTo")) eqn:H4; [|done].
    split; [apply z_nonempty_string_is_Some; by eexists|].
    split; [apply z_nonempty_string_is_Some; by eexists|].
    split; [apply z_dependsOn_is_Some; by eexists|].
    apply z_optional_string_is_Some; by eexists.
  - intros (o' & [= <-] & Hid & Htask & Hdep & Has).
    apply z_nonempty_string_is_Some in Hid as [x1 ->].
    apply z_nonempty_string_is_Some in Htask as [x2 ->].
    apply z_dependsOn_is_Some in Hdep as [x3 ->].
    apply z_optional_string_is_Some in Has as [x4 ->]. by eexists.
Qed.

Lemma PlannerNodeSchema_defaults o n :
  PlannerNodeSchema (Some (JObject o)) = Some n ->
  (o !! "dependsOn" = None -> pn_dependsOn n = [])
  /\ (o !! "assignTo" = None -> pn_assignTo n = None).
Proof.
  cbn.
  destruct (z_minLength 1 z_string (o !! "id")); [|done].
  destruct (z_minLength 1 z_string (o !! "task")); [|done]. cbn.
  destruct (z_default [] (z_array z_string) (o !! "dependsOn")) eqn:Hd;
    [|done].
  destruct (z_optional z_string (o !! "assignTo")) eqn:Ha; [|done].
  intros [= <-]. cbn. split; intros Hnone.
  - rewrite Hnone in Hd. by injection Hd.
  - rewrite Hnone in Ha. by injection Ha.
Qed.

(** [PlannerResponseSchema] accepts exactly the responses of the stated
    shape. *)
Lemma PlannerResponseSchema_conforms j :
  is_Some (PlannerResponseSchema (Some j)) <-> response_conforms j.
Proof.
  unfold response_conforms.
  destruct j as [| | | |items|o];
    try (split; [by intros [? ?]|by intros (? & ? & ? & _)]).
  cbn. split.
  - intros [resp Hresp]. exists o.
    unfold z_array_minLength, z_array in Hresp.
    destruct (o !! "nodes") as [[| | | |items|]|]; try done.
    exists items. split; [done|]. split; [done|].
    destruct (mapM _ items) as [ns|] eqn:Hns; [|done]. cbn in Hresp.
    destruct ns as [|n ns]; [done|]. cbn in Hresp.
    destruct (z_optional z_string (o !! "synthesizerPrompt")) eqn:Hsp; [|done].
    split; [|split].
    + intros ->. done.
    + assert (is_Some (mapM (fun j => PlannerNodeSchema (Some j)) items))
        as Hall by (by eexists).
      apply mapM_is_Some in Hall. eapply Forall_impl; [exact Hall|].
      intros j. apply PlannerNodeSchema_conforms.
    + apply z_optional_string_is_Some. by eexists.
  - intros (o' & items & [= <-] & Hnodes & Hne & Hall & Hsp).
    unfold z_array_minLength, z_array. rewrite Hnodes.
    assert (is_Some (mapM (fun j => PlannerNodeSchema (Some j)) items))
      as [ns Hns].
    { apply mapM_is_Some. eapply Forall_impl; [exact Hall|].
      intros j. apply PlannerNodeSchema_conforms. }
    rewrite Hns. cbn.
    destruct ns as [|n ns].
    { apply length_mapM in Hns. by destruct items. }
    cbn. apply z_optional_string_is_Some in Hsp as [sp ->]. by eexists.
Qed.

Lemma match_lit_fails lit : forall prev s,
  match_lit lit prev s = None -> String.prefix lit s = false.
Proof.
  induction lit as [|c lit IH]; intros prev s; [done|].
  destruct s as [|d s]; [done|]. simpl.
  destruct (Ascii.eqb_spec c d) as [Heq|Hne];
    destruct (Ascii.ascii_dec c d) as [Heq'|Hne']; try done.
  apply IH.
Qed.

(** What a match of the opening pattern takes: three backquotes, [json] if
    it is there, and all the whitespace that follows. *)
Lemma opening_fence_exact prev s post :
  re_match opening_fence prev s (fun _ rest => Some rest) = Some post ->
  exists tag rest,
    s = "```" ++ tag ++ rest
    /\ (tag = "json" \/ (tag = "" /\ String.prefix "json" rest = false))
    /\ post = trim_start rest.
Proof.
  assert (forall t p,
            star_space p t (fun p' s' =>
              re_match (ReOpt (ReLit nl)) p' s' (fun _ rest => Some rest))
            = Some (trim_start t)) as Hstar.
  { induction t as [|c t IH]; intros p; [done|].
    cbn [star_space trim_start].
    destruct (is_space c) eqn:Hc; [by rewrite IH|].
    cbn [re_match]. unfold nl. cbn [match_lit].
    destruct (Ascii.eqb_spec "010"%char c) as [<-|_]; [|done].
    by vm_compute in Hc. }
  intros Hm.
  assert (re_match
            (ReSeq (ReLit "```")
               (ReSeq (ReOpt (ReLit "json"))
                  (ReSeq ReStarSpace (ReOpt (ReLit nl)))))
            prev s (fun _ rest => Some rest) = Some post) as HR.
  { unfold opening_fence in Hm. cbn [re_match] in Hm.
    destruct prev as [c|]; [destruct (is_line_terminator c); [|done]|];
      exact Hm. }
  cbn [re_match] in HR, Hstar.
  destruct (match_lit "```" prev s) as [[p1 s1]|] eqn:H1; [|done].
  apply match_lit_spec in H1 as [-> _].
  destruct (match_lit "json" p1 s1) as [[p2 s2]|] eqn:H2;
    rewrite Hstar in HR; injection HR as <-.
  - apply match_lit_spec in H2 as [-> _]. exists "json", s2. auto.
  - exists "", s1. split; [done|]. split; [|done].
    right. split; [done|]. by eapply match_lit_fails.
Qed.

Lemma closing_fence_at_nl prev ws t :
  all_space ws = true -> ends_line t = true ->
  Matches closing_fence prev (nl ++ "```" ++ ws) t.
Proof.
  intros Hws He. cbn. exists nl, ("```" ++ ws). repeat split; [by right|].
  exists "```", ws. repeat split. exists ws, "".
  by rewrite str_app_nil_r.
Qed.

Lemma last_char_snoc pre c :
  last_char None pre = Some c -> exists pre1, pre = pre1 ++ String c "".
Proof.
  assert (forall s p, last_char p s = Some c ->
            (s = "" /\ p = Some c) \/ exists s1, s = s1 ++ String c "") as Hgen.
  { induction s as [|d s IH]; intros p; cbn; [by left|].
    intros Hl. right. destruct (IH _ Hl) as [[-> [= ->]]|[s1 ->]].
    - by exists "".
    - by exists (String d s1). }
  intros Hl. by destruct (Hgen _ _ Hl) as [[_ ?]|?].
Qed.

(** C8, as the code has it. [parseResponse] removes at most one opening
    marker. When three backquotes begin some line of the response, the first
    such three backquotes are removed, together with [json] if that follows
    them and with all the whitespace after that; they need not begin the
    response. When no line begins with three backquotes, nothing is removed.
    Then it removes at most one closing marker. When somewhere in what is
    left three backquotes are followed by whitespace up to the end of a
    line, the first such three backquotes are removed, together with the
    line feed before them if there is one and with the longest whitespace
    after them that ends at the end of a line; they need not end the
    response. When there are none, nothing is removed. Last it trims the
    whitespace at both ends. When [JSON.parse] throws on that text,
    [parseResponse] throws [PARSE_FAILED], having logged the first 500
    characters at most of the raw response. When the parsed value has the
    stated shape it returns what the schema makes of it, with [dependsOn]
    empty and [assignTo] absent where the node has no such key; otherwise it
    throws [VALIDATION_FAILED]. What it throws, [plan] throws. *)
Theorem planner_parse_response (raw : string) (w : World) :
  let opened := remove_first opening_fence raw in
  let closed := remove_first closing_fence opened in
  (((forall pre rest,
       raw = pre ++ rest -> begins_line (last_char None pre) = true ->
       String.prefix "```" rest = false)
    /\ opened = raw)
   \/ (exists pre tag rest,
         raw = pre ++ "```" ++ tag ++ rest
         /\ begins_line (last_char None pre) = true
         /\ (forall pre1 pre2,
               pre = pre1 ++ pre2 -> pre2 <> "" ->
               begins_line (last_char None pre1) = true ->
               String.prefix "```" (pre2 ++ "```" ++ tag ++ rest) = false)
         /\ (tag = "json" \/ (tag = "" /\ String.prefix "json" rest = false))
         /\ opened = pre ++ trim_start rest))
  /\ (((forall pre ws t,
          opened = pre ++ "```" ++ ws ++ t -> all_space ws = true ->
          ends_line t = false)
       /\ closed = opened)
      \/ (exists pre lead ws post,
            opened = pre ++ lead ++ "```" ++ ws ++ post
            /\ closed = pre ++ post
            /\ all_space ws = true
            /\ ends_line post = true
            /\ (forall ws2 t2,
                  post = ws2 ++ t2 -> ws2 <> "" -> all_space ws2 = true ->
                  ends_line t2 = false)
            /\ (lead = nl
                \/ (lead = "" /\ last_char None pre <> Some "010"%char))
            /\ (forall pre1 pre2 ws' t,
                  pre = pre1 ++ pre2 -> pre2 <> "" ->
                  pre2 ++ lead ++ "```" ++ ws ++ post = "```" ++ ws' ++ t ->
                  all_space ws' = true -> ends_line t = false)))
  /\ (exists l r,
       closed = l ++ clean_response raw ++ r
       /\ all_space l = true /\ all_space r = true)
  /\ match clean_response raw with
     | String c _ => is_space c = false
     | EmptyString => True
     end
  /\ match last_char None (clean_response raw) with
     | Some c => is_space c = false
     | None => True
     end
  /\ (forall err,
       JSON_parse (clean_response raw) = inl err ->
       exists e,
         parseResponse raw w
         = (Rejected e,
            emit [EvLog LError "Failed to parse planner response"
                    [("raw", slice_to 500 raw)]] w)
         /\ error_code e = Some PARSE_FAILED
         /\ (String.length (slice_to 500 raw) <= 500)%nat
         /\ exists rest, raw = slice_to 500 raw ++ rest)
  /\ (forall parsed,
       JSON_parse (clean_response raw) = inr parsed ->
       (response_conforms parsed ->
        exists resp,
          parseResponse raw w = (Fulfilled resp, w)
          /\ PlannerResponseSchema (Some parsed) = Some resp)
       /\ (~ response_conforms parsed ->
           exists e,
             parseResponse raw w = (Rejected e, w)
             /\ error_code e = Some VALIDATION_FAILED))
  /\ (forall o n,
       PlannerNodeSchema (Some (JObject o)) = Some n ->
       (o !! "dependsOn" = None -> pn_dependsOn n = [])
       /\ (o !! "assignTo" = None -> pn_assignTo n = None))
  /\ (forall goal_ w0 e w1,
       callLlm (buildPrompt goal_) w0 = (Fulfilled raw, w) ->
       parseResponse raw w = (Rejected e, w1) ->
       plan goal_ w0 = (Rejected e, w1)).
Proof.
  intros opened closed. repeat apply conj.
  - unfold opened, remove_first.
    destruct (remove_first_from opening_fence None raw) as [out|] eqn:Hr.
    + right. apply remove_first_from_leftmost in Hr
        as (pre & m & post & Hraw & -> & Hm & Hre & Hleft).
      apply opening_fence_shape in Hm as [Hl _].
      apply opening_fence_exact in Hre as (tag & rest & Hs & Htag & ->).
      exists pre, tag, rest. rewrite Hs in Hraw, Hleft.
      repeat split; try done.
      intros pre1 pre2 Hpre Hne Hl1.
      destruct (String.prefix "```" (pre2 ++ "```" ++ tag ++ rest)) eqn:Hp;
        [|done].
      apply prefix_app in Hp as [t Ht].
      destruct (Hleft pre1 pre2 "```" t Hpre Hne Ht).
      by apply opening_fence_at.
    + left. split; [|done]. intros pre rest Hraw Hl.
      destruct (String.prefix "```" rest) eqn:Hp; [|done].
      apply prefix_app in Hp as [t Ht].
      destruct (remove_first_from_None _ _ _ Hr pre rest "```" t Hraw Ht).
      by apply opening_fence_at.
  - unfold closed, remove_first.
    destruct (remove_first_from closing_fence None opened) as [out|] eqn:Hr.
    + right. apply remove_first_from_leftmost in Hr
        as (pre & m & post & Hraw & -> & Hm & Hre & Hleft).
      apply closing_fence_shape in Hm as (He & lead & ws & -> & Hlead & Hws).
      rewrite !str_app_assoc in Hraw, Hleft.
      exists pre, lead, ws, post.
      split; [done|]. split; [done|]. split; [done|]. split; [done|].
      split; [by eapply closing_fence_greedy|]. split.
      * destruct Hlead as [-> | ->]; [right|by left]. split; [done|].
        intros Hlast. apply last_char_snoc in Hlast as [pre1 Hpre].
        apply (Hleft pre1 nl (nl ++ "```" ++ ws) post); [done|done| |].
        -- rewrite !str_app_assoc. reflexivity.
        -- by apply closing_fence_at_nl.
      * intros pre1 pre2 ws' t Hpre Hne Heq Hws'.
        destruct (ends_line t) eqn:He'; [|done].
        replace ("```" ++ ws' ++ t) with (("```" ++ ws') ++ t) in Heq
          by apply str_app_assoc.
        destruct (Hleft pre1 pre2 ("```" ++ ws') t Hpre Hne Heq).
        by apply closing_fence_at.
    + left. split; [|done]. intros pre ws t Hop Hws.
      destruct (ends_line t) eqn:He; [|done].
      destruct (remove_first_from_None _ _ _ Hr pre ("```" ++ ws ++ t)
                  ("```" ++ ws) t Hop); [by rewrite str_app_assoc|].
      by apply closing_fence_at.
  - unfold clean_response, trim. fold opened. fold closed.
    destruct (trim_start_spec closed) as (l & Hl & Hls).
    destruct (trim_end_spec (trim_start closed)) as (r & Hr & Hrs).
    exists l, r. split; [|done]. by rewrite <- Hr.
  - apply trim_head.
  - apply trim_end_last.
  - intros err Herr. unfold parseResponse. rewrite Herr. eexists.
    split; [reflexivity|]. split; [done|]. apply slice_to_spec.
  - intros parsed Hparsed. unfold parseResponse, parseOrThrow.
    rewrite Hparsed. split.
    + intros Hc. apply PlannerResponseSchema_conforms in Hc as [resp ->].
      by exists resp.
    + intros Hc.
      destruct (PlannerResponseSchema (Some parsed)) as [resp|] eqn:Hs.
      * destruct Hc. apply PlannerResponseSchema_conforms. by eexists.
      * by eexists.
  - apply PlannerNodeSchema_defaults.
  - intros goal_ w0 e w1 Hcall Hparse. unfold plan. by rewrite Hcall, Hparse.
Qed.

(** * Further properties *)

Local Open Scope list_scope.

(** ** The retry helper: when it is the operation itself, and how long it
    waits *)

Section RetryMore.
Context {T : Type}.

(** X1. With [maxAttempts = 1], [withRetry] is the operation: one call, no
    wait, and the outcome, a rejection too, is passed on as it is. With any
    [maxAttempts >= 1], an operation that fulfils when first called is called
    once, and there is no wait. *)
Theorem withRetry_transparent (rcfg : RetryConfig)
    (ropts : option RetryOptions) (fn : Async T) (w : World) :
  (retry_maxAttempts rcfg ropts = 1 -> withRetry rcfg fn ropts w = fn w)
  /\ (1 <= retry_maxAttempts rcfg ropts ->
      forall v w1, fn w = (Fulfilled v, w1) ->
        withRetry rcfg fn ropts w = (Fulfilled v, w1)).
Proof.
  unfold withRetry. split.
  - intros ->. change (Z.to_nat 1) with 1%nat. cbn [retry_loop].
    change (1 <=? 1)%Z with true. change (1 =? 1)%Z with true. cbn iota.
    by destruct (fn w) as [[v|err] w1].
  - intros HN v w1 Hfn.
    destruct (Z.to_nat (retry_maxAttempts rcfg ropts)) as [|fuel] eqn:Hfuel;
      [lia|].
    cbn [retry_loop]. destruct (Z.leb_spec 1 (retry_maxAttempts rcfg ropts));
      [|lia].
    by rewrite Hfn.
Qed.

Lemma backoff_le_max b m a : backoff b m a <= m.
Proof. unfold backoff. lia. Qed.

Lemma backoff_ge_min b m a : 0 <= b -> 1 <= a -> Z.min b m <= backoff b m a.
Proof.
  intros Hb Ha. unfold backoff.
  assert (0 < 2 ^ (a - 1)) by (apply Z.pow_pos_nonneg; lia). nia.
Qed.

Lemma failed_attempts_sleep_in callee arg b m errs : forall a ms,
  EvSleep ms ∈ failed_attempts callee arg b m a errs ->
  exists k, a <= k /\ ms = backoff b m k.
Proof.
  induction errs as [|e errs IH]; intros a ms; cbn [failed_attempts app].
  - intros Hin. by apply elem_of_nil in Hin.
  - rewrite !elem_of_cons. intros [?|[?|[[= ->]|Hin]]]; try done.
    + exists a. split; [lia|done].
    + apply IH in Hin as (k & Hk & ->). exists k. split; [lia|done].
Qed.

Lemma total_sleep_app (tr1 tr2 : list Event) :
  total_sleep (tr1 ++ tr2) = total_sleep tr1 + total_sleep tr2.
Proof.
  unfold total_sleep. induction tr1 as [|e tr1 IH]; cbn [app foldr]; [done|].
  rewrite IH. lia.
Qed.

Lemma failed_attempts_total callee arg b m errs : forall a,
  total_sleep (failed_attempts callee arg b m a errs)
  <= Z.of_nat (length errs) * m.
Proof.
  induction errs as [|e errs IH]; intros a; cbn [failed_attempts]; [done|].
  rewrite total_sleep_app. specialize (IH (a + 1)).
  pose proof (backoff_le_max b m a). cbn [total_sleep foldr sleep_of length].
  lia.
Qed.

Lemma failed_attempts_sleep_count callee arg b m errs : forall a,
  count_events is_sleep (failed_attempts callee arg b m a errs) = length errs.
Proof.
  induction errs as [|e errs IH]; intros a; [done|].
  cbn [failed_attempts app]. rewrite !count_events_cons, IH. done.
Qed.

(** X2. For [maxAttempts = N >= 1] and [maxDelayMs >= 0]: whatever the
    operation does, the waits of [withRetry] are those [setTimeout] is
    called for between the calls, one less than there are calls (none after
    the last call); none is longer than [maxDelayMs], and with a base delay
    that is not negative none is shorter than the smaller of [baseDelayMs]
    and [maxDelayMs]; they add up to [(N - 1) * maxDelayMs] at most. *)
Theorem withRetry_delays_bounded (rcfg : RetryConfig)
    (ropts : option RetryOptions) (callee arg : string)
    (f : Env -> Settled T * Env) (w : World) r w' :
  let N := retry_maxAttempts rcfg ropts in
  let b := retry_baseDelayMs rcfg ropts in
  let m := retry_maxDelayMs rcfg ropts in
  1 <= N -> 0 <= m ->
  withRetry rcfg (observed callee arg f) ropts w = (r, w') ->
  exists errs e_last delta,
    retried f b m 1 errs (env w) e_last
    /\ f e_last = (r, env w')
    /\ trace w' = trace w ++ delta
    /\ count_events is_invoke delta = S (length errs)
    /\ filter (fun e => is_sleep e = true) delta
       = map EvSleep (waits b m (S (length errs)))
    /\ length (waits b m (S (length errs))) = length errs
    /\ Forall (fun ms => ms <= m /\ (0 <= b -> Z.min b m <= ms))
         (waits b m (S (length errs)))
    /\ foldr Z.add 0 (waits b m (S (length errs))) <= (N - 1) * m.
Proof.
  intros N b m HN Hm Hrun. unfold withRetry in Hrun. fold N b m in Hrun.
  apply retry_loop_observed in Hrun; [|lia|f_equal; lia].
  destruct Hrun as (errs & e_last & Htr & Hlast & _ & Hle & _ & Hch).
  exists errs, e_last. eexists. split; [exact Hch|]. split; [exact Hlast|].
  split; [exact Htr|]. split; [|split; [|split; [|split]]].
  - rewrite !count_events_app, failed_attempts_invokes, !count_events_cons.
    destruct r; cbn; lia.
  - rewrite filter_app, failed_attempts_waits.
    replace (filter _ [EvInvoke callee arg; settle_event r]) with (@nil Event)
      by (by destruct r).
    by rewrite app_nil_r.
  - unfold waits. by rewrite length_map, length_seq.
  - apply waits_bounds.
  - etrans; [apply waits_sum_le|]. cbn [pred]. nia.
Qed.

End RetryMore.

(** ** The executor: edge cases of the loop *)

(** X3. A graph whose nodes are all done, failed or skipped (one with no
    node at all, too) is returned as it is, at once: nothing is called, the
    world is as it was, [nodeResults] is empty whatever results the nodes
    hold, and [success] tells whether every node is done. *)
Theorem execute_finished_graph (fuel : nat) (g : TaskGraph) (w : World) :
  isComplete (nodes g) = true ->
  exists res,
    execute (S fuel) g w = Some (Fulfilled res, w)
    /\ graph res = g
    /\ nodeResults res = ∅
    /\ (success res = true <-> Forall (fun n => status n = done) (nodes g))
    /\ (nodes g = [] -> success res = true).
Proof.
  intros Hc. unfold execute. cbn [execute_loop initial x_nodes]. rewrite Hc.
  eexists. split; [reflexivity|]. cbn. repeat split.
  - by destruct g.
  - rewrite forallb_forall, Forall_forall. unfold status_eqb.
    intros Hall n Hn. apply list_elem_of_In, Hall in Hn.
    by apply bool_decide_eq_true in Hn.
  - rewrite forallb_forall, Forall_forall. unfold status_eqb.
    intros Hall n Hn. apply bool_decide_eq_true, Hall. by apply list_elem_of_In.
  - by intros ->.
Qed.

(** X4. With [maxConcurrency = 0], or negative and at most minus the number
    of ready nodes, [ready.slice(0, maxConcurrency)] is empty: a pass of the
    loop dispatches nothing and leaves everything as it was, so that
    [execute] does not return. *)
Theorem execute_stuck_on_empty_batch (g : TaskGraph) (w : World) :
  let ready := readyNodes (nodes g) in
  isComplete (nodes g) = false ->
  aborted w = false ->
  ready <> [] ->
  effective_maxConcurrency = 0
  \/ effective_maxConcurrency <= - Z.of_nat (length ready) ->
  run_batch effective_maxConcurrency ready (initial g w) = (None, initial g w)
  /\ forall fuel, execute fuel g w = None.
Proof.
  intros ready Hc Ha Hready HM.
  assert (run_batch effective_maxConcurrency ready (initial g w)
          = (None, initial g w))
    as Hrun.
  { unfold run_batch.
    assert (slice0 effective_maxConcurrency ready = []) as ->.
    { unfold slice0. destruct (Z.ltb_spec effective_maxConcurrency 0).
      - rewrite Z2Nat.nonpos by lia. apply take_0.
      - rewrite Z2Nat.nonpos; [apply take_0|].
        destruct HM as [->|HM]; lia. }
    reflexivity. }
  split; [done|].
  assert (forall fuel,
            execute_loop effective_maxConcurrency fuel (initial g w) = None)
    as Hloop.
  { induction fuel as [|fuel IH]; [done|]. cbn [execute_loop].
    cbn [initial x_nodes x_world]. rewrite Hc, Ha. fold ready.
    case_bool_decide as Hlen; [by apply nil_length_inv in Hlen|].
    fold (initial g w). by rewrite Hrun. }
  intros fuel. unfold execute. by rewrite Hloop.
Qed.

(** ** The executor: one node *)

(** The node at position [i] once its promise is settled. *)
Lemma settle_lookup i r x node x' res :
  x_nodes x !! i = Some node ->
  settle i r x = inr x' ->
  settled_result r = inr res ->
  x_nodes x' !! i
  = Some (with_status (settled_status r) (with_result res node)).
Proof.
  intros Hi Hs Hr.
  destruct (settle_spec i r x node x' Hi Hs) as (res' & Hr' & Hns & _).
  rewrite Hr in Hr'. injection Hr' as <-. rewrite Hns.
  set (ns1 := alter (with_status (settled_status r)) i
                (alter (with_result res) i (x_nodes x))).
  assert (ns1 !! i = Some (with_status (settled_status r)
                             (with_result res node))) as Hi1
    by (subst ns1; by rewrite !list_lookup_alter_eq, Hi).
  case_decide; [done|].
  destruct (skipDownstream_map ns1 (id node)) as (f & -> & Hf).
  rewrite lookup_map, Hi1. cbn.
  destruct (Hf (with_status (settled_status r)
                  (with_result res node))) as [->|[Hp _]];
    [done|].
  cbn in Hp. by apply settled_status_not_pending in Hp.
Qed.

Lemma failed_attempts_acquires callee arg b m errs : forall a,
  count_events is_acquire (failed_attempts callee arg b m a errs) = 0%nat.
Proof.
  induction errs as [|e errs IH]; intros a; [done|].
  cbn [failed_attempts app]. rewrite !count_events_cons, IH. done.
Qed.

(** X5. When no agent is found for a node (none is registered, or the
    selector names none), [executeNode] fulfils with an error result that
    names the node and the selector: no agent, rate limiter or cache is
    touched and nothing is logged; [execute] then marks the node failed. *)
Theorem no_agent_fails_node (i : nat) (x : Exec) (node : TaskNode) :
  x_nodes x !! i = Some node ->
  resolve_agent node = None ->
  let result_ :=
    mkResult error
      ("No agent available for task " ++ quote ++ id node ++ quote
       ++ " (requested: " ++ default "any" (assignTo node) ++ ")")%string in
  exists x' tr,
    executeNode i x = (Fulfilled result_, x')
    /\ x_nodes x' = alter (with_status running) i (x_nodes x)
    /\ x_results x' = x_results x
    /\ taskCache (x_world x') = taskCache (x_world x)
    /\ env (x_world x') = env (call_onNodeStart (id node) (x_world x))
    /\ trace (x_world x') = trace (x_world x) ++ tr
    /\ Forall (fun e => is_effect e = false /\ is_log e = false) tr
    /\ (exists x'',
          settle i (Fulfilled result_) x' = inr x''
          /\ status <$> x_nodes x'' !! i = Some failed)
    /\ (registry_list agents = [] -> forall n, resolve_agent n = None).
Proof.
  intros Hi Hagent result_. unfold executeNode, executeNode_start.
  rewrite Hi, Hagent.
  exists (in_world (call_onNodeStart (id node))
            (set_status i running
               (in_world (emit [EvExecuteNode (id node)]) x))),
    ([EvExecuteNode (id node);
      EvStatuses (statuses (alter (with_status running) i (x_nodes x)))]
     ++ match opts ≫= onNodeStart with
        | Some _ => [EvNodeStart (id node)]
        | None => []
        end).
  split; [reflexivity|]. cbn.
  repeat split.
  - unfold call_onNodeStart. by destruct (opts ≫= onNodeStart).
  - unfold call_onNodeStart. by destruct (opts ≫= onNodeStart).
  - unfold call_onNodeStart. destruct (opts ≫= onNodeStart); cbn;
      rewrite <- ?app_assoc; cbn; by rewrite ?app_nil_r.
  - destruct (opts ≫= onNodeStart); by repeat constructor.
  - set (x1 := in_world _ _).
    assert (x_nodes x1 !! i = Some (with_status running node)) as Hi1
      by (subst x1; cbn; by rewrite list_lookup_alter_eq, Hi).
    destruct (settle_returns i (Fulfilled result_) x1 _ result_ Hi1 eq_refl)
      as [x'' Hs].
    exists x''. split; [done|].
    by rewrite (settle_lookup _ _ _ _ _ _ Hi1 Hs eq_refl).
  - unfold resolve_agent, registry_list. intros Hnil n. rewrite Hnil.
    destruct (assignTo n) as [sel|]; [|done].
    by destruct (String.eqb sel "").
Qed.


(** X7. In an [executeNode] that reaches the agent, the rate limiter is
    acquired once when rate limiting is enabled and never when it is not, for
    the name of the agent and before its first call: the first call is made
    on the environment that [onNodeStart] and then the limiter leave, and the
    attempts that [withRetry] adds are separated by its waits alone and do
    not pass through the limiter again. The trace shows the same. *)
Theorem rate_limiter_once_per_node (i : nat) (x : Exec) (node : TaskNode)
    (agent : AgentAdapter) r x' :
  x_nodes x !! i = Some node ->
  resolve_agent node = Some agent ->
  cache_check (taskKey (task node) (name agent))
    (call_onNodeStart (id node) (x_world x)) = None ->
  executeNode i x = (r, x') ->
  let e0 := match opts ≫= onNodeStart with
            | Some cb => cb (id node) (env (x_world x))
            | None => env (x_world x)
            end in
  let e1 := if rateLimit_enabled cfg then acquire (name agent) e0 else e0 in
  exists pre post errs e_last,
    retried (execute_ agent (with_status running node))
      (cfg_baseDelayMs (retry cfg)) (cfg_maxDelayMs (retry cfg)) 1 errs
      e1 e_last
    /\ execute_ agent (with_status running node) e_last = (r, env (x_world x'))
    /\ trace (x_world x')
       = trace (x_world x) ++ pre
         ++ (if rateLimit_enabled cfg then [EvAcquire (name agent)] else [])
         ++ post
    /\ count_events is_invoke pre = 0%nat
    /\ count_events is_acquire pre = 0%nat
    /\ count_events is_acquire post = 0%nat
    /\ count_events is_invoke post = S (length errs).
Proof.
  intros Hi Hagent Hmiss Hrun e0 e1.
  destruct (executeNode_reaches_agent _ _ _ _ _ _ Hi Hagent Hmiss Hrun)
    as (notes & errs & e_last & Htr & Hnotes & _ & Hch & Hlast & _).
  exists (EvExecuteNode (id node)
          :: EvStatuses (statuses (alter (with_status running) i (x_nodes x)))
          :: notes),
    (failed_attempts (name agent) (id node)
       (cfg_baseDelayMs (retry cfg)) (cfg_maxDelayMs (retry cfg)) 1 errs
     ++ [EvInvoke (name agent) (id node); settle_event r]), errs, e_last.
  split; [exact Hch|]. split; [exact Hlast|].
  split; [by rewrite Htr|].
  rewrite !count_events_cons, !count_events_app, !count_events_cons.
  rewrite failed_attempts_acquires, failed_attempts_invokes.
  rewrite !(count_events_notes _ notes Hnotes) by (by intros []).
  destruct r; cbn; repeat split; lia.
Qed.

(** ** The executor: what a pass of the loop does to each node *)

Lemma same_task_refl n : same_task n n.
Proof. by repeat split. Qed.

Lemma kept_refl n : kept n n.
Proof. split; [apply same_task_refl|done]. Qed.

Lemma kept_trans n1 n2 n3 : kept n1 n2 -> kept n2 n3 -> kept n1 n3.
Proof.
  intros [(? & ? & ? & ? & ?) H12] [(? & ? & ? & ? & ?) H23].
  split; [repeat split; congruence|].
  intros Ht. specialize (H12 Ht). subst n2. by apply H23.
Qed.

Lemma kept_skipped n : status n = pending -> kept n (with_status skipped n).
Proof. intros Hp. split; [by repeat split|]. by rewrite Hp. Qed.

Lemma Forall2_kept_refl ns : Forall2 kept ns ns.
Proof. induction ns; constructor; [apply kept_refl|done]. Qed.

Lemma Forall2_kept_trans ns1 ns2 ns3 :
  Forall2 kept ns1 ns2 -> Forall2 kept ns2 ns3 -> Forall2 kept ns1 ns3.
Proof.
  intros H12. revert ns3. induction H12 as [|n1 n2 l1 l2 Hn _ IH];
    intros ns3 H23; inversion H23; subst; constructor; [|by apply IH].
  by eapply kept_trans.
Qed.

Lemma Forall2_kept_ids ns ns' : Forall2 kept ns ns' -> map id ns' = map id ns.
Proof.
  induction 1 as [|n n' l l' [(Hid & _) _] _ IH]; [done|].
  cbn. by rewrite Hid, IH.
Qed.

(** The nodes after [batch.map]: those of the batch are running. *)
Lemma dispatch_nodes batch : forall x ps x',
  dispatch batch x = (ps, x') ->
  forall j, x_nodes x' !! j
            = (if decide (j ∈ batch)
               then with_status running <$> x_nodes x !! j
               else x_nodes x !! j).
Proof.
  induction batch as [|i batch IH]; intros x ps x'; cbn.
  - intros [= <- <-] j. rewrite decide_False; [done|apply not_elem_of_nil].
  - destruct (executeNode_start i x) as [p x1] eqn:Hstart.
    destruct (dispatch batch x1) as [ps1 x2] eqn:Hrest.
    intros [= <- <-] j.
    apply executeNode_start_spec in Hstart as (Hns & _).
    rewrite (IH _ _ _ Hrest j), Hns.
    destruct (decide (i = j)) as [->|Hne].
    + rewrite list_lookup_alter_eq.
      rewrite (decide_True (P := j ∈ j :: batch)) by constructor.
      case_decide; [|done]. by destruct (x_nodes x !! j).
    + rewrite list_lookup_alter_ne by done.
      destruct (decide (j ∈ batch)) as [Hin|Hin].
      * rewrite decide_True; [done|by constructor].
      * rewrite decide_False; [done|].
        rewrite elem_of_cons. intros [?|?]; [congruence|done].
Qed.

Lemma dispatch_length batch x ps x' :
  dispatch batch x = (ps, x') ->
  length ps = length batch /\ length (x_nodes x') = length (x_nodes x).
Proof.
  intros Hd. split.
  - eapply (dispatch_running
              (count_status running (statuses (x_nodes x)) + length batch));
      [exact Hd|lia].
  - apply dispatch_inv in Hd as (_ & Hid & _). by apply ids_length.
Qed.

Lemma settle_length i r x x' :
  settle i r x = inr x' -> length (x_nodes x') = length (x_nodes x).
Proof.
  intros Hs. destruct (settle_pointwise i r x x' Hs) as [Hid _].
  by apply ids_length.
Qed.

Lemma settle_all_length batch : forall rs x o x',
  settle_all batch rs x = (o, x') -> length (x_nodes x') = length (x_nodes x).
Proof.
  induction batch as [|i batch IH]; intros [|r rs] x o x'; cbn;
    try (by intros [= <- <-]).
  destruct (settle i r x) as [thrown|x1] eqn:Hs; [by intros [= <- <-]|].
  intros Hrest. rewrite (IH _ _ _ _ Hrest). by eapply settle_length.
Qed.

(** The nodes after the settling loop, for a batch without repetition: a
    node of the batch that was running has the status and the result of its
    settled promise, or is as it was if the loop was left by an exception
    before its turn. *)
Lemma settle_all_pointwise batch : forall rs x o x',
  NoDup batch -> length rs = length batch ->
  settle_all batch rs x = (o, x') ->
  forall j n n',
    x_nodes x !! j = Some n ->
    x_nodes x' !! j = Some n' ->
    (j ∈ batch
     /\ (status n = running ->
         (exists r res, settled_result r = inr res
            /\ n' = with_status (settled_status r) (with_result res n))
         \/ (o <> None /\ n' = n)))
    \/ ((j ∉ batch)
        /\ (n' = n \/ (status n = pending /\ n' = with_status skipped n))).
Proof.
  induction batch as [|i batch IH]; intros [|r rs] x o x' Hnd Hlen Hall j n n' Hj;
    cbn in Hlen, Hall; try done.
  { injection Hall as <- <-. intros Hj'. right.
    split; [apply not_elem_of_nil|]. left. congruence. }
  apply NoDup_cons in Hnd as [Hi Hnd]. intros Hj'.
  destruct (settle i r x) as [thrown|x1] eqn:Hs.
  { injection Hall as <- <-. assert (n' = n) as -> by congruence.
    destruct (decide (j ∈ i :: batch)); [left|right; auto].
    split; [done|]. intros _. by right. }
  destruct (lookup_counterpart (x_nodes x) (x_nodes x1) j n)
    as [n1 Hj1]; [by rewrite (settle_length _ _ _ _ Hs)|done|].
  specialize (IH rs x1 o x' Hnd ltac:(lia) Hall j n1 n' Hj1 Hj').
  destruct (decide (j = i)) as [->|Hne].
  - left. split; [constructor|]. intros _.
    destruct (settle_spec i r x n x1 Hj Hs) as (res & Hr & _).
    rewrite (settle_lookup _ _ _ _ _ _ Hj Hs Hr) in Hj1. injection Hj1 as <-.
    left. exists r, res. split; [done|].
    destruct IH as [[? _]|[_ [->|[Hp _]]]]; [done|done|].
    cbn in Hp. by apply settled_status_not_pending in Hp.
  - destruct (settle_pointwise i r x x1 Hs) as [_ Hpt].
    destruct (Hpt j n n1 Hj Hj1) as [[? _]|[_ Hcase]]; [done|].
    destruct IH as [[Hin Hrun]|[Hnin Hcase']].
    + left. split; [by constructor|]. intros Hst.
      destruct Hcase as [->|[Hp _]]; [by apply Hrun|congruence].
    + right. split; [rewrite elem_of_cons; intros [?|?]; done|].
      destruct Hcase as [->|[Hp ->]]; [done|].
      destruct Hcase' as [->|[Hp' _]]; [by right|done].
Qed.

Lemma readyNodes_ready ns i :
  i ∈ readyNodes ns -> exists n, ns !! i = Some n /\ is_ready ns n = true.
Proof.
  unfold readyNodes. rewrite list_elem_of_filter. intros [Hr _].
  destruct (ns !! i) as [n|]; [|done]. by exists n.
Qed.

Lemma slice0_NoDup {A} (M : Z) (l : list A) : NoDup l -> NoDup (slice0 M l).
Proof.
  unfold slice0. intros Hnd. eapply sublist_NoDup; [done|apply sublist_take].
Qed.

(** What one pass of the loop makes of each node: a node of the batch was
    ready and has the status and the result of its settled promise (or is
    still running, if the pass was left by an exception before its turn);
    any other node is as it was, or was pending and is skipped. *)
Lemma run_batch_pointwise M x o x' :
  let ns := x_nodes x in
  let batch := slice0 M (readyNodes ns) in
  run_batch M (readyNodes ns) x = (o, x') ->
  length (x_nodes x') = length ns
  /\ forall j n n', ns !! j = Some n -> x_nodes x' !! j = Some n' ->
       (j ∈ batch /\ is_ready ns n = true
        /\ ((exists r res, settled_result r = inr res
               /\ n' = with_status (settled_status r) (with_result res n))
            \/ (o <> None /\ n' = with_status running n)))
       \/ ((j ∉ batch)
           /\ (n' = n \/ (status n = pending /\ n' = with_status skipped n))).
Proof.
  intros ns batch. unfold run_batch. fold ns batch.
  assert (NoDup batch) as Hnd by apply slice0_NoDup, readyNodes_NoDup.
  assert (forall j n, j ∈ batch -> ns !! j = Some n -> is_ready ns n = true)
    as Hready.
  { intros j n Hin Hj. apply slice0_subseteq, readyNodes_ready in Hin
      as (m & Hm & Hr). fold ns in Hm. congruence. }
  destruct (dispatch batch x) as [promises x1] eqn:Hd.
  pose proof (dispatch_nodes _ _ _ _ Hd) as Hn1.
  apply dispatch_length in Hd as [Hlp Hlen1].
  destruct (allSettled (x_nodes x1) batch promises (x_world x1))
    as [results w2] eqn:Ha.
  apply allSettled_spec in Ha as (Hlr & _); [|done].
  set (x2 := mkExec (x_nodes x1) (x_results x1) (x_proto x1) w2).
  intros Hall.
  assert (length (x_nodes x') = length ns) as Hlen2.
  { rewrite (settle_all_length _ _ _ _ _ Hall). exact Hlen1. }
  split; [done|]. intros j n n' Hj Hj'.
  specialize (Hn1 j). fold ns in Hn1. rewrite Hj in Hn1.
  destruct (decide (j ∈ batch)) as [Hin|Hin]; cbn in Hn1.
  - destruct (settle_all_pointwise batch results x2 o x' Hnd Hlr Hall
                j _ n' Hn1 Hj')
      as [[_ Hrun]|[? _]]; [|done].
    left. split; [done|]. split; [by apply (Hready j)|].
    destruct (Hrun eq_refl) as [(r & res & Hr & ->)|[Ho ->]];
      [left; by exists r, res|by right].
  - destruct (settle_all_pointwise batch results x2 o x' Hnd Hlr Hall
                j _ n' Hn1 Hj')
      as [[? _]|[_ Hcase]]; [done|].
    by right.
Qed.

Lemma is_ready_pending ns n : is_ready ns n = true -> status n = pending.
Proof.
  unfold is_ready, status_eqb. intros Hr.
  apply andb_true_iff in Hr as [Hp _]. by apply bool_decide_eq_true in Hp.
Qed.

Lemma run_batch_kept M x o x' :
  run_batch M (readyNodes (x_nodes x)) x = (o, x') ->
  Forall2 kept (x_nodes x) (x_nodes x').
Proof.
  intros Hb. destruct (run_batch_pointwise M x o x' Hb) as [Hlen Hpt].
  apply Forall2_same_length_lookup_2; [done|].
  intros j n n' Hj Hj'.
  destruct (Hpt j n n' Hj Hj')
    as [(_ & Hr & [(r & res & _ & ->)|[_ ->]])|[_ [->|[Hp ->]]]].
  - apply is_ready_pending in Hr. split; [by repeat split|]. by rewrite Hr.
  - apply is_ready_pending in Hr. split; [by repeat split|]. by rewrite Hr.
  - apply kept_refl.
  - by apply kept_skipped.
Qed.

Lemma abort_kept x : Forall2 kept (x_nodes x) (x_nodes (abort x)).
Proof.
  cbn. unfold skip_pending. induction (x_nodes x) as [|n ns IH]; cbn;
    constructor; [|done].
  unfold status_eqb. case_bool_decide; [by apply kept_skipped|apply kept_refl].
Qed.

(** A property of the state of [execute] that the abort branch, the deadlock
    branch and a pass over a non-empty ready set keep holds when the loop is
    left. *)
Lemma execute_loop_ind (P : Exec -> Prop) M :
  (forall x, P x -> P (abort x)) ->
  (forall x msg, P x -> P (in_world (log LError msg) x)) ->
  (forall x o x', P x ->
     run_batch M (readyNodes (x_nodes x)) x = (o, x') -> P x') ->
  forall fuel x ex x',
    P x -> execute_loop M fuel x = Some (ex, x') -> P x'.
Proof.
  intros Habort Hlog Hpass.
  induction fuel as [|fuel IH]; intros x ex x' HP; cbn; [done|].
  destruct (isComplete (x_nodes x)); [by intros [= <- <-]|].
  destruct (aborted (x_world x)); [intros [= <- <-]; by apply Habort|].
  case_bool_decide; [intros [= <- <-]; by apply Hlog|].
  destruct (run_batch _ _ _) as [o x1] eqn:Hb.
  apply Hpass in Hb; [|done].
  destruct o as [thrown|]; [by intros [= <- <-]|]. by apply IH.
Qed.

Lemma execute_loop_kept M fuel x ex x' :
  execute_loop M fuel x = Some (ex, x') ->
  Forall2 kept (x_nodes x) (x_nodes x').
Proof.
  apply (execute_loop_ind (fun y => Forall2 kept (x_nodes x) (x_nodes y)) M).
  - intros y Hy. eapply Forall2_kept_trans; [exact Hy|apply abort_kept].
  - intros y msg Hy. exact Hy.
  - intros y o y' Hy Hb.
    eapply Forall2_kept_trans; [exact Hy|by eapply run_batch_kept].
  - apply Forall2_kept_refl.
Qed.

(** X8. [execute] writes to the status and the result of nodes and to
    nothing else: the graph it returns has the goal, the synthesizer prompt
    and, position by position, the ids, tasks, dependencies, selectors and
    configurations of the graph it was given. *)
Theorem execute_keeps_tasks (fuel : nat) (g : TaskGraph) (w : World) res w' :
  execute fuel g w = Some (Fulfilled res, w') ->
  goal (graph res) = goal g
  /\ synthesizerPrompt (graph res) = synthesizerPrompt g
  /\ Forall2 same_task (nodes g) (nodes (graph res)).
Proof.
  intros Hrun.
  apply execute_fulfilled in Hrun as (ex & x & Hloop & Hex & -> & ->).
  cbn. repeat split.
  apply execute_loop_kept in Hloop. cbn in Hloop.
  eapply Forall2_impl; [exact Hloop|]. by intros n n' [? _].
Qed.

(** X9. A node that is done, failed or skipped is never written to again:
    whatever passes of the loop follow, it keeps its status and its result.
    So a failed node is not run a second time, and [execute] leaves the
    nodes alone that had such a status when it was called. *)
Theorem terminal_nodes_are_final (M : Z) (fuel : nat) (x : Exec) ex x' :
  execute_loop M fuel x = Some (ex, x') ->
  forall j n, x_nodes x !! j = Some n -> is_terminal (status n) = true ->
    x_nodes x' !! j = Some n.
Proof.
  intros Hloop j n Hj Ht. apply execute_loop_kept in Hloop.
  destruct (lookup_counterpart (x_nodes x) (x_nodes x') j n) as [n' Hj'];
    [by eapply Forall2_length|done|].
  destruct (Forall2_lookup_lr _ _ _ _ _ _ Hloop Hj Hj') as [_ Heq].
  by rewrite Hj', (Heq Ht).
Qed.

(** *** Dependencies *)

Lemma dep_done_spec ns d :
  dep_done ns d = true
  <-> exists m, node_by_id ns d = Some m /\ status m = done.
Proof.
  unfold dep_done, status_eqb. destruct (node_by_id ns d) as [m|].
  - rewrite bool_decide_eq_true. split; [eauto|]. by intros (? & [= <-] & ?).
  - split; [done|]. by intros (? & ? & _).
Qed.

Lemma is_ready_deps_done ns n : is_ready ns n = true -> deps_done ns n.
Proof.
  unfold is_ready, deps_done. intros Hr. apply andb_true_iff in Hr as [_ Hd].
  rewrite forallb_forall in Hd. apply Forall_forall. intros d Hin.
  apply dep_done_spec, Hd. by apply list_elem_of_In.
Qed.

Lemma node_by_id_kept ns ns' d m :
  Forall2 kept ns ns' ->
  node_by_id ns d = Some m -> status m = done -> node_by_id ns' d = Some m.
Proof.
  unfold node_by_id.
  induction 1 as [|n n' l l' [(Hid & _) Hterm] _ IH]; [done|]. cbn.
  rewrite Hid. destruct (String.eqb (id n) d); [|exact IH].
  intros [= ->] Hst. rewrite Hterm; [done|]. by rewrite Hst.
Qed.

Lemma node_by_id_None ns ns' d :
  map id ns' = map id ns -> node_by_id ns d = None -> node_by_id ns' d = None.
Proof.
  unfold node_by_id. revert ns'.
  induction ns as [|n l IH]; intros [|n' l']; cbn; try done.
  intros [= Hid Hl]. rewrite Hid.
  destruct (String.eqb (id n) d); [done|]. by apply IH.
Qed.

Lemma deps_done_kept ns ns' n n' :
  Forall2 kept ns ns' -> dependsOn n' = dependsOn n ->
  deps_done ns n -> deps_done ns' n'.
Proof.
  unfold deps_done. intros Hk -> Hd. eapply Forall_impl; [exact Hd|].
  intros d (m & Hm & Hst). exists m. split; [|done].
  by eapply node_by_id_kept.
Qed.

Lemma deps_respected_step ns ns' :
  Forall2 kept ns ns' ->
  (forall j n n', ns !! j = Some n -> ns' !! j = Some n' ->
     started (status n') ->
     is_ready ns n = true \/ (n' = n /\ started (status n))) ->
  deps_respected ns -> deps_respected ns'.
Proof.
  intros Hk Hpt HJ j n' Hj' Hst.
  destruct (lookup_counterpart ns' ns j n') as [n Hj];
    [symmetry; by eapply Forall2_length|done|].
  destruct (Forall2_lookup_lr _ _ _ _ _ _ Hk Hj Hj') as [(_ & _ & Hdeps & _) _].
  apply (deps_done_kept ns ns' n n' Hk Hdeps).
  destruct (Hpt j n n' Hj Hj' Hst) as [Hr|[-> Hst']].
  - by apply is_ready_deps_done.
  - by apply (HJ j).
Qed.

Lemma started_skipped n : ~ started (status (with_status skipped n)).
Proof. by intros [?|[?|?]]. Qed.

Lemma execute_loop_deps M fuel x ex x' :
  deps_respected (x_nodes x) ->
  execute_loop M fuel x = Some (ex, x') ->
  deps_respected (x_nodes x').
Proof.
  intros HJ. apply (execute_loop_ind (fun y => deps_respected (x_nodes y)) M);
    [| |  |done].
  - intros y Hy. eapply deps_respected_step; [apply abort_kept| |done].
    intros j n n' Hj Hj' Hst. right. cbn in Hj'.
    destruct (skip_pending_map (x_nodes y)) as (f & Heq & Hf).
    rewrite Heq in Hj'. apply skip_map_lookup in Hj' as (n0 & Hj0 & Hcase);
      [|done].
    assert (n0 = n) as -> by congruence.
    destruct Hcase as [->|[_ ->]]; [done|]. by apply started_skipped in Hst.
  - intros y msg Hy. exact Hy.
  - intros y o y' Hy Hb.
    eapply deps_respected_step; [by eapply run_batch_kept| |done].
    intros j n n' Hj Hj' Hst.
    destruct (run_batch_pointwise M y o y' Hb) as [_ Hpt].
    destruct (Hpt j n n' Hj Hj') as [(_ & Hr & _)|[_ [->|[_ ->]]]].
    + by left.
    + by right.
    + by apply started_skipped in Hst.
Qed.

(** X12. Dependencies come first. In a run on a graph whose nodes are all
    pending, a node is dispatched only once every dependency of it names a
    node that is done: at the end, each node that is done or failed has all
    its dependencies done. *)
Theorem dependencies_done_first (fuel : nat) (g : TaskGraph) (w : World)
    res w' :
  Forall (fun n => status n = pending) (nodes g) ->
  execute fuel g w = Some (Fulfilled res, w') ->
  forall n, n ∈ nodes (graph res) ->
    status n = done \/ status n = failed ->
    deps_done (nodes (graph res)) n.
Proof.
  intros Hinit Hrun.
  apply execute_fulfilled in Hrun as (ex & x & Hloop & Hex & -> & ->).
  intros n Hin Hst. cbn in *.
  apply execute_loop_deps in Hloop.
  - apply list_elem_of_lookup in Hin as [j Hj]. apply (Hloop j n Hj).
    right. exact Hst.
  - intros j n0 Hj Hst0. cbn in Hj.
    rewrite Forall_forall in Hinit.
    rewrite (Hinit n0) in Hst0 by (by eapply list_elem_of_lookup_2).
    by destruct Hst0 as [?|[?|?]].
Qed.

(** X15. A pending node with a dependency that names no node of the graph
    is never ready: [execute] returns it as it was, or as skipped when
    something it depends on failed or the run was aborted, and the run does
    not succeed. *)
Theorem unresolved_dependency_never_runs (fuel : nat) (g : TaskGraph)
    (w : World) res w' (j : nat) (n : TaskNode) (d : string) :
  nodes g !! j = Some n ->
  status n = pending ->
  d ∈ dependsOn n ->
  node_by_id (nodes g) d = None ->
  execute fuel g w = Some (Fulfilled res, w') ->
  (nodes (graph res) !! j = Some n
   \/ nodes (graph res) !! j = Some (with_status skipped n))
  /\ success res = false.
Proof.
  intros Hj Hp Hd Hnone Hrun.
  apply execute_fulfilled in Hrun as (ex & x & Hloop & Hex & -> & ->).
  cbn [graph nodes success].
  assert (Forall2 kept (nodes g) (x_nodes x)
          /\ (x_nodes x !! j = Some n
              \/ x_nodes x !! j = Some (with_status skipped n))) as [_ Hend].
  { eapply (execute_loop_ind
              (fun y => Forall2 kept (nodes g) (x_nodes y)
                        /\ (x_nodes y !! j = Some n
                            \/ x_nodes y !! j = Some (with_status skipped n)))
              effective_maxConcurrency); [| | | |exact Hloop].
    - intros y [Hk Hy]. split.
      { eapply Forall2_kept_trans; [exact Hk|apply abort_kept]. }
      cbn. unfold skip_pending. rewrite lookup_map.
      destruct Hy as [-> | ->]; cbn; unfold status_eqb; [|by right].
      rewrite Hp. by right.
    - intros y msg Hy. exact Hy.
    - intros y o y' [Hk Hy] Hb. split.
      { eapply Forall2_kept_trans; [exact Hk|by eapply run_batch_kept]. }
      destruct (run_batch_pointwise effective_maxConcurrency y o y' Hb)
        as [Hlen Hpt].
      destruct Hy as [Hy|Hy].
      + destruct (lookup_counterpart (x_nodes y) (x_nodes y') j n)
          as [n' Hj']; [done|done|].
        destruct (Hpt j n n' Hy Hj') as [(_ & Hr & _)|[_ [->|[_ ->]]]];
          [|by left|by right].
        exfalso. unfold is_ready in Hr. apply andb_true_iff in Hr as [_ Hr].
        rewrite forallb_forall in Hr.
        specialize (Hr d ltac:(by apply list_elem_of_In)).
        apply dep_done_spec in Hr as (m & Hm & _).
        by rewrite (node_by_id_None (nodes g) (x_nodes y) d
                      (Forall2_kept_ids _ _ Hk) Hnone) in Hm.
      + right.
        pose proof (run_batch_kept effective_maxConcurrency y o y' Hb) as Hk'.
        destruct (lookup_counterpart (x_nodes y) (x_nodes y') j
                    (with_status skipped n)) as [n' Hj']; [done|done|].
        destruct (Forall2_lookup_lr _ _ _ _ _ _ Hk' Hy Hj') as [_ Heq].
        by rewrite Hj', Heq.
    - split; [apply Forall2_kept_refl|by left]. }
  split; [exact Hend|].
  apply not_true_is_false. rewrite forallb_forall. intros Hall.
  assert (exists n', x_nodes x !! j = Some n' /\ status n' <> done)
    as (n' & Hj' & Hst).
  { destruct Hend as [?|?]; eexists; (split; [eassumption|]);
      [by rewrite Hp|done]. }
  apply list_elem_of_lookup_2, list_elem_of_In, Hall in Hj'.
  unfold status_eqb in Hj'. by apply bool_decide_eq_true in Hj'.
Qed.

(** ** The executor: how often nodes are dispatched and callbacks called *)

(** *** The trace accounts for the environment *)

Lemma replays_app tr1 tr2 e1 e2 e3 :
  replays tr1 e1 e2 -> replays tr2 e2 e3 -> replays (tr1 ++ tr2) e1 e3.
Proof.
  intros Hr1 Hr2. induction Hr1; cbn [app]; [done|..].
  - apply replays_quiet; auto.
  - apply replays_sleep; auto.
  - apply replays_acquire; auto.
  - eapply replays_start; eauto.
  - eapply replays_end; eauto.
  - eapply replays_call; eauto.
Qed.

Lemma replays_quiet_all evs e :
  Forall (fun ev => is_quiet ev = true) evs -> replays evs e e.
Proof. induction 1; [constructor|by apply replays_quiet]. Qed.

Lemma faithful_refl w : faithful w w.
Proof. exists []. rewrite app_nil_r. split; [done|constructor]. Qed.

Lemma faithful_trans w1 w2 w3 : faithful w1 w2 -> faithful w2 w3 -> faithful w1 w3.
Proof.
  intros (d1 & Ht1 & H1) (d2 & Ht2 & H2). exists (d1 ++ d2).
  split; [by rewrite Ht2, Ht1, app_assoc|]. by eapply replays_app.
Qed.

Lemma faithful_emit evs w :
  Forall (fun ev => is_quiet ev = true) evs -> faithful w (emit evs w).
Proof. intros Hq. exists evs. split; [done|]. by apply replays_quiet_all. Qed.

(** What [executeNode] has written to the trace and done to the environment
    when it first suspends or returns. *)
Lemma executeNode_start_events i x node p x' :
  x_nodes x !! i = Some node ->
  executeNode_start i x = (p, x') ->
  exists logs,
    trace (x_world x')
    = trace (x_world x)
      ++ EvExecuteNode (id node)
         :: EvStatuses (statuses (alter (with_status running) i (x_nodes x)))
         :: match opts ≫= onNodeStart with
            | Some _ => [EvNodeStart (id node)]
            | None => []
            end
         ++ logs
    /\ Forall (fun e => is_log e = true) logs
    /\ env (x_world x') = after_onNodeStart (id node) (env (x_world x)).
Proof.
  intros Hi. unfold executeNode_start, after_onNodeStart. rewrite Hi.
  destruct (resolve_agent node) as [agent|];
    [destruct (cache_check _ _) as [cached|]|];
    intros [= <- <-]; cbn; unfold call_onNodeStart;
    destruct (opts ≫= onNodeStart) as [cb|]; cbn; rewrite <- ?app_assoc; cbn;
    eexists; (split; [reflexivity|]); split; try done; by repeat constructor.
Qed.

Lemma executeNode_start_faithful i x p x' :
  executeNode_start i x = (p, x') -> faithful (x_world x) (x_world x').
Proof.
  intros Hstart. destruct (x_nodes x !! i) as [node|] eqn:Hi.
  2:{ unfold executeNode_start in Hstart. rewrite Hi in Hstart.
      injection Hstart as <- <-. apply faithful_refl. }
  destruct (executeNode_start_events i x node p x' Hi Hstart)
    as (logs & Htr & Hlogs & Henv).
  eexists. split; [exact Htr|]. rewrite Henv. unfold after_onNodeStart.
  do 2 (apply replays_quiet; [done|]).
  assert (replays logs
            (match opts ≫= onNodeStart with
             | Some cb => cb (id node) (env (x_world x))
             | None => env (x_world x)
             end)
            (match opts ≫= onNodeStart with
             | Some cb => cb (id node) (env (x_world x))
             | None => env (x_world x)
             end)) as Hl.
  { apply replays_quiet_all. eapply Forall_impl; [exact Hlogs|].
    by intros []. }
  destruct (opts ≫= onNodeStart) as [cb|] eqn:Hcb; cbn [app]; [|done].
  by eapply replays_start.
Qed.

Lemma retried_replays agent node b m errs : forall a e e' tr e'',
  agent ∈ agents ->
  retried (execute_ agent node) b m a errs e e' ->
  replays tr e' e'' ->
  replays (failed_attempts (name agent) (id node) b m a errs ++ tr) e e''.
Proof.
  induction errs as [|err errs IH]; intros a e e' tr e'' Hin; cbn.
  - by intros ->.
  - intros (e1 & Hf & Hch) Htr.
    apply (replays_call agent node (Rejected err) e1); [done..|].
    apply replays_sleep. by eapply IH.
Qed.

Lemma executeNode_resume_faithful agent key node w r w' :
  agent ∈ agents ->
  executeNode_resume agent key node w = (r, w') -> faithful w w'.
Proof.
  intros Hin. unfold executeNode_resume.
  set (w1 := if rateLimit_enabled cfg then _ else w).
  assert (faithful w w1) as H1.
  { subst w1. destruct (rateLimit_enabled cfg); [|apply faithful_refl].
    exists [EvAcquire (name agent)]. split; [done|].
    apply replays_acquire. constructor. }
  destruct (invoke_agent agent node w1) as [r2 w2] eqn:Hrun.
  apply invoke_agent_spec in Hrun
    as (errs & e_last & Htr & Hlast & _ & _ & _ & Hch & _).
  assert (faithful w1 w2) as H2.
  { eexists. split; [exact Htr|].
    eapply retried_replays; [done|exact Hch|].
    eapply replays_call; [done|exact Hlast|constructor]. }
  assert (faithful w w2) as H3 by (by eapply faithful_trans).
  destruct r2 as [res|reason]; intros [= <- <-]; [|done].
  destruct (cache_enabled cfg && bool_decide (r_status res = ok)); [|done].
  destruct H3 as (d & Hd & Hr). by exists d.
Qed.

Lemma dispatch_faithful batch : forall x ps x',
  dispatch batch x = (ps, x') -> faithful (x_world x) (x_world x').
Proof.
  induction batch as [|i batch IH]; intros x ps x'; cbn [dispatch].
  - intros [= <- <-]. apply faithful_refl.
  - destruct (executeNode_start i x) as [pr x1] eqn:Hstart.
    destruct (dispatch batch x1) as [ps1 x2] eqn:Hrest.
    intros [= <- <-]. eapply faithful_trans; [|by eapply IH].
    by eapply executeNode_start_faithful.
Qed.

Lemma allSettled_faithful ns batch : forall promises w rs w',
  Forall (fun p => match p with
                   | Returned r => converts_all [r]
                   | Suspended agent _ => agent ∈ agents
                   end) promises ->
  allSettled ns batch promises w = (rs, w') -> faithful w w'.
Proof.
  induction batch as [|i batch IH]; intros [|p promises] w rs w' Hps; cbn;
    try (intros [= <- <-]; apply faithful_refl).
  set (step := match p with Returned r => _ | Suspended _ _ => _ end).
  destruct step as [r w1] eqn:Hstep.
  destruct (allSettled ns batch promises w1) as [rs1 w2] eqn:Hrest.
  intros [= <- <-]. apply Forall_cons in Hps as [Hp Hps].
  eapply faithful_trans; [|by eapply IH].
  subst step. destruct p as [r0|agent key].
  - injection Hstep as <- <-. apply faithful_refl.
  - destruct (ns !! i) as [node|].
    + by eapply executeNode_resume_faithful.
    + injection Hstep as <- <-. apply faithful_refl.
Qed.

Lemma settle_faithful i r x x' :
  settle i r x = inr x' -> faithful (x_world x) (x_world x').
Proof.
  intros Hs. destruct (x_nodes x !! i) as [node|] eqn:Hi.
  2:{ rewrite settle_None in Hs by done. injection Hs as <-.
      apply faithful_refl. }
  destruct (settle_spec i r x node x' Hi Hs) as (res & Hr & _ & _ & _ & Htr).
  destruct (settle_env i r x node x' res Hi Hs Hr) as [Henv _].
  eexists. split; [exact Htr|]. rewrite Henv. cbn [app].
  apply replays_quiet; [done|].
  assert (forall e, replays
            (if decide (settled_status r = done) then []
             else [EvStatuses (statuses (x_nodes x'))]) e e) as Hend.
  { intros e. case_decide; [constructor|]. apply replays_quiet; [done|].
    constructor. }
  destruct (opts ≫= onNodeEnd) as [cb|] eqn:Hcb; cbn [app]; [|apply Hend].
  eapply replays_end; [done|]. apply Hend.
Qed.

Lemma settle_all_faithful batch : forall rs x o x',
  settle_all batch rs x = (o, x') -> faithful (x_world x) (x_world x').
Proof.
  induction batch as [|i batch IH]; intros [|r rs] x o x'; cbn;
    try (intros [= <- <-]; apply faithful_refl).
  destruct (settle i r x) as [thrown|x1] eqn:Hs;
    [intros [= <- <-]; apply faithful_refl|].
  intros Hrest. eapply faithful_trans; [by eapply settle_faithful|by eapply IH].
Qed.

Lemma run_batch_faithful M ready x o x' :
  run_batch M ready x = (o, x') -> faithful (x_world x) (x_world x').
Proof.
  unfold run_batch.
  destruct (dispatch (slice0 M ready) x) as [promises x1] eqn:Hd.
  pose proof (dispatch_promises _ _ _ _ Hd) as Hps.
  apply dispatch_faithful in Hd.
  destruct (allSettled _ _ _ _) as [rs w2] eqn:Ha.
  apply allSettled_faithful in Ha; [|done].
  intros Hall. apply settle_all_faithful in Hall. cbn [x_world] in Hall.
  eapply faithful_trans; [exact Hd|]. by eapply faithful_trans.
Qed.

(** Over the whole loop, the events of the trace are what happened to the
    environment. *)
Lemma execute_loop_faithful M fuel x ex x' :
  execute_loop M fuel x = Some (ex, x') -> faithful (x_world x) (x_world x').
Proof.
  apply (execute_loop_ind (fun y => faithful (x_world x) (x_world y)) M).
  - intros y Hy. eapply faithful_trans; [exact Hy|].
    apply faithful_emit. by repeat constructor.
  - intros y msg Hy. eapply faithful_trans; [exact Hy|].
    apply faithful_emit. by repeat constructor.
  - intros y o y' Hy Hb. eapply faithful_trans; [exact Hy|].
    by eapply run_batch_faithful.
  - apply faithful_refl.
Qed.

(** *** What the trace shows of each node *)

Lemma node_events_app k (tr1 tr2 : list Event) :
  node_events k (tr1 ++ tr2) = node_events k tr1 ++ node_events k tr2.
Proof. apply filter_app. Qed.

Lemma node_events_none k (tr : list Event) :
  Forall (fun e => about k e = false) tr -> node_events k tr = [].
Proof.
  intros Hn. apply filter_none. eapply Forall_impl; [exact Hn|].
  intros e He. by rewrite He.
Qed.

Lemma node_events_cons k e (tr : list Event) :
  node_events k (e :: tr)
  = (if about k e then [e] else []) ++ node_events k tr.
Proof.
  unfold node_events. destruct (about k e) eqn:He.
  - by rewrite filter_cons_True.
  - rewrite filter_cons_False; [done|]. by rewrite He.
Qed.

Lemma shown_same n : shown n n = [].
Proof. unfold shown. case_decide as Hp; [|done]. by rewrite Hp. Qed.

Lemma node_log_refl (x : Exec) : node_log (trace (x_world x)) (x_nodes x) x.
Proof.
  split; [done|]. exists []. rewrite app_nil_r. split; [done|].
  intros j n0 n Hj0 Hj. assert (n = n0) as -> by congruence.
  by rewrite shown_same.
Qed.

(** One step of a run: every node is as it was and nothing in the new
    events is about it, or it was pending when [execute] was called and the
    new events about it are what its change of status accounts for. *)
Lemma node_log_step tr0 ns0 x x' evs :
  node_log tr0 ns0 x ->
  trace (x_world x') = trace (x_world x) ++ evs ->
  length (x_nodes x') = length (x_nodes x) ->
  (forall j n0 n n', ns0 !! j = Some n0 -> x_nodes x !! j = Some n ->
     x_nodes x' !! j = Some n' ->
     id n = id n0 -> (status n0 <> pending -> n = n0) ->
     (n' = n /\ node_events (id n0) evs = [])
     \/ (status n0 = pending /\ id n' = id n
         /\ shown n0 n' = shown n0 n ++ node_events (id n0) evs)) ->
  node_log tr0 ns0 x'.
Proof.
  intros (Hlen & delta & Htr & Hlog) Htr' Hlen' Hstep.
  split; [congruence|]. exists (delta ++ evs).
  split; [by rewrite Htr', Htr, app_assoc|].
  intros j n0 n' Hj0 Hj'.
  destruct (lookup_counterpart (x_nodes x') (x_nodes x) j n') as [n Hj];
    [done|done|].
  destruct (Hlog j n0 n Hj0 Hj) as (Hid & Hsame & Hev).
  rewrite node_events_app, Hev.
  destruct (Hstep j n0 n n' Hj0 Hj Hj' Hid Hsame)
    as [[-> Hnone]|(Hp & Hid' & Hshown)].
  - rewrite Hnone, app_nil_r. done.
  - split; [congruence|]. split; [done|]. by rewrite Hshown.
Qed.

(** The events of a step that are about a node are about the node of the
    step only, when ids are pairwise distinct. *)
Lemma other_node_events ns0 i j n0 m0 evs :
  NoDup (map id ns0) -> ns0 !! i = Some m0 -> ns0 !! j = Some n0 -> j <> i ->
  (forall k, k <> id m0 -> node_events k evs = []) ->
  node_events (id n0) evs = [].
Proof.
  intros Hnd Hi Hj Hne Hev. apply Hev. intros Heq. apply Hne.
  eapply NoDup_lookup; [exact Hnd|..];
    change (map ?f ?l) with (f <$> l); rewrite list_lookup_fmap.
  - by rewrite Hj.
  - rewrite Hi. cbn. by rewrite Heq.
Qed.

Lemma about_other k k' : k <> k' -> String.eqb k' k = false.
Proof. intros Hne. apply String.eqb_neq. congruence. Qed.

Lemma executeNode_start_log tr0 ns0 i x node p x' :
  NoDup (map id ns0) ->
  node_log tr0 ns0 x ->
  x_nodes x !! i = Some node -> status node = pending ->
  executeNode_start i x = (p, x') ->
  node_log tr0 ns0 x'.
Proof.
  intros Hnd Hlog Hi Hp Hstart.
  destruct (executeNode_start_events i x node p x' Hi Hstart)
    as (logs & Htr & Hlogs & _).
  apply executeNode_start_spec in Hstart as (Hns & _).
  assert (forall k, node_events k logs = []) as Hlogs'.
  { intros k. apply node_events_none. eapply Forall_impl; [exact Hlogs|].
    by intros []. }
  assert (forall k,
            node_events k
              (EvExecuteNode (id node)
               :: EvStatuses (statuses (alter (with_status running) i (x_nodes x)))
               :: match opts ≫= onNodeStart with
                  | Some _ => [EvNodeStart (id node)]
                  | None => []
                  end ++ logs)
            = if String.eqb (id node) k then start_events (id node) else [])
    as Hev.
  { intros k. rewrite !node_events_cons, node_events_app, Hlogs'.
    unfold start_events. cbn [about].
    destruct (String.eqb (id node) k) eqn:Hk;
      destruct (opts ≫= onNodeStart); cbn;
      rewrite ?node_events_cons; cbn [about]; rewrite ?Hk; done. }
  eapply node_log_step; [exact Hlog|exact Htr|by rewrite Hns, length_alter|].
  intros j n0 n n' Hj0 Hj Hj' Hid Hsame. rewrite Hns in Hj'.
  destruct (decide (j = i)) as [->|Hne].
  - rewrite list_lookup_alter_eq, Hj in Hj'. injection Hj' as <-.
    assert (n = node) as -> by congruence.
    right. assert (status n0 = pending) as Hp0.
    { destruct (decide (status n0 = pending)) as [|Hn]; [done|].
      rewrite <- (Hsame Hn). done. }
    split; [done|]. split; [done|].
    rewrite Hev, <- Hid, String.eqb_refl. unfold shown.
    rewrite !decide_True by done. cbn [status with_status id]. rewrite Hp.
    done.
  - rewrite list_lookup_alter_ne, Hj in Hj' by done. injection Hj' as <-.
    left. split; [done|]. rewrite Hev.
    destruct (String.eqb (id node) (id n0)) eqn:Hk; [|done].
    apply String.eqb_eq in Hk. destruct Hne.
    destruct Hlog as (Hlen & d & _ & Hl).
    destruct (lookup_counterpart (x_nodes x) ns0 i node) as [m0 Hi0];
      [done|done|].
    destruct (Hl i m0 node Hi0 Hi) as (Hidm & _).
    eapply NoDup_lookup; [exact Hnd|..];
      change (map ?f ?l) with (f <$> l); rewrite list_lookup_fmap.
    + by rewrite Hj0.
    + rewrite Hi0. cbn. congruence.
Qed.

Lemma dispatch_log tr0 ns0 batch : forall x ps x',
  NoDup (map id ns0) -> NoDup batch ->
  (forall i, i ∈ batch ->
     exists n, x_nodes x !! i = Some n /\ status n = pending) ->
  node_log tr0 ns0 x ->
  dispatch batch x = (ps, x') ->
  node_log tr0 ns0 x'.
Proof.
  induction batch as [|i batch IH]; intros x ps x' Hnd Hb Hp Hlog;
    cbn [dispatch].
  - by intros [= <- <-].
  - destruct (executeNode_start i x) as [pr x1] eqn:Hstart.
    destruct (dispatch batch x1) as [ps1 x2] eqn:Hrest.
    intros [= <- <-]. apply NoDup_cons in Hb as [Hi Hb].
    destruct (Hp i ltac:(constructor)) as (node & Hn & Hst).
    eapply IH; [done|done| |by eapply executeNode_start_log|exact Hrest].
    intros j Hin. destruct (Hp j ltac:(by constructor)) as (m & Hm & Hstm).
    exists m. split; [|done].
    apply executeNode_start_spec in Hstart as (Hns & _).
    rewrite Hns, list_lookup_alter_ne; [done|]. by intros ->.
Qed.

(** The suspended calls write to the world only, and nothing about a
    node. *)
Lemma node_log_effects tr0 ns0 x (w : World) :
  node_log tr0 ns0 x ->
  since (trace (x_world x)) (trace w) (fun e => is_effect e = true) ->
  node_log tr0 ns0 (mkExec (x_nodes x) (x_results x) (x_proto x) w).
Proof.
  intros Hlog (evs & Htr & Hevs).
  eapply node_log_step; [exact Hlog|exact Htr|done|].
  intros j n0 n n' _ Hj Hj' _ _. left. split; [cbn in Hj'; congruence|].
  apply node_events_none. eapply Forall_impl; [exact Hevs|]. by intros [].
Qed.

Lemma settle_log tr0 ns0 i r x node x' :
  NoDup (map id ns0) ->
  node_log tr0 ns0 x ->
  x_nodes x !! i = Some node -> status node = running ->
  (forall n0, ns0 !! i = Some n0 -> status n0 = pending) ->
  settle i r x = inr x' ->
  node_log tr0 ns0 x'.
Proof.
  intros Hnd Hlog Hi Hrun Hp0 Hs.
  destruct (settle_spec i r x node x' Hi Hs) as (res & Hr & _ & _ & _ & Htr).
  pose proof (settle_lookup i r x node x' res Hi Hs Hr) as Hi'.
  destruct (settle_pointwise i r x x' Hs) as [_ Hpt].
  match type of Htr with _ = _ ++ ?l => set (evs := l) in * end.
  assert (forall k,
            node_events k evs
            = if String.eqb (id node) k then end_events (id node) (Some res)
              else []) as Hev.
  { intros k. subst evs. rewrite !node_events_app. unfold end_events.
    replace (node_events k (if decide (settled_status r = done) then []
                            else [EvStatuses (statuses (x_nodes x'))]))
      with (@nil Event) by (by case_decide).
    rewrite app_nil_r, node_events_cons. cbn [about app].
    change (node_events k []) with (@nil Event). cbn [app].
    destruct (opts ≫= onNodeEnd); [|by destruct (String.eqb _ _)].
    rewrite node_events_cons. cbn [about].
    change (node_events k []) with (@nil Event).
    by destruct (String.eqb (id node) k). }
  eapply node_log_step;
    [exact Hlog|exact Htr|by eapply settle_length|].
  intros j n0 n n' Hj0 Hj Hj' Hid Hsame.
  destruct (decide (j = i)) as [->|Hne].
  - assert (n = node) as -> by congruence.
    rewrite Hi' in Hj'. injection Hj' as <-.
    right. split; [by apply Hp0|]. split; [done|].
    rewrite Hev, <- Hid, String.eqb_refl. unfold shown.
    rewrite !decide_True by (by apply Hp0).
    cbn [status with_status with_result id result]. rewrite Hrun.
    by destruct (settled_status_cases r) as [-> | ->].
  - assert (node_events (id n0) evs = []) as Hnone.
    { rewrite Hev. destruct (String.eqb (id node) (id n0)) eqn:Hk; [|done].
      apply String.eqb_eq in Hk. destruct Hne.
      destruct Hlog as (Hlen & d & _ & Hl).
      destruct (lookup_counterpart (x_nodes x) ns0 i node) as [m0 Hi0];
        [done|done|].
      destruct (Hl i m0 node Hi0 Hi) as (Hidm & _).
      eapply NoDup_lookup; [exact Hnd|..];
        change (map ?f ?l) with (f <$> l); rewrite list_lookup_fmap.
      + by rewrite Hj0.
      + rewrite Hi0. cbn. congruence. }
    destruct (Hpt j n n' Hj Hj') as [[? _]|[_ [->|[Hpn ->]]]]; [done| |].
    + by left.
    + right. assert (status n0 = pending) as Hp.
      { destruct (decide (status n0 = pending)) as [|Hn]; [done|].
        rewrite <- (Hsame Hn). done. }
      split; [done|]. split; [done|]. rewrite Hnone, app_nil_r.
      unfold shown. rewrite !decide_True by done. cbn [status with_status].
      by rewrite Hpn.
Qed.

Lemma settle_all_log tr0 ns0 batch : forall rs x o x',
  NoDup (map id ns0) -> NoDup batch ->
  (forall i, i ∈ batch ->
     (exists n, x_nodes x !! i = Some n /\ status n = running)
     /\ forall n0, ns0 !! i = Some n0 -> status n0 = pending) ->
  node_log tr0 ns0 x ->
  settle_all batch rs x = (o, x') ->
  node_log tr0 ns0 x'.
Proof.
  induction batch as [|i batch IH]; intros [|r rs] x o x' Hnd Hb Hrun Hlog;
    cbn; try (by intros [= <- <-]).
  destruct (settle i r x) as [thrown|x1] eqn:Hs; [by intros [= <- <-]|].
  apply NoDup_cons in Hb as [Hi Hb].
  destruct (Hrun i ltac:(constructor)) as [(node & Hn & Hst) Hp0].
  intros Hrest. eapply IH; [done|done| | |exact Hrest].
  - intros j Hin. destruct (Hrun j ltac:(by constructor))
      as [(m & Hm & Hstm) Hpj]. split; [|done].
    destruct (lookup_counterpart (x_nodes x) (x_nodes x1) j m) as [m' Hm'];
      [by rewrite (settle_length _ _ _ _ Hs)|done|].
    destruct (settle_pointwise i r x x1 Hs) as [_ Hpt].
    destruct (Hpt j m m' Hm Hm') as [[-> _]|[_ [->|[Hpm _]]]];
      [done|by exists m|congruence].
  - by eapply settle_log.
Qed.

Lemma run_batch_log tr0 ns0 M x o x' :
  NoDup (map id ns0) ->
  node_log tr0 ns0 x ->
  run_batch M (readyNodes (x_nodes x)) x = (o, x') ->
  node_log tr0 ns0 x'.
Proof.
  intros Hnd Hlog. unfold run_batch.
  set (batch := slice0 M (readyNodes (x_nodes x))).
  assert (NoDup batch) as Hb by apply slice0_NoDup, readyNodes_NoDup.
  assert (forall i, i ∈ batch ->
            exists n, x_nodes x !! i = Some n /\ status n = pending) as Hbatch.
  { intros i Hin. by apply readyNodes_pending, (slice0_subseteq M). }
  destruct (dispatch batch x) as [promises x1] eqn:Hd.
  pose proof (dispatch_nodes _ _ _ _ Hd) as Hn1.
  pose proof (dispatch_log tr0 ns0 batch x promises x1 Hnd Hb Hbatch Hlog Hd)
    as Hlog1.
  apply dispatch_length in Hd as [Hlp Hlen1].
  destruct (allSettled (x_nodes x1) batch promises (x_world x1))
    as [results w2] eqn:Ha.
  apply allSettled_spec in Ha as (Hlr & Hs2); [|done].
  intros Hall. eapply settle_all_log; [done|done| | |exact Hall].
  - intros i Hin. destruct (Hbatch i Hin) as (n & Hi & Hp). split.
    + exists (with_status running n). cbn [x_nodes]. rewrite Hn1.
      rewrite decide_True by done. by rewrite Hi.
    + intros n0 Hi0. destruct Hlog as (_ & d & _ & Hl).
      destruct (Hl i n0 n Hi0 Hi) as (_ & Hsame & _).
      destruct (decide (status n0 = pending)) as [|Hne]; [done|].
      rewrite <- (Hsame Hne). done.
  - by apply node_log_effects.
Qed.

Lemma node_log_quiet tr0 ns0 x ns' evs :
  node_log tr0 ns0 x ->
  Forall (fun e => forall k, about k e = false) evs ->
  length ns' = length (x_nodes x) ->
  (forall j n n', x_nodes x !! j = Some n -> ns' !! j = Some n' ->
     n' = n \/ (status n = pending /\ n' = with_status skipped n)) ->
  node_log tr0 ns0
    (mkExec ns' (x_results x) (x_proto x) (emit evs (x_world x))).
Proof.
  intros Hlog Hq Hlen Hpt.
  assert (forall k, node_events k evs = []) as Hnone.
  { intros k. apply node_events_none. eapply Forall_impl; [exact Hq|].
    intros e He. apply He. }
  eapply node_log_step; [exact Hlog|done|done|].
  intros j n0 n n' Hj0 Hj Hj' Hid Hsame. cbn in Hj'.
  destruct (Hpt j n n' Hj Hj') as [->|[Hp ->]]; [by left|right].
  assert (status n0 = pending) as Hp0.
  { destruct (decide (status n0 = pending)) as [|Hn]; [done|].
    rewrite <- (Hsame Hn). done. }
  split; [done|]. split; [done|]. rewrite Hnone, app_nil_r.
  unfold shown. rewrite !decide_True by done. cbn [status with_status].
  by rewrite Hp.
Qed.

(** Over the whole loop, the events about each node are those its status
    accounts for. *)
Lemma execute_loop_log M fuel x ex x' :
  NoDup (map id (x_nodes x)) ->
  execute_loop M fuel x = Some (ex, x') ->
  node_log (trace (x_world x)) (x_nodes x) x'.
Proof.
  intros Hnd.
  apply (execute_loop_ind
           (fun y => node_log (trace (x_world x)) (x_nodes x) y) M).
  - intros y Hy. unfold abort.
    destruct (skip_pending_map (x_nodes y)) as (f & Heq & Hf).
    apply node_log_quiet; [done|by repeat constructor| |].
    + unfold skip_pending. by rewrite length_map.
    + intros j n n' Hj Hj'. rewrite Heq in Hj'.
      apply skip_map_lookup in Hj' as (m & Hm & Hcase); [|done].
      assert (m = n) as -> by congruence. done.
  - intros y msg Hy.
    pose proof (node_log_quiet _ _ y (x_nodes y) [EvLog LError msg []] Hy
                  ltac:(by repeat constructor) eq_refl) as Hq.
    apply Hq. intros j n n' Hj Hj'. left. congruence.
  - intros y o y' Hy Hb. by eapply run_batch_log.
  - apply node_log_refl.
Qed.

Lemma count_entry_node_events k (tr : list Event) :
  count_events (is_entry k) (node_events k tr) = count_events (is_entry k) tr.
Proof.
  induction tr as [|e tr IH]; [done|].
  rewrite node_events_cons, count_events_app, IH, (count_events_cons _ e tr).
  destruct e; cbn [about is_entry]; try done.
  all: destruct (String.eqb _ k) eqn:Hk; rewrite ?count_events_cons;
    cbn [is_entry]; rewrite ?Hk;
    change (count_events (is_entry k) []) with 0%nat; lia.
Qed.

Lemma count_entry_shown n0 n :
  id n = id n0 ->
  count_events (is_entry (id n0)) (shown n0 n)
  = if decide (status n0 = pending /\ started (status n)) then 1%nat else 0%nat.
Proof.
  intros Hid. unfold shown, started.
  destruct (decide (status n0 = pending)) as [Hp|Hp].
  2:{ rewrite decide_False; [done|]. by intros [? _]. }
  assert (count_events (is_entry (id n0)) (start_events (id n)) = 1%nat) as Hs.
  { unfold start_events. rewrite count_events_cons. cbn [is_entry].
    rewrite Hid, String.eqb_refl. by destruct (opts ≫= onNodeStart). }
  assert (count_events (is_entry (id n0)) (end_events (id n) (result n))
          = 0%nat) as He.
  { unfold end_events. by destruct (opts ≫= onNodeEnd), (result n). }
  destruct (status n) eqn:Hst.
  - rewrite decide_False; [done|]. by intros [_ [?|[?|?]]].
  - rewrite decide_True by auto. done.
  - rewrite decide_True by auto. by rewrite count_events_app, Hs, He.
  - rewrite decide_True by auto. by rewrite count_events_app, Hs, He.
  - rewrite decide_False; [done|]. by intros [_ [?|[?|?]]].
Qed.

(** What a run of [execute] that returns shows: the events it has added to
    the trace account for the change of the environment, and those about
    each node are what the node's status accounts for. *)
Lemma execute_shows fuel (g : TaskGraph) (w : World) res w' :
  NoDup (map id (nodes g)) ->
  execute fuel g w = Some (Fulfilled res, w') ->
  exists delta,
    trace w' = trace w ++ delta
    /\ replays delta (env w) (env w')
    /\ forall j n0 n,
         nodes g !! j = Some n0 -> nodes (graph res) !! j = Some n ->
         id n = id n0 /\ node_events (id n0) delta = shown n0 n.
Proof.
  intros Hnd Hrun.
  apply execute_fulfilled in Hrun as (ex & x & Hloop & Hex & -> & ->).
  pose proof (execute_loop_faithful _ _ _ _ _ Hloop) as (delta & Htr & Hrep).
  apply execute_loop_log in Hloop as (_ & delta' & Htr' & Hlog); [|done].
  cbn [initial x_world x_nodes] in *.
  assert (delta' = delta) as ->.
  { rewrite Htr in Htr'. by apply app_inv_head in Htr'. }
  exists delta. split; [done|]. split; [done|].
  intros j n0 n Hj0 Hj. cbn [graph nodes] in Hj.
  by destruct (Hlog j n0 n Hj0 Hj) as (Hid & _ & Hev).
Qed.

(** X10. No node is dispatched twice. In a run of [execute] on a graph with
    pairwise distinct ids, [executeNode] is entered at most once for each
    node, whatever the agents answer and however often they are retried:
    once for a node that was pending and has been started, and never for any
    other node, so never for one that is skipped, left pending, or was done
    or failed already. *)
Theorem nodes_dispatched_at_most_once (fuel : nat) (g : TaskGraph)
    (w : World) res w' :
  NoDup (map id (nodes g)) ->
  execute fuel g w = Some (Fulfilled res, w') ->
  exists delta,
    trace w' = trace w ++ delta
    /\ forall j n0 n,
         nodes g !! j = Some n0 -> nodes (graph res) !! j = Some n ->
         (count_events (is_entry (id n0)) delta <= 1)%nat
         /\ (count_events (is_entry (id n0)) delta = 1%nat
             <-> status n0 = pending /\ started (status n)).
Proof.
  intros Hnd Hrun.
  destruct (execute_shows fuel g w res w' Hnd Hrun)
    as (delta & Htr & _ & Hlog).
  exists delta. split; [done|]. intros j n0 n Hj0 Hj.
  destruct (Hlog j n0 n Hj0 Hj) as [Hid Hev].
  rewrite <- count_entry_node_events, Hev, (count_entry_shown n0 n Hid).
  case_decide; split; try lia; done.
Qed.

(** X11. The callbacks are paired with the dispatches, node by node. In a
    run of [execute] on a graph with pairwise distinct ids, the events about
    a node that was pending and ends done or failed are, in this order: the
    entry into [executeNode], the call of [onNodeStart] with its id when the
    options hold that callback, and the call of [onNodeEnd] with its id and
    the result it holds when the options hold that one. About a node that
    ends skipped or pending, or that was not pending, there is none: neither
    callback is called for it. The calls are calls: the events of the run,
    replayed in their order with a callback event standing for the callback
    applied to its arguments, take the environment from what it was to what
    it is when [execute] returns. *)
Theorem callbacks_paired_with_dispatches (fuel : nat) (g : TaskGraph)
    (w : World) res w' :
  NoDup (map id (nodes g)) ->
  execute fuel g w = Some (Fulfilled res, w') ->
  exists delta,
    trace w' = trace w ++ delta
    /\ replays delta (env w) (env w')
    /\ forall j n0 n,
         nodes g !! j = Some n0 -> nodes (graph res) !! j = Some n ->
         node_events (id n0) delta = shown n0 n
         /\ (status n0 = pending -> status n = done \/ status n = failed ->
             node_events (id n0) delta
             = EvExecuteNode (id n0)
               :: match opts ≫= onNodeStart with
                  | Some _ => [EvNodeStart (id n0)]
                  | None => []
                  end
               ++ match opts ≫= onNodeEnd, result n with
                  | Some _, Some r => [EvNodeEnd (id n0) r]
                  | _, _ => []
                  end)
         /\ (status n0 <> pending \/ status n = skipped \/ status n = pending ->
             node_events (id n0) delta = []).
Proof.
  intros Hnd Hrun.
  destruct (execute_shows fuel g w res w' Hnd Hrun)
    as (delta & Htr & Hrep & Hlog).
  exists delta. split; [done|]. split; [done|]. intros j n0 n Hj0 Hj.
  destruct (Hlog j n0 n Hj0 Hj) as [Hid Hev]. split; [done|].
  rewrite Hev. unfold shown, start_events, end_events. rewrite Hid. split.
  - intros Hp Hst. rewrite decide_True by done.
    by destruct Hst as [-> | ->].
  - intros Hcase. case_decide as Hp; [|done].
    by destruct Hcase as [?|[-> | ->]].
Qed.




(** ** The executor: a node whose execution rejects *)











(** ** The executor: [nodeResults] and the results the nodes hold *)

Lemma settled_status_result r res :
  settled_result r = inr res ->
  settled_status r = if decide (r_status res = ok) then done else failed.
Proof.
  destruct r as [res'|reason]; cbn.
  - intros [= <-]. destruct (decide (r_status res' = ok));
      [by rewrite bool_decide_eq_true_2|by rewrite bool_decide_eq_false_2].
  - destruct (String_ reason); [done|]. by intros [= <-].
Qed.

Lemma settle_mirror i r x x' :
  settle i r x = inr x' -> results_mirror x -> results_mirror x'.
Proof.
  intros Hs [HR HP]. destruct (x_nodes x !! i) as [node|] eqn:Hi;
    [|rewrite settle_None in Hs by done; by injection Hs as <-].
  destruct (settle_spec i r x node x' Hi Hs) as (res & Hr & _ & Hres & _).
  destruct (settle_env i r x node x' res Hi Hs Hr) as [_ Hproto].
  pose proof (settle_lookup i r x node x' res Hi Hs Hr) as Hi'.
  pose proof (settled_status_result r res Hr) as Hst'.
  destruct (settle_pointwise i r x x' Hs) as [_ Hpt].
  assert (forall j n, x_nodes x !! j = Some n ->
            (exists r0, result n = Some r0
               /\ status n = if decide (r_status r0 = ok) then done else failed)
            -> j <> i -> x_nodes x' !! j = Some n) as Hkeep.
  { intros j n Hj (r0 & _ & Hst) Hne.
    destruct (lookup_counterpart (x_nodes x) (x_nodes x') j n)
      as [n' Hj']; [by rewrite (settle_length _ _ _ _ Hs)|done|].
    destruct (Hpt j n n' Hj Hj') as [[-> _]|[_ [->|[Hp _]]]]; [done|done|].
    rewrite Hp in Hst. by case_decide. }
  split.
  - intros k r0 Hk. rewrite Hres in Hk.
    destruct (String.eqb (id node) proto_key) eqn:Hp.
    + destruct (HR k r0 Hk) as (Hne & j & n & Hj & Hid & Hr0 & Hst).
      split; [done|]. destruct (decide (j = i)) as [->|Hji].
      * rewrite Hi in Hj. injection Hj as <-.
        apply String.eqb_eq in Hp. congruence.
      * exists j, n. split; [|done]. apply Hkeep; [done|by eexists|done].
    + apply String.eqb_neq in Hp.
      destruct (decide (id node = k)) as [<-|Hne].
      * rewrite lookup_insert_eq in Hk. injection Hk as <-.
        split; [done|]. eexists i, _. split; [exact Hi'|]. by cbn.
      * rewrite lookup_insert_ne in Hk by done.
        destruct (HR k r0 Hk) as (Hnk & j & n & Hj & Hid & Hr0 & Hst).
        split; [done|]. destruct (decide (j = i)) as [->|Hji].
        -- rewrite Hi in Hj. injection Hj as <-. congruence.
        -- exists j, n. split; [|done]. apply Hkeep; [done|by eexists|done].
  - intros r0 Hk. rewrite Hproto in Hk.
    destruct (String.eqb (id node) proto_key) eqn:Hp.
    + injection Hk as <-. apply String.eqb_eq in Hp.
      eexists i, _. split; [exact Hi'|]. by cbn.
    + apply String.eqb_neq in Hp.
      destruct (HP r0 Hk) as (j & n & Hj & Hid & Hr0 & Hst).
      destruct (decide (j = i)) as [->|Hji].
      * rewrite Hi in Hj. injection Hj as <-. congruence.
      * exists j, n. split; [|done]. apply Hkeep; [done|by eexists|done].
Qed.

Lemma settle_recorded i r x x' :
  NoDup (map id (x_nodes x)) ->
  settle i r x = inr x' ->
  nodes_recorded x -> nodes_recorded x'.
Proof.
  intros Hnd Hs HR. destruct (x_nodes x !! i) as [node|] eqn:Hi;
    [|rewrite settle_None in Hs by done; by injection Hs as <-].
  destruct (settle_spec i r x node x' Hi Hs) as (res & Hr & _ & Hres & _).
  destruct (settle_env i r x node x' res Hi Hs Hr) as [_ Hproto].
  intros j n' Hj' Hst.
  destruct (lookup_counterpart (x_nodes x') (x_nodes x) j n')
    as [n Hj]; [by rewrite (settle_length _ _ _ _ Hs)|done|].
  destruct (decide (j = i)) as [->|Hne].
  - rewrite (settle_lookup _ _ _ _ _ _ Hi Hs Hr) in Hj'. injection Hj' as <-.
    cbn. exists res. split; [done|].
    split; [by apply settled_status_result|].
    rewrite Hres, Hproto. destruct (String.eqb (id node) proto_key); [done|].
    apply lookup_insert_eq.
  - destruct (settle_pointwise i r x x' Hs) as [_ Hpt].
    destruct (Hpt j n n' Hj Hj') as [[? _]|[_ [->|[_ ->]]]]; [done| |].
    + destruct (HR j n Hj Hst) as (r0 & Hr0 & Hst0 & Hk). exists r0.
      split; [done|]. split; [done|].
      assert (id n <> id node) as Hid.
      { intros Heq. apply Hne.
        eapply NoDup_lookup; [exact Hnd|..].
        * change (map ?f ?l) with (f <$> l). by rewrite list_lookup_fmap, Hj.
        * change (map ?f ?l) with (f <$> l). rewrite list_lookup_fmap, Hi.
          cbn. by rewrite Heq. }
      rewrite Hres, Hproto.
      destruct (String.eqb (id n) proto_key) eqn:Hn,
        (String.eqb (id node) proto_key) eqn:Hp; try done.
      * apply String.eqb_eq in Hn, Hp. congruence.
      * by rewrite lookup_insert_ne.
    + by destruct Hst.
Qed.

Lemma settle_all_mirror batch : forall rs x o x',
  settle_all batch rs x = (o, x') -> results_mirror x -> results_mirror x'.
Proof.
  induction batch as [|i batch IH]; intros [|r rs] x o x'; cbn;
    try (by intros [= <- <-]).
  destruct (settle i r x) as [thrown|x1] eqn:Hs; [by intros [= <- <-]|].
  intros Hrest HR. eapply IH; [exact Hrest|]. by eapply settle_mirror.
Qed.

Lemma settle_all_recorded batch : forall rs x o x',
  NoDup (map id (x_nodes x)) ->
  settle_all batch rs x = (o, x') ->
  nodes_recorded x -> nodes_recorded x'.
Proof.
  induction batch as [|i batch IH]; intros [|r rs] x o x' Hnd; cbn;
    try (by intros [= <- <-]).
  destruct (settle i r x) as [thrown|x1] eqn:Hs; [by intros [= <- <-]|].
  intros Hrest HR. eapply IH; [|exact Hrest|by eapply settle_recorded].
  destruct (settle_pointwise i r x x1 Hs) as [Hid _]. by rewrite Hid.
Qed.

(** The nodes that are done or failed are the same before and after
    [batch.map] over pending nodes. *)
Lemma dispatch_settled batch x ps x' :
  (forall i, i ∈ batch ->
     exists n, x_nodes x !! i = Some n /\ status n = pending) ->
  dispatch batch x = (ps, x') ->
  forall j n, status n = done \/ status n = failed ->
    x_nodes x' !! j = Some n <-> x_nodes x !! j = Some n.
Proof.
  intros Hp Hd j n Hst. rewrite (dispatch_nodes _ _ _ _ Hd j).
  case_decide as Hin; [|done].
  destruct (Hp j Hin) as (m & -> & Hm). cbn. split.
  - intros [= <-]. by destruct Hst.
  - intros [= <-]. rewrite Hm in Hst. by destruct Hst.
Qed.

Lemma dispatch_proto batch : forall x ps x',
  dispatch batch x = (ps, x') -> x_proto x' = x_proto x.
Proof.
  induction batch as [|i batch IH]; intros x ps x'; cbn.
  - by intros [= <- <-].
  - destruct (executeNode_start i x) as [p x1] eqn:Hstart.
    destruct (dispatch batch x1) as [ps1 x2] eqn:Hrest.
    intros [= <- <-]. rewrite (IH _ _ _ Hrest).
    unfold executeNode_start in Hstart.
    destruct (x_nodes x !! i); [|by injection Hstart as <- <-].
    destruct (resolve_agent _); [destruct (cache_check _ _)|];
      by injection Hstart as <- <-.
Qed.

Lemma run_batch_mirror M x o x' :
  run_batch M (readyNodes (x_nodes x)) x = (o, x') ->
  results_mirror x -> results_mirror x'.
Proof.
  unfold run_batch.
  set (batch := slice0 M (readyNodes (x_nodes x))).
  assert (forall i, i ∈ batch ->
            exists n, x_nodes x !! i = Some n /\ status n = pending) as Hbatch.
  { intros i Hin. by apply readyNodes_pending, (slice0_subseteq M). }
  destruct (dispatch batch x) as [promises x1] eqn:Hd.
  pose proof (dispatch_settled _ _ _ _ Hbatch Hd) as Hsame.
  pose proof (dispatch_proto _ _ _ _ Hd) as Hproto1.
  apply dispatch_inv in Hd as (Hres1 & _).
  destruct (allSettled _ _ _ _) as [results w2].
  intros Hall [HR HP]. eapply settle_all_mirror; [exact Hall|].
  split.
  - intros k r Hk. cbn in Hk |- *. rewrite Hres1 in Hk.
    destruct (HR k r Hk) as (Hne & j & n & Hj & Hid & Hr & Hst).
    split; [done|]. exists j, n. split; [|done]. apply Hsame; [|done].
    rewrite Hst. case_decide; auto.
  - intros r Hk. cbn in Hk |- *. rewrite Hproto1 in Hk.
    destruct (HP r Hk) as (j & n & Hj & Hid & Hr & Hst).
    exists j, n. split; [|done]. apply Hsame; [|done].
    rewrite Hst. case_decide; auto.
Qed.

Lemma run_batch_recorded M x o x' :
  NoDup (map id (x_nodes x)) ->
  run_batch M (readyNodes (x_nodes x)) x = (o, x') ->
  nodes_recorded x -> nodes_recorded x'.
Proof.
  intros Hnd. unfold run_batch.
  set (batch := slice0 M (readyNodes (x_nodes x))).
  assert (forall i, i ∈ batch ->
            exists n, x_nodes x !! i = Some n /\ status n = pending) as Hbatch.
  { intros i Hin. by apply readyNodes_pending, (slice0_subseteq M). }
  destruct (dispatch batch x) as [promises x1] eqn:Hd.
  pose proof (dispatch_settled _ _ _ _ Hbatch Hd) as Hsame.
  pose proof (dispatch_proto _ _ _ _ Hd) as Hproto1.
  apply dispatch_inv in Hd as (Hres1 & Hid1 & _).
  destruct (allSettled _ _ _ _) as [results w2].
  intros Hall HR.
  eapply settle_all_recorded; [|exact Hall|]; [cbn; by rewrite Hid1|].
  intros j n Hj Hst. cbn in Hj |- *. rewrite Hres1, Hproto1.
  apply (HR j n); [|done]. by apply Hsame.
Qed.

Lemma abort_settled x j n :
  status n = done \/ status n = failed ->
  x_nodes (abort x) !! j = Some n <-> x_nodes x !! j = Some n.
Proof.
  intros Hst. cbn. unfold skip_pending. rewrite lookup_map.
  destruct (x_nodes x !! j) as [m|]; [|done]. cbn. unfold status_eqb.
  case_bool_decide as Hm; [|done]. split.
  - intros [= <-]. by destruct Hst.
  - intros [= <-]. rewrite Hm in Hst. by destruct Hst.
Qed.

Lemma execute_loop_results M fuel x ex x' :
  NoDup (map id (x_nodes x)) ->
  results_mirror x -> nodes_recorded x ->
  execute_loop M fuel x = Some (ex, x') ->
  NoDup (map id (x_nodes x')) /\ results_mirror x' /\ nodes_recorded x'.
Proof.
  intros Hnd HR1 HR2.
  apply (execute_loop_ind
           (fun y => NoDup (map id (x_nodes y))
                     /\ results_mirror y /\ nodes_recorded y) M); [| | |done].
  - intros y (Hn & [H1 H1'] & H2). split; [|split; [split|]].
    + by rewrite (Forall2_kept_ids _ _ (abort_kept y)).
    + intros k r Hk.
      destruct (H1 k r Hk) as (Hne & j & n & Hj & Hid & Hr & Hst).
      split; [done|]. exists j, n. split; [|done]. apply abort_settled; [|done].
      rewrite Hst. case_decide; auto.
    + intros r Hk. destruct (H1' r Hk) as (j & n & Hj & Hid & Hr & Hst).
      exists j, n. split; [|done]. apply abort_settled; [|done].
      rewrite Hst. case_decide; auto.
    + intros j n Hj Hst. apply (H2 j n); [|done]. by apply abort_settled.
  - intros y msg Hy. exact Hy.
  - intros y o y' (Hn & H1 & H2) Hb. split; [|split].
    + by rewrite (Forall2_kept_ids _ _ (run_batch_kept M y o y' Hb)).
    + by eapply run_batch_mirror.
    + by eapply run_batch_recorded.
Qed.

(** X13. [nodeResults] mirrors the graph. For a graph with pairwise distinct
    ids in which no node is done or failed when [execute] is called, the
    entries of the [nodeResults] that [execute] returns are exactly the
    results of the nodes that ended done or failed, under their ids, but
    for a node whose id is [__proto__]: that node has no entry, and its
    result is the prototype of [nodeResults] instead. A node that is done
    holds an [ok] result, and one that failed an [error] result. *)
Theorem nodeResults_mirror_nodes (fuel : nat) (g : TaskGraph) (w : World)
    res w' :
  NoDup (map id (nodes g)) ->
  Forall (fun n => status n <> done /\ status n <> failed) (nodes g) ->
  execute fuel g w = Some (Fulfilled res, w') ->
  (forall k r,
     nodeResults res !! k = Some r
     <-> k <> proto_key
         /\ exists n, n ∈ nodes (graph res) /\ id n = k
              /\ (status n = done \/ status n = failed) /\ result n = Some r)
  /\ (forall r,
       nodeResults_proto res = Some r
       <-> exists n, n ∈ nodes (graph res) /\ id n = proto_key
             /\ (status n = done \/ status n = failed) /\ result n = Some r)
  /\ (forall n, n ∈ nodes (graph res) ->
        (status n = done -> exists r, result n = Some r /\ r_status r = ok)
        /\ (status n = failed ->
            exists r, result n = Some r /\ r_status r = error)).
Proof.
  intros Hnd Hinit Hrun.
  apply execute_fulfilled in Hrun as (ex & x & Hloop & Hex & -> & ->).
  cbn [graph nodes nodeResults nodeResults_proto].
  apply execute_loop_results in Hloop as (Hnd' & [H1 H1'] & H2); [|done| |].
  2:{ split; [intros k r Hk; cbn in Hk; by rewrite lookup_empty in Hk|done]. }
  2:{ intros j n Hj Hst. cbn in Hj. rewrite Forall_forall in Hinit.
      destruct (Hinit n) as [? ?]; [by eapply list_elem_of_lookup_2|].
      by destruct Hst. }
  split; [|split].
  - intros k r. split.
    + intros Hk. destruct (H1 k r Hk) as (Hne & j & n & Hj & Hid & Hr & Hst).
      split; [done|].
      exists n. split; [by eapply list_elem_of_lookup_2|].
      split; [done|]. split; [|done]. rewrite Hst. case_decide; auto.
    + intros (Hne & n & Hin & <- & Hst & Hr).
      apply list_elem_of_lookup in Hin as [j Hj].
      destruct (H2 j n Hj Hst) as (r0 & Hr0 & _ & Hk).
      apply String.eqb_neq in Hne. rewrite Hne in Hk. congruence.
  - intros r. split.
    + intros Hk. destruct (H1' r Hk) as (j & n & Hj & Hid & Hr & Hst).
      exists n. split; [by eapply list_elem_of_lookup_2|].
      split; [done|]. split; [|done]. rewrite Hst. case_decide; auto.
    + intros (n & Hin & Hid & Hst & Hr).
      apply list_elem_of_lookup in Hin as [j Hj].
      destruct (H2 j n Hj Hst) as (r0 & Hr0 & _ & Hk).
      apply String.eqb_eq in Hid. rewrite Hid in Hk. congruence.
  - intros n Hin. apply list_elem_of_lookup in Hin as [j Hj].
    split; intros Hst.
    + destruct (H2 j n Hj ltac:(by left)) as (r & Hr & Hst' & _). exists r.
      split; [done|]. rewrite Hst in Hst'. by case_decide.
    + destruct (H2 j n Hj ltac:(by right)) as (r & Hr & Hst' & _). exists r.
      split; [done|]. rewrite Hst in Hst'. case_decide; [done|].
      by destruct (r_status r).
Qed.

(** ** The executor: the cache from one execution to the next *)

(** After a cache miss and an [ok] answer of the agent, the cache holds the
    output under the key, stamped with the time at which [executeNode]
    ends. *)
Lemma executeNode_stores i x node agent result_ x1 :
  x_nodes x !! i = Some node ->
  resolve_agent node = Some agent ->
  cache_enabled cfg = true ->
  cache_check (taskKey (task node) (name agent))
    (call_onNodeStart (id node) (x_world x)) = None ->
  executeNode i x = (Fulfilled result_, x1) ->
  r_status result_ = ok ->
  taskCache (x_world x1)
  = <[taskKey (task node) (name agent)
      := mkEntry (output result_) (Date_now (env (x_world x1)))]>
      (taskCache (x_world x)).
Proof.
  intros Hi Hagent Hen Hmiss. unfold executeNode.
  destruct (executeNode_start i x) as [p x0] eqn:Hstart.
  pose proof (executeNode_start_cases _ _ _ _ _ _ Hi Hagent Hstart) as [_ Hp].
  rewrite Hmiss in Hp. subst p.
  apply executeNode_start_spec in Hstart as (Hns & _ & Hc0 & _).
  rewrite Hns, list_lookup_alter_eq, Hi. cbn [fmap option_fmap option_map].
  unfold executeNode_resume.
  set (w1 := if rateLimit_enabled cfg then _ else _).
  assert (taskCache w1 = taskCache (x_world x)) as Hcw1
    by (subst w1; by destruct (rateLimit_enabled cfg)).
  destruct (invoke_agent agent (with_status running node) w1) as [r2 w2]
    eqn:Hrun.
  apply invoke_agent_spec in Hrun as (_ & _ & _ & _ & Hc2 & _).
  destruct r2 as [res|reason]; [|done]. intros [= -> <-] Hok.
  rewrite Hen, bool_decide_eq_true_2 by done. cbn.
  by rewrite Hc2, Hcw1.
Qed.

(** X14. What an agent answered is served from the cache afterwards. When
    [executeNode] has missed the cache, called the agent and got an [ok]
    result, a later [executeNode] for any node with the same task text that
    resolves to an agent of the same name, run while the entry is still in
    the cache and less than [ttl] after it was stored, fulfils with that
    output without calling the agent or the rate limiter. *)
Theorem cached_result_is_reused (i j : nat) (x x1 x2 : Exec)
    (node node2 : TaskNode) (agent agent2 : AgentAdapter)
    (result_ : TaskResult) :
  let key := taskKey (task node) (name agent) in
  cache_enabled cfg = true ->
  x_nodes x !! i = Some node ->
  resolve_agent node = Some agent ->
  cache_check key (call_onNodeStart (id node) (x_world x)) = None ->
  executeNode i x = (Fulfilled result_, x1) ->
  r_status result_ = ok ->
  x_nodes x2 !! j = Some node2 ->
  resolve_agent node2 = Some agent2 ->
  task node2 = task node ->
  name agent2 = name agent ->
  taskCache (x_world x2) !! key = taskCache (x_world x1) !! key ->
  Date_now (env (call_onNodeStart (id node2) (x_world x2)))
  - Date_now (env (x_world x1)) < cache_ttl cfg ->
  exists x3 tr,
    executeNode j x2 = (Fulfilled (mkResult ok (output result_)), x3)
    /\ taskCache (x_world x3) = taskCache (x_world x2)
    /\ trace (x_world x3) = trace (x_world x2) ++ tr
    /\ count_events is_invoke tr = 0%nat
    /\ count_events is_acquire tr = 0%nat.
Proof.
  intros key Hen Hi Hagent Hmiss Hrun Hok Hj Hagent2 Htask Hname Hsame Hfresh.
  pose proof (executeNode_stores _ _ _ _ _ _ Hi Hagent Hen Hmiss Hrun Hok)
    as Hstored. fold key in Hstored.
  unfold executeNode.
  destruct (executeNode_start j x2) as [p x3] eqn:Hstart.
  pose proof (executeNode_start_cases _ _ _ _ _ _ Hj Hagent2 Hstart)
    as [_ Hp].
  rewrite Htask, Hname in Hp. fold key in Hp.
  assert (cache_check key (call_onNodeStart (id node2) (x_world x2))
          = Some (output result_)) as Hhit.
  { unfold cache_check, cache_get. rewrite Hen.
    assert (taskCache (call_onNodeStart (id node2) (x_world x2))
            = taskCache (x_world x2)) as ->
      by (unfold call_onNodeStart; by destruct (opts ≫= onNodeStart)).
    rewrite Hsame, Hstored, lookup_insert_eq. cbn.
    destruct (Z.ltb_spec
      (Date_now (env (call_onNodeStart (id node2) (x_world x2)))
       - Date_now (env (x_world x1))) (cache_ttl cfg)); [done|lia]. }
  rewrite Hhit in Hp. subst p.
  apply executeNode_start_spec in Hstart
    as (_ & _ & Hc & notes & Hnotes & Htr).
  rewrite Hj in Htr. eexists x3, _. split; [done|]. split; [done|].
  split; [exact Htr|].
  rewrite !count_events_cons. cbn.
  split; (apply count_events_notes; [done|by intros []]).
Qed.

(** ** The planner: where the plan comes from *)

Local Open Scope string_scope.

(** X16. A planner with neither a planner agent nor a gateway fails every
    [plan] with [CONFIG_MISSING], before anything is called: the world is as
    it was. *)
Theorem plan_without_llm_source (goal_ : string) (w : World) :
  plannerAgent planner = None ->
  gateway planner = None ->
  exists e,
    plan goal_ w = (Rejected e, w)
    /\ error_code e = Some CONFIG_MISSING
    /\ String_ e
       = inr "ConfigError: No LLM source configured. Provide a gateway or plannerAgent.".
Proof.
  intros Ha Hg. eexists. unfold plan, callLlm. rewrite Ha, Hg.
  split; [reflexivity|]. split; reflexivity.
Qed.

(** The node a planner agent is asked to execute. *)
Lemma callLlm_agent prompt agent (w : World) r w' :
  plannerAgent planner = Some agent ->
  callLlm prompt w = (r, w') ->
  exists res,
    execute_ agent
      (mkNode "plan" (PLANNER_SYSTEM_PROMPT ++ nl ++ nl ++ prompt) []
         None pending None None) (env w) = (res, env w')
    /\ taskCache w' = taskCache w
    /\ trace w' = (trace w ++ [EvInvoke (name agent) "plan"; settle_event res])%list
    /\ r = match res with
           | Fulfilled result_ =>
               if decide (r_status result_ = ok)
               then Fulfilled (output result_)
               else Rejected (AgentError
                                ("Planner agent failed: " ++ output result_))
           | Rejected reason => Rejected reason
           end.
Proof.
  intros Ha. unfold callLlm. rewrite Ha.
  destruct (observed _ _ _ w) as [res w1] eqn:Hobs.
  apply observed_spec in Hobs as (Hf & Hc & Htr). cbn [id] in Htr.
  destruct res as [result_|reason].
  - destruct (decide (r_status result_ = ok)) as [Hok|Hok].
    + rewrite bool_decide_eq_true_2 by done. intros [= <- <-].
      exists (Fulfilled result_). by rewrite decide_True.
    + rewrite bool_decide_eq_false_2 by done. intros [= <- <-].
      exists (Fulfilled result_). by rewrite decide_False.
  - intros [= <- <-]. by exists (Rejected reason).
Qed.

(** X17. The planner agent comes first. When one is configured, [callLlm]
    asks it, once, to execute a node named [plan] whose task is the system
    prompt, an empty line and the prompt, and the gateway is not used (no
    session id is drawn, whatever gateway the options hold): an [ok] result
    gives its output; any other result is thrown as an [AgentError] with
    the code [AGENT_EXECUTION_FAILED]; a rejection is passed on as it is. *)
Theorem planner_agent_comes_first (prompt : string) (agent : AgentAdapter)
    (w : World) r w' :
  plannerAgent planner = Some agent ->
  callLlm prompt w = (r, w') ->
  exists res,
    execute_ agent
      (mkNode "plan" (PLANNER_SYSTEM_PROMPT ++ nl ++ nl ++ prompt) []
         None pending None None) (env w) = (res, env w')
    /\ taskCache w' = taskCache w
    /\ trace w' = (trace w ++ [EvInvoke (name agent) "plan"; settle_event res])%list
    /\ (forall result_, res = Fulfilled result_ -> r_status result_ = ok ->
          r = Fulfilled (output result_))
    /\ (forall result_, res = Fulfilled result_ -> r_status result_ <> ok ->
          exists e, r = Rejected e
            /\ error_code e = Some AGENT_EXECUTION_FAILED
            /\ String_ e
               = inr ("AgentError: Planner agent failed: " ++ output result_))
    /\ (forall reason, res = Rejected reason -> r = Rejected reason).
Proof.
  intros Ha Hrun.
  destruct (callLlm_agent _ _ _ _ _ Ha Hrun) as (res & Hf & Hc & Htr & Hr).
  exists res. split; [done|]. split; [done|]. split; [done|].
  split; [|split].
  - intros result_ -> Hok. by rewrite decide_True in Hr.
  - intros result_ -> Hok. rewrite decide_False in Hr by done.
    eexists. split; [exact Hr|]. split; [done|].
    unfold AgentError, String_, error_toString. done.
  - by intros reason ->.
Qed.

Lemma callLlm_trace prompt (w : World) r w' :
  callLlm prompt w = (r, w') ->
  taskCache w' = taskCache w
  /\ exists delta,
       trace w' = (trace w ++ delta)%list
       /\ count_events is_invoke delta
          = match plannerAgent planner, gateway planner with
            | None, None => 0%nat
            | _, _ => 1%nat
            end
       /\ count_events is_sleep delta = 0%nat
       /\ count_events is_log delta = 0%nat.
Proof.
  destruct (plannerAgent planner) as [agent|] eqn:Ha.
  { intros Hrun.
    destruct (callLlm_agent _ _ _ _ _ Ha Hrun) as (res & _ & Hc & Htr & _).
    split; [done|]. eexists. split; [exact Htr|].
    rewrite !count_events_cons. by destruct res. }
  unfold callLlm. rewrite Ha. destruct (gateway planner) as [gw|].
  - destruct (randomUUID (env w)) as [uuid e].
    destruct (observed _ _ _ _) as [res w1] eqn:Hobs.
    apply observed_spec in Hobs as (_ & Hc & Htr). intros [= <- <-].
    split; [done|]. eexists. split; [exact Htr|].
    rewrite !count_events_cons. by destruct res.
  - intros [= <- <-]. split; [done|]. exists []. by rewrite app_nil_r.
Qed.

(** X18. A [plan] asks the model once: the planner agent or the gateway is
    called exactly once when one is configured, there is no retry and no
    wait, whatever comes back, and the task cache is not touched; the only
    line logged is the one for a response that is not JSON. *)
Theorem plan_asks_once (goal_ : string) (w : World) r w' :
  plan goal_ w = (r, w') ->
  taskCache w' = taskCache w
  /\ exists delta,
       trace w' = (trace w ++ delta)%list
       /\ count_events is_invoke delta
          = match plannerAgent planner, gateway planner with
            | None, None => 0%nat
            | _, _ => 1%nat
            end
       /\ count_events is_sleep delta = 0%nat
       /\ (count_events is_log delta <= 1)%nat
       /\ (forall g, r = Fulfilled g -> count_events is_log delta = 0%nat).
Proof.
  unfold plan. destruct (callLlm (buildPrompt goal_) w) as [r1 w1] eqn:Hllm.
  apply callLlm_trace in Hllm as (Hc & delta & Htr & Hinv & Hsl & Hlog).
  destruct r1 as [raw|reason].
  2:{ intros [= <- <-]. split; [done|]. exists delta.
      rewrite Hlog. repeat split; try done; lia. }
  unfold parseResponse. destruct (JSON_parse (clean_response raw)) as [err|parsed].
  - intros [= <- <-]. split; [done|].
    exists (delta ++ [EvLog LError "Failed to parse planner response"
                        [("raw", slice_to 500 raw)]])%list.
    split; [cbn; by rewrite Htr, app_assoc|].
    rewrite !count_events_app, Hinv, Hsl, Hlog, !count_events_cons. cbn.
    destruct (plannerAgent planner), (gateway planner); repeat split; done || lia.
  - destruct (parseOrThrow _ _ _) as [resp|reason];
      [destruct (createTaskGraph _ _ _)|];
      intros [= <- <-]; (split; [done|]); exists delta; rewrite Hlog;
      repeat split; try done; lia.
Qed.

Lemma PlannerNodeSchema_nonempty v n :
  PlannerNodeSchema v = Some n -> pn_id n <> "" /\ pn_task n <> "".
Proof.
  unfold PlannerNodeSchema. destruct v as [[| | | | |o]|]; try done.
  destruct (z_minLength 1 z_string (o !! "id")) as [i|] eqn:Hi; [|done].
  destruct (z_minLength 1 z_string (o !! "task")) as [t|] eqn:Ht; [|done].
  cbn.
  destruct (z_default [] (z_array z_string) (o !! "dependsOn")); [|done].
  destruct (z_optional z_string (o !! "assignTo")); [|done].
  intros [= <-]. cbn.
  apply z_nonempty_string_Some in Hi as [_ ?].
  apply z_nonempty_string_Some in Ht as [_ ?]. done.
Qed.

(** X19. [plan] fulfils only with a graph that [createTaskGraph] built from
    a response of the stated shape: there is at least one node, no node has
    an empty id or an empty task, and nothing was logged. A response that
    does not parse or does not conform never yields a graph. *)
Theorem plan_fulfils_only_conforming (goal_ : string) (w : World)
    (g : TaskGraph) w' :
  plan goal_ w = (Fulfilled g, w') ->
  exists raw parsed resp,
    callLlm (buildPrompt goal_) w = (Fulfilled raw, w')
    /\ JSON_parse (clean_response raw) = inr parsed
    /\ response_conforms parsed
    /\ PlannerResponseSchema (Some parsed) = Some resp
    /\ pr_nodes resp <> []%list
    /\ Forall (fun n => pn_id n <> "" /\ pn_task n <> "") (pr_nodes resp)
    /\ createTaskGraph goal_ (pr_nodes resp) (pr_synthesizerPrompt resp)
       = inr g.
Proof.
  unfold plan. destruct (callLlm (buildPrompt goal_) w) as [[raw|?] w1]; [|done].
  unfold parseResponse, parseOrThrow.
  destruct (JSON_parse (clean_response raw)) as [err|parsed] eqn:Hparse; [done|].
  destruct (PlannerResponseSchema (Some parsed)) as [resp|] eqn:Hresp; [|done].
  destruct (createTaskGraph _ _ _) as [err|g'] eqn:Hg; [done|].
  intros [= <- <-]. exists raw, parsed, resp.
  split; [done|]. split; [done|].
  split; [apply PlannerResponseSchema_conforms; by eexists|].
  split; [done|].
  assert (pr_nodes resp <> []%list
          /\ Forall (fun n => pn_id n <> "" /\ pn_task n <> "") (pr_nodes resp))
    as [? ?]; [|done].
  clear Hg. unfold PlannerResponseSchema in Hresp.
  destruct parsed as [| | | | |o]; try done.
  unfold z_array_minLength, z_array in Hresp.
  destruct (o !! "nodes") as [[| | | |items|]|]; try done.
  destruct (mapM _ items) as [ns|] eqn:Hns; [|done]. cbn in Hresp.
  destruct ns as [|n ns]; [done|]. cbn in Hresp.
  destruct (z_optional z_string (o !! "synthesizerPrompt")); [|done].
  injection Hresp as <-. cbn. split; [done|].
  apply mapM_Some in Hns. clear -Hns.
  induction Hns as [|j n' items' ns' Hj _ IH]; constructor; [|done].
  by apply PlannerNodeSchema_nonempty in Hj.
Qed.

(** ** The planner: responses without a fence, and responses in one *)

Lemma prefix_refl_app (a t : string) : String.prefix a (a ++ t) = true.
Proof.
  induction a as [|c a IH]; [by destruct t|]. simpl.
  by destruct (ascii_dec c c).
Qed.

Lemma is_infix_app (a pre post : string) : is_infix a (pre ++ a ++ post) = true.
Proof.
  induction pre as [|c pre IH].
  - change ("" ++ a ++ post) with (a ++ post).
    destruct (a ++ post) eqn:Heq; cbn [is_infix];
      rewrite <- Heq, prefix_refl_app; done.
  - change (String c pre ++ a ++ post) with (String c (pre ++ a ++ post)).
    cbn [is_infix]. rewrite IH. apply orb_true_r.
Qed.

Lemma is_infix_tail a c t : is_infix a (String c t) = false -> is_infix a t = false.
Proof. cbn [is_infix]. intros Hf. by apply orb_false_iff in Hf as [_ ?]. Qed.

Lemma is_infix_prefix a t : is_infix a t = false -> String.prefix a t = false.
Proof.
  destruct t; cbn [is_infix]; intros Hf; by apply orb_false_iff in Hf as [? _].
Qed.

(** X20. A response in which three backquotes in a row do not occur is left
    alone by both replacements: it is only trimmed. *)
Theorem clean_response_no_fence (raw : string) :
  is_infix "```" raw = false ->
  remove_first opening_fence raw = raw
  /\ remove_first closing_fence raw = raw
  /\ clean_response raw = trim raw.
Proof.
  intros Hno.
  assert (remove_first opening_fence raw = raw) as Hopen.
  { destruct (remove_first_cases opening_fence raw)
      as (pre & m & post & Hraw & Hout & [->|[Hm _]] & _).
    - by rewrite Hout, Hraw.
    - apply opening_fence_shape in Hm as (_ & tag & ws & -> & _).
      rewrite Hraw, !str_app_assoc, is_infix_app in Hno. done. }
  assert (remove_first closing_fence raw = raw) as Hclose.
  { destruct (remove_first_cases closing_fence raw)
      as (pre & m & post & Hraw & Hout & [->|[Hm _]] & _).
    - by rewrite Hout, Hraw.
    - apply closing_fence_shape in Hm as (_ & lead & ws & -> & _).
      rewrite Hraw, !str_app_assoc, <- (str_app_assoc pre lead), is_infix_app
        in Hno. done. }
  split; [done|]. split; [done|]. unfold clean_response.
  by rewrite Hopen, Hclose.
Qed.

Lemma star_space_trim_start t : forall p,
  star_space p t (fun p' s' =>
    re_match (ReOpt (ReLit nl)) p' s' (fun _ rest => Some rest))
  = Some (trim_start t).
Proof.
  induction t as [|c t IH]; intros p; [done|].
  cbn [star_space trim_start].
  destruct (is_space c) eqn:Hc; [by rewrite IH|].
  cbn [re_match]. unfold nl. cbn [match_lit].
  destruct (Ascii.eqb_spec "010"%char c) as [<-|_]; [|done].
  by vm_compute in Hc.
Qed.

Lemma star_space_to_end ws : forall p,
  all_space ws = true ->
  star_space p ws (fun p' s' =>
    re_match ReLineEnd p' s' (fun _ rest => Some rest)) = Some "".
Proof.
  induction ws as [|c ws IH]; intros p; [done|]. cbn [all_space star_space].
  intros Hws. apply andb_true_iff in Hws as [-> Hws]. by rewrite IH.
Qed.

(** An opening marker at the very start is removed with the line feed and
    all the whitespace that follows it. *)
Lemma opening_fence_removes tag t :
  tag = "" \/ tag = "json" ->
  remove_first opening_fence ("```" ++ tag ++ nl ++ t) = trim_start t.
Proof.
  pose proof (star_space_trim_start (nl ++ t)) as Hstar.
  assert (trim_start (nl ++ t) = trim_start t) as Hnl by done.
  unfold remove_first.
  intros [-> | ->]; unfold opening_fence;
    cbn [append remove_first_from re_match match_lit Ascii.eqb Bool.eqb];
    cbn [re_match] in Hstar; unfold nl in *;
    cbn [append match_lit Ascii.eqb Bool.eqb];
    rewrite Hstar; cbn [default]; exact Hnl.
Qed.

Lemma match_lit_None lit : forall prev s,
  String.prefix lit s = false -> match_lit lit prev s = None.
Proof.
  induction lit as [|c lit IH]; intros prev [|d s]; simpl; try done.
  destruct (ascii_dec c d) as [->|Hne].
  - rewrite Ascii.eqb_refl. apply IH.
  - intros _. by destruct (Ascii.eqb_spec c d).
Qed.

(** The closing pattern matches only where three backquotes begin, or a
    line feed before them. *)
Lemma closing_fence_not_here prev s k :
  String.prefix "```" s = false ->
  String.prefix (nl ++ "```") s = false ->
  re_match closing_fence prev s k = None.
Proof.
  intros H1 H2. unfold closing_fence. cbn [re_match].
  rewrite (match_lit_None "```" prev s H1).
  destruct (match_lit nl prev s) as [[p1 s1]|] eqn:Hnl; [|done].
  apply match_lit_spec in Hnl as [-> _].
  assert (String.prefix "```" s1 = false) as H3 by (by vm_compute in H2 |- *).
  by rewrite (match_lit_None "```" p1 s1 H3).
Qed.

Lemma prefix_cons c a d t :
  String.prefix (String c a) (String d t)
  = if Ascii.eqb c d then String.prefix a t else false.
Proof.
  simpl. destruct (ascii_dec c d) as [->|Hne]; [by rewrite Ascii.eqb_refl|].
  by destruct (Ascii.eqb_spec c d).
Qed.

Lemma no_fence_head b t :
  b <> "" -> is_infix "```" b = false ->
  String.prefix "```" (b ++ nl ++ t) = false.
Proof.
  intros Hne Hno. apply is_infix_prefix in Hno. unfold nl.
  destruct b as [|c1 [|c2 [|c3 b]]]; [done|..]; cbn [append];
    rewrite ?prefix_cons in Hno |- *;
    change (Ascii.eqb "`" "010") with false; revert Hno;
    repeat (destruct (Ascii.eqb "`" _); try done).
  by destruct b.
Qed.

(** In a text with no three backquotes before the closing marker, the
    marker is removed with the line feed before it and what follows it. *)
Lemma closing_fence_removes b trailing :
  is_infix "```" b = false -> all_space trailing = true ->
  forall prev,
    remove_first_from closing_fence prev (b ++ nl ++ "```" ++ trailing)
    = Some b.
Proof.
  intros Hno Hws. pose proof (star_space_to_end trailing) as Hend.
  induction b as [|c b IH]; intros prev.
  - unfold closing_fence, nl.
    cbn [append remove_first_from re_match match_lit Ascii.eqb Bool.eqb].
    cbn [re_match] in Hend. by rewrite Hend.
  - change (String c b ++ nl ++ "```" ++ trailing)
      with (String c (b ++ nl ++ "```" ++ trailing)).
    cbn [remove_first_from]. rewrite closing_fence_not_here.
    + rewrite IH; [done|]. by eapply is_infix_tail.
    + by apply (no_fence_head (String c b)).
    + unfold nl. cbn [append]. rewrite prefix_cons.
      destruct (Ascii.eqb "010" c); [|done].
      destruct b as [|c2 b]; [done|].
      apply (no_fence_head (String c2 b)); [done|]. by eapply is_infix_tail.
Qed.

Lemma closing_fence_removes_bare trailing :
  all_space trailing = true ->
  remove_first closing_fence ("```" ++ trailing) = "".
Proof.
  intros Hws. pose proof (star_space_to_end trailing) as Hend.
  unfold remove_first, closing_fence, nl.
  cbn [append remove_first_from re_match match_lit Ascii.eqb Bool.eqb].
  cbn [re_match] in Hend. by rewrite Hend.
Qed.

Lemma trim_start_app (a b : string) :
  trim_start (a ++ b)
  = match trim_start a with "" => trim_start b | t => t ++ b end.
Proof.
  induction a as [|c a IH]; [done|].
  change (String c a ++ b) with (String c (a ++ b)). cbn [trim_start].
  by destruct (is_space c).
Qed.

Lemma trim_start_idem s : trim_start (trim_start s) = trim_start s.
Proof.
  induction s as [|c s IH]; [done|]. cbn [trim_start].
  destruct (is_space c) eqn:Hc; [done|]. cbn [trim_start]. by rewrite Hc.
Qed.

Lemma is_infix_trim_start a t :
  is_infix a t = false -> is_infix a (trim_start t) = false.
Proof.
  induction t as [|c t IH]; [done|]. intros Hno. cbn [trim_start].
  destruct (is_space c); [|done]. by eapply IH, is_infix_tail.
Qed.

(** X21. A response that is one fenced block is unwrapped: when it is an
    opening marker with or without [json], a line feed, a body in which
    three backquotes in a row do not occur, a line feed, the closing marker
    and whitespace, [parseResponse] hands the trimmed body to
    [JSON.parse]. *)
Theorem clean_response_fenced (tag body trailing : string) :
  tag = "" \/ tag = "json" ->
  is_infix "```" body = false ->
  all_space trailing = true ->
  clean_response ("```" ++ tag ++ nl ++ body ++ nl ++ "```" ++ trailing)
  = trim body.
Proof.
  intros Htag Hno Hws. unfold clean_response.
  rewrite (opening_fence_removes tag _ Htag), trim_start_app.
  unfold trim at 2.
  pose proof (is_infix_trim_start _ _ Hno) as Hno'.
  pose proof (trim_start_idem body) as Hidem.
  destruct (trim_start body) as [|c b'] eqn:Hb.
  - change (trim_start (nl ++ "```" ++ trailing)) with ("```" ++ trailing).
    by rewrite closing_fence_removes_bare.
  - unfold remove_first. rewrite (closing_fence_removes _ _ Hno' Hws).
    change (default ?d (Some ?v)) with v. unfold trim. by rewrite Hidem.
Qed.

(** ** The other schemas *)

Lemma z_literal_Some lit v s :
  z_literal lit v = Some s <-> v = Some (JString lit) /\ s = lit.
Proof.
  unfold z_literal. destruct v as [[| | |s0| |]|]; try (split; [done|by intros [? _]]).
  destruct (String.eqb_spec s0 lit) as [->|Hne]; split.
  - by intros [= <-].
  - by intros [_ ->].
  - done.
  - intros [[= ?] _]. done.
Qed.

Lemma z_optional_string_Some v t :
  z_optional z_string v = Some t
  <-> (v = None /\ t = None) \/ exists s, v = Some (JString s) /\ t = Some s.
Proof.
  unfold z_optional, z_string. destruct v as [j|].
  - destruct j; cbn; (split; [try done|]).
    + by intros [[? _]|(? & ? & _)].
    + by intros [[? _]|(? & ? & _)].
    + by intros [[? _]|(? & ? & _)].
    + intros [= <-]. right. by eexists.
    + intros [[? _]|(s0 & [= <-] & ->)]; done.
    + by intros [[? _]|(? & ? & _)].
    + by intros [[? _]|(? & ? & _)].
  - split; [intros [= <-]; by left|]. by intros [[_ ->]|(? & ? & _)].
Qed.

Lemma TaskItemSchema_nonempty v t :
  TaskItemSchema v = Some t -> ti_id t <> "" /\ ti_task t <> "".
Proof.
  unfold TaskItemSchema. destruct v as [[| | | | |o]|]; try done.
  destruct (z_minLength 1 z_string (o !! "id")) as [i|] eqn:Hi; [|done].
  destruct (z_minLength 1 z_string (o !! "task")) as [k|] eqn:Ht; [|done].
  cbn. destruct (z_optional z_string (o !! "agent")); [|done].
  intros [= <-]. cbn.
  apply z_nonempty_string_Some in Hi as [_ ?].
  apply z_nonempty_string_Some in Ht as [_ ?]. done.
Qed.

(** X22. What [OrchestratorActionSchema] accepts. An [execute] action has
    the literal action [execute] and at least one task, each with a
    non-empty id and a non-empty description, one for each item of the
    input; a [finish] action has the literal action [finish] and a
    non-empty answer. An object with any other action, an [execute] with no
    task and a [finish] with an empty answer are rejected. *)
Theorem orchestrator_action_shape (v : option Json) :
  (forall a, OrchestratorActionSchema v = Some (inl a) ->
     ea_action a = "execute"
     /\ ea_tasks a <> []%list
     /\ Forall (fun t => ti_id t <> "" /\ ti_task t <> "") (ea_tasks a)
     /\ exists o items,
          v = Some (JObject o)
          /\ o !! "action" = Some (JString "execute")
          /\ o !! "tasks" = Some (JArray items)
          /\ length items = length (ea_tasks a))
  /\ (forall a, OrchestratorActionSchema v = Some (inr a) ->
        fa_action a = "finish"
        /\ fa_answer a <> ""
        /\ exists o,
             v = Some (JObject o)
             /\ o !! "action" = Some (JString "finish")
             /\ o !! "answer" = Some (JString (fa_answer a)))
  /\ (forall o, v = Some (JObject o) ->
        o !! "action" <> Some (JString "execute") ->
        o !! "action" <> Some (JString "finish") ->
        OrchestratorActionSchema v = None)
  /\ (forall o, v = Some (JObject o) ->
        o !! "action" = Some (JString "execute") ->
        o !! "tasks" = Some (JArray []) ->
        OrchestratorActionSchema v = None)
  /\ (forall o, v = Some (JObject o) ->
        o !! "action" = Some (JString "finish") ->
        o !! "answer" = Some (JString "") ->
        OrchestratorActionSchema v = None).
Proof.
  unfold OrchestratorActionSchema, z_union.
  split; [|split; [|split; [|split]]].
  - intros a. destruct v as [[| | | | |o]|]; try done.
    destruct (z_literal "execute" (o !! "action")) as [act|] eqn:Hact; cbn.
    2:{ destruct (z_literal "finish" (o !! "action")); cbn; [|done].
        by destruct (z_minLength 1 z_string (o !! "answer")). }
    apply z_literal_Some in Hact as [Hact ->].
    unfold z_array_minLength, z_array.
    destruct (o !! "tasks") as [[| | | |items|]|] eqn:Htasks; cbn;
      try (rewrite Hact; done).
    destruct (mapM _ items) as [ts|] eqn:Hts; cbn; [|by rewrite Hact].
    destruct ts as [|t ts]; cbn; [by rewrite Hact|].
    intros [= <-]. cbn. split; [done|]. split; [done|]. split.
    + apply mapM_Some in Hts. clear -Hts.
      induction Hts as [|j t' items' ts' Hj _ IH]; constructor; [|done].
      exact (TaskItemSchema_nonempty (Some j) t' Hj).
    + exists o, items. split; [done|]. split; [done|]. split; [done|].
      by apply length_mapM in Hts.
  - intros a. destruct v as [[| | | | |o]|]; try done.
    destruct (z_literal "execute" (o !! "action")) as [act|] eqn:Hact; cbn.
    { apply z_literal_Some in Hact as [Hact ->].
      destruct (z_array_minLength 1 (z_array TaskItemSchema) (o !! "tasks"));
        cbn; [done|]. by rewrite Hact. }
    destruct (z_literal "finish" (o !! "action")) as [act|] eqn:Hfin; cbn;
      [|done].
    apply z_literal_Some in Hfin as [Hfin ->].
    destruct (z_minLength 1 z_string (o !! "answer")) as [ans|] eqn:Hans; cbn;
      [|done].
    apply z_nonempty_string_Some in Hans as [Hans ?].
    intros [= <-]. cbn. split; [done|]. split; [done|]. by exists o.
  - intros o -> Hne1 Hne2.
    destruct (z_literal "execute" (o !! "action")) as [act|] eqn:Hact.
    { by apply z_literal_Some in Hact as [? _]. }
    destruct (z_literal "finish" (o !! "action")) as [act|] eqn:Hfin.
    { by apply z_literal_Some in Hfin as [? _]. }
    done.
  - intros o -> Hact Htasks. rewrite Hact, Htasks. done.
  - intros o -> Hact Hans. rewrite Hact, Hans. done.
Qed.

(** X23. What [GatewayConfigSchema] accepts: exactly the objects whose
    [name] and [url] are non-empty strings and whose [token] is absent or a
    string, and it yields those three values. On any other input
    [parseOrThrow] throws a [ValidationError] with the code
    [VALIDATION_FAILED]. *)
Theorem gateway_config_shape (j : Json) :
  (forall c,
     GatewayConfigSchema (Some j) = Some c
     <-> exists o, j = JObject o
           /\ o !! "name" = Some (JString (gc_name c)) /\ gc_name c <> ""
           /\ o !! "url" = Some (JString (gc_url c)) /\ gc_url c <> ""
           /\ ((o !! "token" = None /\ gc_token c = None)
               \/ exists t, o !! "token" = Some (JString t)
                            /\ gc_token c = Some t))
  /\ (forall context,
        match GatewayConfigSchema (Some j) with
        | Some c => parseOrThrow GatewayConfigSchema j context = Fulfilled c
        | None =>
            exists e,
              parseOrThrow GatewayConfigSchema j context = Rejected e
              /\ error_code e = Some VALIDATION_FAILED
        end).
Proof.
  split.
  - intros c. unfold GatewayConfigSchema. split.
    + destruct j as [| | | | |o]; try done.
      destruct (z_minLength 1 z_string (o !! "name")) as [n|] eqn:Hn; [|done].
      destruct (z_minLength 1 z_string (o !! "url")) as [u|] eqn:Hu; [|done].
      cbn.
      destruct (z_optional z_string (o !! "token")) as [t|] eqn:Ht; [|done].
      intros [= <-]. cbn. exists o.
      apply z_nonempty_string_Some in Hn as [-> ?].
      apply z_nonempty_string_Some in Hu as [-> ?].
      apply z_optional_string_Some in Ht. by repeat split.
    + intros (o & -> & Hn & Hne & Hu & Hue & Ht).
      assert (z_minLength 1 z_string (o !! "name") = Some (gc_name c)) as ->
        by (by apply z_nonempty_string_Some).
      assert (z_minLength 1 z_string (o !! "url") = Some (gc_url c)) as ->
        by (by apply z_nonempty_string_Some).
      assert (z_optional z_string (o !! "token") = Some (gc_token c)) as ->
        by (by apply z_optional_string_Some).
      cbn. by destruct c.
  - intros context. unfold parseOrThrow.
    destruct (GatewayConfigSchema (Some j)); [done|]. by eexists.
Qed.

(** X28. Keys that the planner schemas do not name are ignored: a node, or
    a response, with one more key is accepted or rejected as it is without
    that key, and yields the same value. *)
Theorem planner_schema_ignores_other_keys (o : gmap string Json)
    (k : string) (v : Json) :
  (k <> "id" -> k <> "task" -> k <> "dependsOn" -> k <> "assignTo" ->
   PlannerNodeSchema (Some (JObject (<[k := v]> o)))
   = PlannerNodeSchema (Some (JObject o)))
  /\ (k <> "nodes" -> k <> "synthesizerPrompt" ->
      PlannerResponseSchema (Some (JObject (<[k := v]> o)))
      = PlannerResponseSchema (Some (JObject o))).
Proof.
  split.
  - intros ? ? ? ?. unfold PlannerNodeSchema.
    by rewrite !lookup_insert_ne by done.
  - intros ? ?. unfold PlannerResponseSchema.
    by rewrite !lookup_insert_ne by done.
Qed.

(** ** The planner: the prompt and the gateway *)

Lemma join_infix sep (l : list string) a :
  a ∈ l -> exists pre post, join sep l = pre ++ a ++ post.
Proof.
  induction l as [|b l IH]; [by intros ?%elem_of_nil|].
  rewrite elem_of_cons. intros [->|Hin].
  - destruct l as [|c l]; [exists "", ""; cbn; by rewrite str_app_nil_r|].
    exists "", (sep ++ join sep (c :: l)). done.
  - destruct (IH Hin) as (pre & post & Heq).
    destruct l as [|c l]; [by apply elem_of_nil in Hin|].
    exists (b ++ sep ++ pre), post. cbn [join] in Heq |- *.
    by rewrite Heq, !str_app_assoc.
Qed.

(** X24. The prompt begins with [Goal: ] and the goal as given. It is
    exactly that when no agent names are available, be the list absent or
    empty; otherwise every available name occurs in it. *)
Theorem buildPrompt_lists_agents (goal_ : string) :
  String.prefix ("Goal: " ++ goal_) (buildPrompt goal_) = true
  /\ (default []%list (availableAgents planner) = []%list ->
      buildPrompt goal_ = "Goal: " ++ goal_)
  /\ (forall a, a ∈ default []%list (availableAgents planner) ->
        is_infix a (buildPrompt goal_) = true).
Proof.
  unfold buildPrompt.
  destruct (default []%list (availableAgents planner)) as [|b l] eqn:Hl.
  - cbn. split; [|split; [done|by intros a ?%elem_of_nil]].
    rewrite <- (str_app_nil_r goal_) at 2. apply prefix_refl_app.
  - cbn [length Nat.ltb Nat.leb]. split; [|split; [done|]].
    + rewrite <- str_app_assoc. apply prefix_refl_app.
    + intros a Hin. destruct (join_infix ", " (b :: l) a Hin)
        as (pre & post & ->).
      rewrite <- !str_app_assoc. rewrite (str_app_assoc _ a post).
      apply is_infix_app.
Qed.

(** X25. Without a planner agent, [callLlm] goes to the gateway: it draws a
    fresh UUID, calls [chat] once with the system prompt, an empty line and
    the prompt under the session key [planner-] followed by the first eight
    characters of the UUID, and settles as [chat] does, a rejection being
    passed on as it is. *)
Theorem gateway_session_key (prompt : string) (gw : GatewayClient)
    (w : World) r w' :
  plannerAgent planner = None ->
  gateway planner = Some gw ->
  callLlm prompt w = (r, w') ->
  exists uuid e1,
    randomUUID (env w) = (uuid, e1)
    /\ chat gw (PLANNER_SYSTEM_PROMPT ++ nl ++ nl ++ prompt)
         ("planner-" ++ slice_to 8 uuid) e1 = (r, env w')
    /\ (String.length ("planner-" ++ slice_to 8 uuid) <= 16)%nat
    /\ taskCache w' = taskCache w
    /\ trace w' = (trace w ++ [EvInvoke "chat" prompt; settle_event r])%list.
Proof.
  intros Ha Hg. unfold callLlm. rewrite Ha, Hg.
  destruct (randomUUID (env w)) as [uuid e1].
  intros Hobs. apply observed_spec in Hobs as (Hf & Hc & Htr).
  exists uuid, e1. split; [done|]. split; [exact Hf|].
  split; [|by split].
  destruct (slice_to_spec 8 uuid) as [Hlen _]. cbn [append String.length]. lia.
Qed.

(** ** The executor: leaving the loop in a deadlock *)

Local Open Scope list_scope.

(** X26. When the graph is not complete, the signal not tripped and no node
    ready (a dependency cycle, or a node waiting for one that is failed or
    skipped or does not exist), [execute] logs the deadlock once and returns
    at once: the graph as it was, [success = false], an empty [nodeResults],
    nothing called. *)
Theorem deadlock_returns_graph_as_is (fuel : nat) (g : TaskGraph) (w : World) :
  isComplete (nodes g) = false ->
  aborted w = false ->
  readyNodes (nodes g) = [] ->
  exists res w',
    execute (S fuel) g w = Some (Fulfilled res, w')
    /\ graph res = g
    /\ success res = false
    /\ nodeResults res = ∅
    /\ env w' = env w
    /\ taskCache w' = taskCache w
    /\ trace w'
       = trace w
         ++ [EvLog LError
               "Execution deadlock: no ready nodes but graph not complete" []].
Proof.
  intros Hc Ha Hr. unfold execute. cbn [execute_loop initial x_nodes x_world].
  rewrite Hc, Ha, Hr. cbn. eexists _, _. split; [reflexivity|]. cbn.
  split; [by destruct g|]. split; [|done].
  apply isComplete_false in Hc as (n & Hin & Hn).
  apply not_true_is_false. rewrite forallb_forall. intros Hall.
  apply list_elem_of_In, Hall in Hin. unfold status_eqb in Hin.
  apply bool_decide_eq_true in Hin. by rewrite Hin in Hn.
Qed.

(** ** The executor: when the results of a batch are reported *)

Lemma dispatch_no_end batch : forall x ps x',
  dispatch batch x = (ps, x') ->
  since (trace (x_world x)) (trace (x_world x'))
    (fun e => is_any_node_end e = false).
Proof.
  induction batch as [|i batch IH]; intros x ps x'; cbn [dispatch].
  - intros [= <- <-]. apply since_refl.
  - destruct (executeNode_start i x) as [pr x1] eqn:Hstart.
    destruct (dispatch batch x1) as [ps1 x2] eqn:Hrest.
    intros [= <- <-]. eapply since_trans; [|by eapply IH].
    apply executeNode_start_spec in Hstart as (_ & _ & _ & notes & Hn & Htr).
    destruct (x_nodes x !! i); [|subst x1; apply since_refl].
    rewrite Htr. apply since_app; [apply since_refl|].
    repeat constructor. eapply Forall_impl; [exact Hn|]. by intros [].
Qed.

Lemma settle_no_effect i r x x' :
  settle i r x = inr x' ->
  since (trace (x_world x)) (trace (x_world x'))
    (fun e => is_effect e = false).
Proof.
  intros Hs. destruct (x_nodes x !! i) as [node|] eqn:Hi;
    [|rewrite settle_None in Hs by done; injection Hs as <-; apply since_refl].
  destruct (settle_spec i r x node x' Hi Hs) as (res & _ & _ & _ & _ & Htr).
  rewrite Htr.
  apply since_app; [apply since_refl|].
  repeat apply Forall_app_2; [by repeat constructor| |].
  - destruct (opts ≫= onNodeEnd); by repeat constructor.
  - case_decide; by repeat constructor.
Qed.

Lemma settle_all_no_effect batch : forall rs x o x',
  settle_all batch rs x = (o, x') ->
  since (trace (x_world x)) (trace (x_world x'))
    (fun e => is_effect e = false).
Proof.
  induction batch as [|i batch IH]; intros [|r rs] x o x'; cbn;
    try (intros [= <- <-]; apply since_refl).
  destruct (settle i r x) as [thrown|x1] eqn:Hs;
    [intros [= <- <-]; apply since_refl|].
  intros Hrest. eapply since_trans; [by eapply settle_no_effect|by eapply IH].
Qed.

(** X27. The results of a batch are reported when the whole batch has
    settled: in a pass of the loop, no [onNodeEnd] is called before the last
    call of an agent, wait or rate limiter of the pass is over, for
    whichever node of the batch. *)
Theorem batch_reported_after_all_settle (M : Z) (x : Exec) :
  let x' := (run_batch M (readyNodes (x_nodes x)) x).2 in
  exists before reported,
    trace (x_world x') = trace (x_world x) ++ before ++ reported
    /\ Forall (fun e => is_any_node_end e = false) before
    /\ Forall (fun e => is_effect e = false) reported.
Proof.
  intros x'. subst x'. unfold run_batch.
  set (batch := slice0 M (readyNodes (x_nodes x))).
  destruct (dispatch batch x) as [promises x1] eqn:Hd.
  pose proof (dispatch_no_end _ _ _ _ Hd) as (d1 & Htr1 & Hd1).
  apply dispatch_length in Hd as [Hlp _].
  destruct (allSettled (x_nodes x1) batch promises (x_world x1))
    as [results w2] eqn:Ha.
  apply allSettled_spec in Ha as (_ & d2 & Htr2 & Hd2); [|done].
  destruct (settle_all batch results _) as [o x'] eqn:Hall.
  destruct (settle_all_no_effect _ _ _ _ _ Hall) as (d3 & Htr3 & Hd3).
  exists (d1 ++ d2), d3. cbn [snd]. split; [|split; [|done]].
  - rewrite Htr3. cbn [x_world]. by rewrite Htr2, Htr1, <- !app_assoc.
  - apply Forall_app_2; [done|]. eapply Forall_impl; [exact Hd2|].
    by intros [].
Qed.

End Orchestrator.

End World.

(** * Concrete runs *)

Local Open Scope string_scope.

(** An environment to run the definitions in: a clock and a count of the
    calls made to adapters. *)
#[local] Instance demo_runtime : Runtime (Z * nat) := {|
  Date_now := fun e => fst e;
  setTimeout := fun d e => (fst e + d, snd e);
  acquire := fun _ e => e;
  randomUUID := fun e => ("6f1c2a9e-0000-4000-8000-000000000000", e)
|}.

(** An adapter that answers, one that rejects, and one that rejects its
    first two calls. *)
Definition steady : AgentAdapter :=
  mkAgent "steady" []
    (fun _ e => (Fulfilled (mkResult ok "X"), (fst e + 1, S (snd e)))).

Definition broken : AgentAdapter :=
  mkAgent "broken" ["fragile"]
    (fun _ e => (Rejected (JsError "Error" "boom"), (fst e + 1, S (snd e)))).

Definition flaky : AgentAdapter :=
  mkAgent "flaky" []
    (fun _ e =>
       (if (snd e <? 2)%nat then Rejected (JsError "Error" "boom")
        else Fulfilled (mkResult ok "ok"),
        (fst e + 1, S (snd e)))).



Definition demo_config : Config :=
  mkConfig 2 true 1000 true (mkRetryConfig 3 10 25).

Definition demo_key (task_ agent : string) : string := agent ++ ":" ++ task_.

Definition fresh_node (nid : string) (deps : list string)
    (sel : option string) : TaskNode :=
  mkNode nid ("do " ++ nid) deps sel pending None None.

(** [A -> {B, C} -> D], and [E] on an adapter that rejects, with [F] after
    it. *)
Definition demo_graph : TaskGraph :=
  mkGraph "demo"
    [fresh_node "A" [] None; fresh_node "B" ["A"] None;
     fresh_node "C" ["A"] None; fresh_node "D" ["B"; "C"] None;
     fresh_node "E" [] (Some "fragile"); fresh_node "F" ["E"] None]
    None.

Definition demo_world : World := mkWorld (0, 0%nat) ∅ [].

(** Options with both callbacks: each of them moves the clock, [onNodeStart]
    by 100 and [onNodeEnd] by 1000. *)
Definition watching : option ExecutionOptions :=
  Some (mkOpts None None
          (Some (fun _ (e : Z * nat) => (fst e + 100, snd e)))
          (Some (fun _ _ (e : Z * nat) => (fst e + 1000, snd e)))).

Definition demo_run : option (Settled ExecutionResult * World) :=
  execute demo_config demo_key [steady; broken] None 10 demo_graph demo_world.

(** The run goes on after [E] rejects: [A] to [D] are done, [E] has failed
    with the stringified reason, [F] is skipped. *)
Example demo_run_statuses :
  match demo_run with
  | Some (Fulfilled res, _) =>
      Some (map (fun n => (id n, status n)) (nodes (graph res)),
            success res, nodeResults res !! "E")
  | _ => None
  end
  = Some ([("A", done); ("B", done); ("C", done); ("D", done);
           ("E", failed); ("F", skipped)],
          false, Some (mkResult error "Error: boom")).
Proof. vm_compute. reflexivity. Qed.

(** Scenario S5: the adapter rejects twice, and the third attempt answers. *)
Example withRetry_recovers :
  let '(r, w) :=
    withRetry (retry demo_config)
      (observed "flaky" "A" (execute_ flaky (fresh_node "A" [] None)))
      None demo_world in
  (r, trace w, env w)
  = (Fulfilled (mkResult ok "ok"),
     [EvInvoke "flaky" "A"; EvRejected (JsError "Error" "boom"); EvSleep 10;
      EvInvoke "flaky" "A"; EvRejected (JsError "Error" "boom"); EvSleep 20;
      EvInvoke "flaky" "A"; EvFulfilled],
     (33, 3%nat)).
Proof. vm_compute. reflexivity. Qed.



Lemma withRetry_contract_witness :
  exists r w' errs e_last,
    withRetry (retry demo_config)
      (observed "flaky" "A" (execute_ flaky (fresh_node "A" [] None)))
      None demo_world = (r, w')
    /\ retried (execute_ flaky (fresh_node "A" [] None)) 10 25 1 errs
         (env demo_world) e_last
    /\ execute_ flaky (fresh_node "A" [] None) e_last = (r, env w')
    /\ Z.of_nat (length errs) + 1 <= 3
    /\ trace w'
       = (failed_attempts "flaky" "A" 10 25 1 errs
          ++ [EvInvoke "flaky" "A"; settle_event r])%list.
Proof.
  destruct (withRetry_contract (retry demo_config) None "flaky" "A"
              (execute_ flaky (fresh_node "A" [] None)) demo_world)
    as (r & w' & errs & e_last & Hrun & Hchain & Hlast & _ & Htr & Hle & _).
  { vm_compute. discriminate. }
  exists r, w', errs, e_last. split; [exact Hrun|]. split; [exact Hchain|].
  split; [exact Hlast|]. split; [exact Hle|exact Htr].
Defined.

Lemma withRetry_no_attempts_witness :
  withRetry (retry demo_config)
    (observed "flaky" "A" (execute_ flaky (fresh_node "A" [] None)))
    (Some (mkRetryOptions (Some 0) None None)) demo_world
  = (Rejected JsUndefined, demo_world).
Proof.
  apply (withRetry_no_attempts (retry demo_config)
           (Some (mkRetryOptions (Some 0) None None))).
  vm_compute. reflexivity.
Defined.

Lemma success_iff_all_done_witness :
  exists r w',
    execute demo_config demo_key [steady; broken] None 7
      demo_graph demo_world = Some (r, w')
    /\ forall res, r = Fulfilled res ->
         (success res = true
          <-> Forall (fun n => status n = done) (nodes (graph res))).
Proof.
  destruct (success_iff_all_done demo_config demo_key [steady; broken] None
              demo_graph demo_world) as [Hiff Hterm].
  destruct Hterm as (r & w' & Hrun & _); [vm_compute; discriminate|].
  exists r, w'. split; [exact Hrun|]. intros res ->.
  apply (Hiff _ _ _ Hrun).
Defined.

(** A world whose cache holds a fresh entry for the task of [A] on the
    adapter [steady]. *)
Definition warm_world : World :=
  mkWorld (5, 0%nat) {[ "steady:do A" := mkEntry "cached" 0 ]} [].

Lemma cache_hit_and_store_witness :
  exists x' tr,
    executeNode demo_config demo_key [steady; broken] None 0
      (initial demo_graph warm_world)
    = (Fulfilled (mkResult ok "cached"), x')
    /\ trace (x_world x') = (trace warm_world ++ tr)%list
    /\ count_events is_acquire tr = 0%nat
    /\ count_events is_invoke tr = 0%nat.
Proof.
  destruct (cache_hit_and_store demo_config demo_key [steady; broken] None 0
              (initial demo_graph warm_world) (fresh_node "A" [] None) steady
              eq_refl eq_refl) as [Hhit _].
  destruct (Hhit "cached" eq_refl) as (x' & tr & Hrun & _ & _ & Htr & Ha & Hi).
  { vm_compute. reflexivity. }
  exists x', tr. split; [exact Hrun|]. split; [exact Htr|]. split; assumption.
Defined.

Definition retried_node : TaskNode :=
  mkNode "A" "do A" [] None pending None (Some (mkNodeConfig (Some 2))).

(** A node that asks for two retries, on an adapter that rejects every call:
    the adapter is called three times, with the waits of the retry helper
    between the calls. *)
Definition stubborn_node : TaskNode :=
  mkNode "E" "do E" [] (Some "fragile") pending None
    (Some (mkNodeConfig (Some 2))).

Lemma retries_wrap_agent_call_witness :
  exists x' tr errs e_last,
    executeNode demo_config demo_key [broken] None 0
      (mkExec [stubborn_node] ∅ None demo_world)
    = (Rejected (JsError "Error" "boom"), x')
    /\ trace (x_world x') = (trace demo_world ++ tr)%list
    /\ count_events is_invoke tr = 3%nat
    /\ filter (fun e => is_sleep e = true) tr = [EvSleep 10; EvSleep 20]
    /\ retried (execute_ broken (with_status running stubborn_node)) 10 25 1
         errs (env demo_world) e_last
    /\ length errs = 2%nat.
Proof.
  destruct (executeNode demo_config demo_key [broken] None 0
              (mkExec [stubborn_node] ∅ None demo_world)) as [r x'] eqn:Hrun.
  destruct (retries_wrap_agent_call demo_config demo_key [broken] None 0
              (mkExec [stubborn_node] ∅ None demo_world) stubborn_node broken
              r x' eq_refl eq_refl eq_refl Hrun)
    as (tr & errs & e_last & Htr & Hcount & Hsleeps & Hchain & _ & _ & Hwrap).
  destruct (Hwrap 2 eq_refl) as (_ & Hall & _); [reflexivity|].
  assert (r = Rejected (JsError "Error" "boom")) as ->.
  { vm_compute in Hrun. by injection Hrun as <- _. }
  assert (length errs = 2%nat) as Hlen.
  { specialize (Hall _ eq_refl). lia. }
  exists x', tr, errs, e_last. split; [reflexivity|]. split; [exact Htr|].
  rewrite Hlen in Hcount, Hsleeps.
  split; [exact Hcount|]. split; [exact Hsleeps|]. split; [exact Hchain|].
  exact Hlen.
Defined.

(** Scenario S5 through [executeNode]: two rejections, then the answer, which
    is stored in the cache. *)
Example executeNode_retries :
  let '(r, x') :=
    executeNode demo_config demo_key [flaky] None 0
      (mkExec [retried_node] ∅ None demo_world) in
  (r, count_events is_invoke (trace (x_world x')),
   value <$> taskCache (x_world x') !! "flaky:do A")
  = (Fulfilled (mkResult ok "ok"), 3%nat, Some "ok").
Proof. vm_compute. reflexivity. Qed.

(** Options whose abort signal trips once two adapter calls were made. *)
Definition abort_after_two : option ExecutionOptions :=
  Some (mkOpts (Some 2) (Some (fun e : Z * nat => (2 <=? snd e)%nat)) None None).

Definition aborted_world : World := mkWorld (2, 2%nat) ∅ [].

Lemma abort_skips_pending_witness :
  exists x',
    execute_loop demo_config demo_key [steady; broken] abort_after_two 2 1
      (initial demo_graph aborted_world) = Some (Aborted, x')
    /\ map status (x_nodes x')
       = [skipped; skipped; skipped; skipped; skipped; skipped]
    /\ x_results x' = ∅.
Proof.
  destruct (abort_skips_pending demo_config demo_key [steady; broken]
              abort_after_two 2 0 (initial demo_graph aborted_world)
              eq_refl eq_refl)
    as (x' & Hrun & Hnodes & Hlen & Hres & _).
  exists x'. split; [exact Hrun|]. split; [|exact Hres].
  injection Hrun as <-. reflexivity.
Defined.

(** Scenario S6 in small: the signal trips after the first batch of two. *)
Example abort_after_first_batch :
  match execute demo_config demo_key [steady] abort_after_two 10
          (mkGraph "six"
             (map (fun k => fresh_node k [] None) ["1"; "2"; "3"; "4"; "5"])
             None)
          demo_world with
  | Some (Fulfilled res, _) =>
      Some (map status (nodes (graph res)), success res)
  | _ => None
  end
  = Some ([done; done; skipped; skipped; skipped], false).
Proof. vm_compute. reflexivity. Qed.

Lemma running_nodes_bounded_witness :
  exists res w',
    demo_run = Some (Fulfilled res, w')
    /\ (exists delta, trace w' = (trace demo_world ++ delta)%list
          /\ forall snap, EvStatuses snap ∈ delta ->
               Z.of_nat (count_status running snap) <= 2).
Proof.
  unfold demo_run.
  destruct (execute demo_config demo_key [steady; broken] None 10
              demo_graph demo_world) as [[[res|thrown] w']|] eqn:Hrun;
    [|vm_compute in Hrun; discriminate Hrun..].
  exists res, w'. split; [reflexivity|].
  apply (running_nodes_bounded demo_config demo_key [steady; broken] None 10
           demo_graph demo_world (Fulfilled res) w').
  - vm_compute. discriminate.
  - repeat constructor; discriminate.
  - exact Hrun.
Defined.

Lemma skipped_nodes_have_no_result_witness :
  exists res w',
    demo_run = Some (Fulfilled res, w')
    /\ (forall i n, nodes (graph res) !! i = Some n -> status n = skipped ->
          nodeResults res !! id n = None
          /\ exists n0, nodes demo_graph !! i = Some n0 /\ result n = result n0).
Proof.
  unfold demo_run.
  destruct (execute demo_config demo_key [steady; broken] None 10
              demo_graph demo_world) as [[[res|thrown] w']|] eqn:Hrun;
    [|vm_compute in Hrun; discriminate Hrun..].
  exists res, w'. split; [reflexivity|].
  apply (skipped_nodes_have_no_result demo_config demo_key [steady; broken]
           None 10 demo_graph demo_world res w').
  - apply (bool_decide_unpack _). vm_compute. exact I.
  - exact Hrun.
Defined.

(** *** The planner on concrete responses *)

(** A response with a fence line between two tokens of the JSON text: it
    neither starts nor ends with a marker. *)
Definition inner_fence_response : string :=
  "{" ++ nl ++ "```" ++ nl ++ "}".

(** A plan of one node, as JSON text and as the value it parses to. *)
Definition plan_text : string :=
  "{" ++ quote ++ "nodes" ++ quote ++ ":[{"
  ++ quote ++ "id" ++ quote ++ ":" ++ quote ++ "a" ++ quote ++ ","
  ++ quote ++ "task" ++ quote ++ ":" ++ quote ++ "t" ++ quote ++ "}]}".

Definition plan_json : Json :=
  JObject {[ "nodes" :=
    JArray [JObject (<["id" := JString "a"]> {[ "task" := JString "t" ]})] ]}.

Definition fenced_plan : string :=
  "```json" ++ nl ++ plan_text ++ nl ++ "```" ++ nl.

(** [JSON.parse] on the three texts used here: the plan, the empty object
    written over two lines, and anything else, on which it throws. *)
Definition demo_JSON_parse (s : string) : string + Json :=
  if String.eqb s plan_text then inr plan_json
  else if String.eqb s ("{" ++ nl ++ "}") then inr (JObject ∅)
  else inl "Unexpected token".

Definition demo_issues (_ : Json) : string := "Invalid input".

(** The fenced plan is unwrapped, parsed and validated. *)
Example fenced_plan_parses :
  fst (parseResponse demo_JSON_parse demo_issues fenced_plan demo_world)
  = Fulfilled (mkPlannerLlmResponse [mkPlannerNode "a" "t" [] None] None).
Proof. vm_compute. reflexivity. Qed.

Lemma planner_strips_inner_fence :
  String.prefix "```" inner_fence_response = false
  /\ clean_response inner_fence_response = "{" ++ nl ++ "}"
  /\ is_infix (clean_response inner_fence_response) inner_fence_response
     = false
  /\ (exists err, demo_JSON_parse inner_fence_response = inl err)
  /\ (exists e,
        fst (parseResponse demo_JSON_parse demo_issues inner_fence_response
               demo_world) = Rejected e
        /\ error_code e = Some VALIDATION_FAILED).
Proof.
  split; [vm_compute; reflexivity|]. split; [vm_compute; reflexivity|].
  split; [vm_compute; reflexivity|].
  split; [eexists; vm_compute; reflexivity|].
  eexists. split; vm_compute; reflexivity.
Qed.

Lemma planner_parse_response_witness :
  exists resp,
    parseResponse demo_JSON_parse demo_issues fenced_plan demo_world
    = (Fulfilled resp, demo_world)
    /\ PlannerResponseSchema (Some plan_json) = Some resp.
Proof.
  destruct (planner_parse_response demo_JSON_parse demo_issues ""
              (fun _ _ _ => inl JsUndefined)
              (mkPlannerOptions None None None) fenced_plan demo_world)
    as (_ & _ & _ & _ & _ & _ & Hvalid & _).
  destruct (Hvalid plan_json) as [Hok _]; [vm_compute; reflexivity|].
  apply Hok. unfold response_conforms, plan_json.
  eexists _, _. split; [reflexivity|]. split; [vm_compute; reflexivity|].
  split; [discriminate|]. split; [|left; vm_compute; reflexivity].
  constructor; [|constructor]. unfold node_conforms.
  eexists. split; [reflexivity|].
  split; [exists "a"; split; [vm_compute; reflexivity|discriminate]|].
  split; [exists "t"; split; [vm_compute; reflexivity|discriminate]|].
  split; left; vm_compute; reflexivity.
Defined.

(** * Further concrete runs *)

Lemma withRetry_delays_bounded_witness :
  exists r w' errs e_last delta,
    withRetry (retry demo_config)
      (observed "flaky" "A" (execute_ flaky (fresh_node "A" [] None)))
      None demo_world = (r, w')
    /\ retried (execute_ flaky (fresh_node "A" [] None)) 10 25 1 errs
         (env demo_world) e_last
    /\ trace w' = (trace demo_world ++ delta)%list
    /\ filter (fun e => is_sleep e = true) delta
       = map EvSleep (waits 10 25 (S (length errs)))
    /\ foldr Z.add 0 (waits 10 25 (S (length errs))) <= (3 - 1) * 25.
Proof.
  destruct (withRetry (retry demo_config)
              (observed "flaky" "A" (execute_ flaky (fresh_node "A" [] None)))
              None demo_world) as [r w'] eqn:Hrun.
  destruct (withRetry_delays_bounded (retry demo_config) None "flaky" "A"
              (execute_ flaky (fresh_node "A" [] None)) demo_world r w')
    as (errs & e_last & delta & Hchain & _ & Htr & _ & Hsleeps & _ & _
        & Htotal).
  - vm_compute. discriminate.
  - vm_compute. discriminate.
  - exact Hrun.
  - exists r, w', errs, e_last, delta. split; [reflexivity|].
    split; [exact Hchain|]. split; [exact Htr|]. split; [exact Hsleeps|].
    exact Htotal.
Defined.

(** A graph with nothing left to do. *)
Definition finished_graph : TaskGraph :=
  mkGraph "finished"
    [with_status done (fresh_node "A" [] None);
     with_status skipped (fresh_node "B" ["A"] None)]
    None.

Lemma execute_finished_graph_witness :
  exists res,
    execute demo_config demo_key [steady] None 1 finished_graph demo_world
    = Some (Fulfilled res, demo_world)
    /\ graph res = finished_graph
    /\ nodeResults res = ∅.
Proof.
  destruct (execute_finished_graph demo_config demo_key [steady] None 0
              finished_graph demo_world eq_refl)
    as (res & Hrun & Hg & Hr & _).
  exists res. split; [exact Hrun|]. split; [exact Hg|exact Hr].
Defined.

(** A configuration whose limit of concurrency is zero. *)
Definition zero_config : Config :=
  mkConfig 0 true 1000 true (mkRetryConfig 3 10 25).

Lemma execute_stuck_on_empty_batch_witness :
  execute zero_config demo_key [steady; broken] None 50 demo_graph demo_world
  = None.
Proof.
  destruct (execute_stuck_on_empty_batch zero_config demo_key
              [steady; broken] None demo_graph demo_world) as [_ Hstuck].
  - reflexivity.
  - reflexivity.
  - vm_compute. discriminate.
  - left. reflexivity.
  - apply Hstuck.
Defined.

Lemma no_agent_fails_node_witness :
  exists x',
    executeNode demo_config demo_key [] None 0 (initial demo_graph demo_world)
    = (Fulfilled
         (mkResult error
            ("No agent available for task " ++ quote ++ "A" ++ quote
             ++ " (requested: any)")), x')
    /\ x_results x' = ∅.
Proof.
  destruct (no_agent_fails_node demo_config demo_key [] None 0
              (initial demo_graph demo_world) (fresh_node "A" [] None)
              eq_refl eq_refl) as (x' & tr & Hrun & _ & Hres & _).
  exists x'. split; [exact Hrun|exact Hres].
Defined.



Lemma rate_limiter_once_per_node_witness :
  exists r x' pre post errs e_last,
    executeNode demo_config demo_key [flaky] None 0
      (mkExec [retried_node] ∅ None demo_world) = (r, x')
    /\ retried (execute_ flaky (with_status running retried_node)) 10 25 1
         errs (acquire "flaky" (env demo_world)) e_last
    /\ trace (x_world x')
       = (trace demo_world ++ pre ++ [EvAcquire "flaky"] ++ post)%list
    /\ count_events is_acquire pre = 0%nat
    /\ count_events is_acquire post = 0%nat.
Proof.
  destruct (executeNode demo_config demo_key [flaky] None 0
              (mkExec [retried_node] ∅ None demo_world)) as [r x'] eqn:Hrun.
  destruct (rate_limiter_once_per_node demo_config demo_key [flaky] None 0
              (mkExec [retried_node] ∅ None demo_world) retried_node flaky r x'
              eq_refl eq_refl eq_refl Hrun)
    as (pre & post & errs & e_last & Hchain & _ & Htr & _ & Hpre & Hpost & _).
  exists r, x', pre, post, errs, e_last. split; [reflexivity|].
  split; [exact Hchain|]. split; [exact Htr|]. split; assumption.
Defined.

Lemma execute_keeps_tasks_witness :
  exists res w',
    demo_run = Some (Fulfilled res, w')
    /\ goal (graph res) = "demo"
    /\ Forall2 same_task (nodes demo_graph) (nodes (graph res)).
Proof.
  unfold demo_run.
  destruct (execute demo_config demo_key [steady; broken] None 10
              demo_graph demo_world) as [[[res|thrown] w']|] eqn:Hrun;
    [|vm_compute in Hrun; discriminate Hrun..].
  destruct (execute_keeps_tasks demo_config demo_key [steady; broken] None 10
              demo_graph demo_world res w' Hrun) as (Hgoal & _ & Hnodes).
  exists res, w'. split; [reflexivity|]. split; [exact Hgoal|exact Hnodes].
Defined.

(** A graph whose first node is done already. *)
Definition half_done_graph : TaskGraph :=
  mkGraph "half"
    [with_status done (fresh_node "A" [] None); fresh_node "B" ["A"] None]
    None.

Lemma terminal_nodes_are_final_witness :
  exists ex x',
    execute_loop demo_config demo_key [steady] None 2 10
      (initial half_done_graph demo_world) = Some (ex, x')
    /\ x_nodes x' !! 0%nat = Some (with_status done (fresh_node "A" [] None)).
Proof.
  destruct (execute_loop demo_config demo_key [steady] None 2 10
              (initial half_done_graph demo_world)) as [[ex x']|] eqn:Hrun;
    [|vm_compute in Hrun; discriminate Hrun].
  exists ex, x'. split; [reflexivity|].
  apply (terminal_nodes_are_final demo_config demo_key [steady] None 2 10
           (initial half_done_graph demo_world) ex x' Hrun 0%nat);
    reflexivity.
Defined.

(** In the run of [demo_graph], [executeNode] is entered once for [E], which
    was dispatched, and not at all for [F], which was skipped. *)
Lemma nodes_dispatched_at_most_once_witness :
  exists res w' delta,
    demo_run = Some (Fulfilled res, w')
    /\ trace w' = (trace demo_world ++ delta)%list
    /\ count_events (is_entry "E") delta = 1%nat
    /\ count_events (is_entry "F") delta = 0%nat.
Proof.
  unfold demo_run.
  destruct (execute demo_config demo_key [steady; broken] None 10
              demo_graph demo_world) as [[[res|thrown] w']|] eqn:Hrun;
    [|vm_compute in Hrun; discriminate Hrun..].
  destruct (nodes_dispatched_at_most_once demo_config demo_key
              [steady; broken] None 10 demo_graph demo_world res w')
    as (delta & Htr & Hnodes).
  - apply (bool_decide_unpack _). vm_compute. exact I.
  - exact Hrun.
  - exists res, w', delta. split; [reflexivity|]. split; [exact Htr|].
    vm_compute in Hrun. injection Hrun as <- <-.
    destruct (Hnodes 4%nat _ _ eq_refl eq_refl) as [_ HE].
    destruct (Hnodes 5%nat _ _ eq_refl eq_refl) as [HleF HF].
    split.
    + apply HE. split; [reflexivity|]. right. right. reflexivity.
    + assert (count_events (is_entry "F") delta <> 1%nat) as Hne.
      { intros H1. destruct HF as [HF _].
        destruct (HF H1) as [_ [Hs|[Hs|Hs]]]; discriminate Hs. }
      change (count_events (is_entry "F") delta <= 1)%nat in HleF. lia.
Defined.

(** In the run of [demo_graph] with both callbacks, the events about [E] are
    its dispatch, the call of [onNodeStart] and the call of [onNodeEnd] with
    its result; there is none about [F]; and the environment at the end is
    what the events of the run make of the one at the start. *)
Lemma callbacks_paired_with_dispatches_witness :
  exists res w' delta,
    execute demo_config demo_key [steady; broken] watching 10
      demo_graph demo_world = Some (Fulfilled res, w')
    /\ trace w' = (trace demo_world ++ delta)%list
    /\ replays [steady; broken] watching delta (env demo_world) (env w')
    /\ node_events "E" delta
       = [EvExecuteNode "E"; EvNodeStart "E";
          EvNodeEnd "E" (mkResult error "Error: boom")]
    /\ node_events "F" delta = []%list.
Proof.
  destruct (execute demo_config demo_key [steady; broken] watching 10
              demo_graph demo_world) as [[[res|thrown] w']|] eqn:Hrun;
    [|vm_compute in Hrun; discriminate Hrun..].
  destruct (callbacks_paired_with_dispatches demo_config demo_key
              [steady; broken] watching 10 demo_graph demo_world res w')
    as (delta & Htr & Hrep & Hnodes).
  - apply (bool_decide_unpack _). vm_compute. exact I.
  - exact Hrun.
  - exists res, w', delta. split; [reflexivity|]. split; [exact Htr|].
    split; [exact Hrep|].
    vm_compute in Hrun. injection Hrun as <- <-.
    destruct (Hnodes 4%nat _ _ eq_refl eq_refl) as (_ & HE & _).
    destruct (Hnodes 5%nat _ _ eq_refl eq_refl) as (_ & _ & HF).
    split.
    + apply HE; [reflexivity|]. right. reflexivity.
    + apply HF. right. left. reflexivity.
Defined.

Lemma dependencies_done_first_witness :
  exists res w',
    demo_run = Some (Fulfilled res, w')
    /\ forall n, n ∈ nodes (graph res) ->
         status n = done \/ status n = failed ->
         deps_done (nodes (graph res)) n.
Proof.
  unfold demo_run.
  destruct (execute demo_config demo_key [steady; broken] None 10
              demo_graph demo_world) as [[[res|thrown] w']|] eqn:Hrun;
    [|vm_compute in Hrun; discriminate Hrun..].
  exists res, w'. split; [reflexivity|].
  apply (dependencies_done_first demo_config demo_key [steady; broken] None
           10 demo_graph demo_world res w').
  - repeat constructor.
  - exact Hrun.
Defined.

(** A graph with a node whose id is [__proto__], which fails, next to one
    that is done. *)
Definition proto_graph : TaskGraph :=
  mkGraph "proto"
    [fresh_node "A" [] None; fresh_node "__proto__" [] (Some "fragile")] None.

Lemma nodeResults_mirror_nodes_witness :
  exists res w',
    execute demo_config demo_key [steady; broken] None 10 proto_graph
      demo_world = Some (Fulfilled res, w')
    /\ (forall k r,
          nodeResults res !! k = Some r
          <-> k <> proto_key
              /\ exists n, n ∈ nodes (graph res) /\ id n = k
                   /\ (status n = done \/ status n = failed)
                   /\ result n = Some r)
    /\ nodeResults res !! "__proto__" = None
    /\ nodeResults_proto res = Some (mkResult error "Error: boom").
Proof.
  destruct (execute demo_config demo_key [steady; broken] None 10
              proto_graph demo_world) as [[[res|thrown] w']|] eqn:Hrun;
    [|vm_compute in Hrun; discriminate Hrun..].
  destruct (nodeResults_mirror_nodes demo_config demo_key [steady; broken]
              None 10 proto_graph demo_world res w')
    as (Hentries & Hproto & _).
  - apply (bool_decide_unpack _). vm_compute. exact I.
  - repeat constructor; discriminate.
  - exact Hrun.
  - exists res, w'. split; [reflexivity|]. split; [exact Hentries|].
    vm_compute in Hrun. injection Hrun as <- <-.
    split; reflexivity.
Defined.

(** The state after [A] was executed once by [steady]. *)
Definition after_A : Exec :=
  snd (executeNode demo_config demo_key [steady] None 0
         (initial demo_graph demo_world)).

Lemma cached_result_is_reused_witness :
  exists x3 tr,
    executeNode demo_config demo_key [steady] None 0 after_A
    = (Fulfilled (mkResult ok "X"), x3)
    /\ trace (x_world x3) = (trace (x_world after_A) ++ tr)%list
    /\ count_events is_invoke tr = 0%nat.
Proof.
  destruct (cached_result_is_reused demo_config demo_key [steady] None 0 0
              (initial demo_graph demo_world) after_A after_A
              (fresh_node "A" [] None)
              (with_status running (fresh_node "A" [] None))
              steady steady (mkResult ok "X"))
    as (x3 & tr & Hrun & _ & Htr & Hinv & _);
    try reflexivity.
  exists x3, tr. split; [exact Hrun|]. split; [exact Htr|exact Hinv].
Defined.

(** A graph whose second node waits for a node that does not exist. *)
Definition ghost_graph : TaskGraph :=
  mkGraph "ghost"
    [fresh_node "A" [] None; fresh_node "B" ["ghost"] None] None.

Lemma unresolved_dependency_never_runs_witness :
  exists res w',
    execute demo_config demo_key [steady] None 10 ghost_graph demo_world
    = Some (Fulfilled res, w')
    /\ (nodes (graph res) !! 1%nat = Some (fresh_node "B" ["ghost"] None)
        \/ nodes (graph res) !! 1%nat
           = Some (with_status skipped (fresh_node "B" ["ghost"] None)))
    /\ success res = false.
Proof.
  destruct (execute demo_config demo_key [steady] None 10 ghost_graph
              demo_world) as [[[res|thrown] w']|] eqn:Hrun;
    [|vm_compute in Hrun; discriminate Hrun..].
  exists res, w'. split; [reflexivity|].
  apply (unresolved_dependency_never_runs demo_config demo_key [steady] None
           10 ghost_graph demo_world res w' 1 (fresh_node "B" ["ghost"] None)
           "ghost").
  - reflexivity.
  - reflexivity.
  - constructor.
  - reflexivity.
  - exact Hrun.
Defined.

Lemma deadlock_returns_graph_as_is_witness :
  exists res w',
    execute demo_config demo_key [steady] None 1
      (mkGraph "stuck" [fresh_node "B" ["ghost"] None] None) demo_world
    = Some (Fulfilled res, w')
    /\ success res = false
    /\ nodeResults res = ∅.
Proof.
  destruct (deadlock_returns_graph_as_is demo_config demo_key [steady] None 0
              (mkGraph "stuck" [fresh_node "B" ["ghost"] None] None)
              demo_world eq_refl eq_refl eq_refl)
    as (res & w' & Hrun & _ & Hs & Hr & _).
  exists res, w'. split; [exact Hrun|]. split; assumption.
Defined.

(** *** The planner and its sources *)

(** [createTaskGraph] for the runs below: every node pending. *)
Definition demo_createTaskGraph (goal_ : string) (ns : list PlannerNode)
    (prompt : option string) : JsValue + TaskGraph :=
  inr (mkGraph goal_
         (map (fun n => mkNode (pn_id n) (pn_task n) (pn_dependsOn n)
                          (pn_assignTo n) pending None None) ns)
         prompt).

(** A planner agent that answers with the fenced plan, one that answers with
    an error result, and a gateway that answers with the plan. *)
Definition planning : AgentAdapter :=
  mkAgent "planning" []
    (fun _ e => (Fulfilled (mkResult ok fenced_plan), (fst e + 1, S (snd e)))).

Definition refusing : AgentAdapter :=
  mkAgent "refusing" []
    (fun _ e => (Fulfilled (mkResult error "no"), (fst e + 1, S (snd e)))).

Definition demo_gateway : GatewayClient :=
  mkGateway (fun _ _ (e : Z * nat) => (Fulfilled plan_text, e)).

Lemma plan_without_llm_source_witness :
  exists e,
    plan demo_JSON_parse demo_issues "" demo_createTaskGraph
      (mkPlannerOptions None None None) "goal" demo_world
    = (Rejected e, demo_world)
    /\ error_code e = Some CONFIG_MISSING.
Proof.
  destruct (plan_without_llm_source demo_JSON_parse demo_issues ""
              demo_createTaskGraph (mkPlannerOptions None None None) "goal"
              demo_world eq_refl eq_refl) as (e & Hrun & Hcode & _).
  exists e. split; [exact Hrun|exact Hcode].
Defined.

Lemma planner_agent_comes_first_witness :
  exists r w' e,
    callLlm "SYSTEM" (mkPlannerOptions (Some demo_gateway) (Some refusing) None)
      "Goal: g" demo_world = (r, w')
    /\ r = Rejected e
    /\ error_code e = Some AGENT_EXECUTION_FAILED.
Proof.
  destruct (callLlm "SYSTEM"
              (mkPlannerOptions (Some demo_gateway) (Some refusing) None)
              "Goal: g" demo_world) as [r w'] eqn:Hrun.
  destruct (planner_agent_comes_first "SYSTEM"
              (mkPlannerOptions (Some demo_gateway) (Some refusing) None)
              "Goal: g" refusing demo_world r w' eq_refl Hrun)
    as (res & Hres & _ & _ & _ & Hfail & _).
  injection Hres as <- _.
  destruct (Hfail (mkResult error "no") eq_refl) as (e & He & Hcode & _);
    [discriminate|].
  exists r, w', e. split; [reflexivity|]. split; [exact He|exact Hcode].
Defined.

Lemma plan_asks_once_witness :
  exists r w' delta,
    plan demo_JSON_parse demo_issues "" demo_createTaskGraph
      (mkPlannerOptions None (Some planning) None) "goal" demo_world = (r, w')
    /\ trace w' = (trace demo_world ++ delta)%list
    /\ count_events is_invoke delta = 1%nat
    /\ count_events is_sleep delta = 0%nat.
Proof.
  destruct (plan demo_JSON_parse demo_issues "" demo_createTaskGraph
              (mkPlannerOptions None (Some planning) None) "goal" demo_world)
    as [r w'] eqn:Hrun.
  destruct (plan_asks_once demo_JSON_parse demo_issues ""
              demo_createTaskGraph (mkPlannerOptions None (Some planning) None)
              "goal" demo_world r w' Hrun)
    as (_ & delta & Htr & Hinv & Hsl & _).
  exists r, w', delta. split; [reflexivity|]. split; [exact Htr|].
  split; [exact Hinv|exact Hsl].
Defined.

Lemma plan_fulfils_only_conforming_witness :
  exists g w' resp,
    plan demo_JSON_parse demo_issues "" demo_createTaskGraph
      (mkPlannerOptions None (Some planning) None) "goal" demo_world
    = (Fulfilled g, w')
    /\ pr_nodes resp <> []%list
    /\ demo_createTaskGraph "goal" (pr_nodes resp) (pr_synthesizerPrompt resp)
       = inr g.
Proof.
  destruct (plan demo_JSON_parse demo_issues "" demo_createTaskGraph
              (mkPlannerOptions None (Some planning) None) "goal" demo_world)
    as [[g|reason] w'] eqn:Hrun; [|vm_compute in Hrun; discriminate Hrun].
  destruct (plan_fulfils_only_conforming demo_JSON_parse demo_issues ""
              demo_createTaskGraph (mkPlannerOptions None (Some planning) None)
              "goal" demo_world g w' Hrun)
    as (raw & parsed & resp & _ & _ & _ & _ & Hne & _ & Hg).
  exists g, w', resp. split; [reflexivity|]. split; [exact Hne|exact Hg].
Defined.

Lemma clean_response_no_fence_witness : clean_response plan_text = plan_text.
Proof.
  destruct (clean_response_no_fence plan_text eq_refl) as (_ & _ & Hclean).
  rewrite Hclean. reflexivity.
Defined.

Lemma clean_response_fenced_witness : clean_response fenced_plan = plan_text.
Proof.
  exact (clean_response_fenced "json" plan_text nl (or_intror eq_refl)
           eq_refl eq_refl).
Defined.

Lemma gateway_session_key_witness :
  exists r w',
    callLlm "SYSTEM" (mkPlannerOptions (Some demo_gateway) None None)
      "Goal: g" demo_world = (r, w')
    /\ chat demo_gateway ("SYSTEM" ++ nl ++ nl ++ "Goal: g")
         "planner-6f1c2a9e" (env demo_world) = (r, env w').
Proof.
  destruct (callLlm "SYSTEM" (mkPlannerOptions (Some demo_gateway) None None)
              "Goal: g" demo_world) as [r w'] eqn:Hrun.
  destruct (gateway_session_key "SYSTEM"
              (mkPlannerOptions (Some demo_gateway) None None) "Goal: g"
              demo_gateway demo_world r w' eq_refl eq_refl Hrun)
    as (uuid & e1 & Huuid & Hchat & _).
  injection Huuid as <- <-.
  exists r, w'. split; [reflexivity|exact Hchat].
Defined.
